(** * geotiff_to_kmz: a shallow embedding of the batch GeoTIFF-to-KMZ converter

    The development follows [geotiff_to_kmz.py] function by function.

    - Python [str] values are [string]; indices are [Z] (Python's [rfind]
      answers -1), slices clamp the way Python's do.
    - Python [float] values are binary64 primitive floats.
    - Exceptions are an explicit [outcome]; code that touches the file system
      threads a [world] through a small state-and-exception monad.
    - What the script delegates to GDAL, Pillow and [tempfile] is a record of
      collaborators, [Collaborators]: every theorem holds for all of them.
    - The process pool of [__main__] is a transition system whose actions are
      chosen by the operating system's scheduler. *)

From Stdlib Require Import ZArith Floats Uint63 Ascii String DecimalString Permutation.
From stdpp Require Import gmap strings list.

Set Warnings "-register-all".

Local Open Scope Z_scope.

(** ** Python strings *)

Definition slash : ascii := "/"%char.
Definition dot : ascii := "."%char.

(** [len(s)] *)
Definition len (s : string) : Z := Z.of_nat (String.length s).

(** Clamping of one slice bound, as [PySlice_AdjustIndices] does for step 1. *)
Definition clamp (n i : Z) : Z :=
  if i <? 0 then Z.max 0 (n + i) else Z.min i n.

(** [s[i:j]] *)
Definition slice (s : string) (i j : Z) : string :=
  let a := clamp (len s) i in
  let b := clamp (len s) j in
  substring (Z.to_nat a) (Z.to_nat (b - a)) s.

(** [s[i:]] and [s[:j]] *)
Definition slice_from (s : string) (i : Z) : string := slice s i (len s).
Definition slice_to (s : string) (j : Z) : string := slice s 0 j.

(** [s.rfind(c)] for a one-character [c]: the highest index holding [c], or -1.
    The scan runs left to right and remembers the last hit. *)
Fixpoint rfind_from (c : ascii) (s : string) (i found : Z) : Z :=
  match s with
  | EmptyString => found
  | String a s' => rfind_from c s' (i + 1) (if Ascii.eqb a c then i else found)
  end.

Definition rfind (c : ascii) (s : string) : Z := rfind_from c s 0 (-1).

(** [c.lower()] and [s.lower()] on ASCII text. *)
Definition ascii_lower (c : ascii) : ascii :=
  let n := nat_of_ascii c in
  if ((65 <=? n) && (n <=? 90))%nat then ascii_of_nat (n + 32) else c.

Fixpoint lower (s : string) : string :=
  match s with
  | EmptyString => EmptyString
  | String c s' => String (ascii_lower c) (lower s')
  end.

(** [s.startswith(p)] and [s.endswith(p)] *)
Definition startswith (s p : string) : bool := String.prefix p s.

Definition endswith (s p : string) : bool :=
  (len p <=? len s) && String.eqb (slice_from s (len s - len p)) p.

(** [str(n)] for a non-negative [int] *)
Definition str_of_nat (n : nat) : string := NilZero.string_of_uint (Nat.to_uint n).

(** ** [posixpath] *)

(** [os.path.join(a, b)] *)
Definition join (a b : string) : string :=
  if startswith b "/" then b
  else if String.eqb a "" || endswith a "/" then a +:+ b
  else a +:+ "/" +:+ b.

(** [os.path.basename(p)]: [i = p.rfind('/') + 1; return p[i:]] *)
Definition basename (p : string) : string := slice_from p (rfind slash p + 1).

(** The [while] loop of [genericpath._splitext], which skips leading dots of
    the file name: [n] bounds the iterations left ([dotIndex - filenameIndex]). *)
Fixpoint splitext_loop (p : string) (dotIndex : Z) (n : nat) (filenameIndex : Z)
  : string * string :=
  match n with
  | O => (p, slice_to p 0)
  | S n' =>
      if negb (String.eqb (slice p filenameIndex (filenameIndex + 1)) ".")
      then (slice_to p dotIndex, slice_from p dotIndex)
      else splitext_loop p dotIndex n' (filenameIndex + 1)
  end.

(** [os.path.splitext(p)] *)
Definition splitext (p : string) : string * string :=
  let sepIndex := rfind slash p in
  let dotIndex := rfind dot p in
  if sepIndex <? dotIndex
  then splitext_loop p dotIndex (Z.to_nat (dotIndex - (sepIndex + 1))) (sepIndex + 1)
  else (p, slice_to p 0).

(** ** Exceptions and outcomes *)

(** A raised Python exception that is an instance of [Exception] (what
    [except Exception] catches): its class and [str(e)]. A call ends by
    returning or by raising one of these; a worker process that dies, an
    exception outside [Exception] and a call that never ends are not
    represented, and no statement below says what the script does then. *)
Record exn := Exn { exn_class : string; exn_str : string }.

Inductive outcome (A : Type) : Type :=
| Return (a : A)
| Raise (e : exn).

Arguments Return {A} a.
Arguments Raise {A} e.

Definition bind {A B : Type} (m : outcome A) (k : A -> outcome B) : outcome B :=
  match m with
  | Return a => k a
  | Raise e => Raise e
  end.

Notation "x <- m ;; k" := (bind m (fun x => k))
  (at level 100, m at next level, right associativity).

(** ** Numbers of the bounds computation *)

(** [float(n)] for the [int] sizes of a raster: exact below 2^53. *)
Definition float_of_int (n : Z) : float :=
  if n <? 0 then PrimFloat.opp (PrimFloat.of_uint63 (Uint63.of_Z (- n)))
  else PrimFloat.of_uint63 (Uint63.of_Z n).

(** [max(l)] and [min(l)]: CPython keeps the first item and replaces it by a
    later [item] exactly when [item > kept] (resp. [item < kept]). *)
Definition py_max (l : list float) : outcome float :=
  match l with
  | [] => Raise (Exn "ValueError" "max() arg is an empty sequence")
  | x :: xs => Return (fold_left (fun kept item => if PrimFloat.ltb kept item then item else kept) xs x)
  end.

Definition py_min (l : list float) : outcome float :=
  match l with
  | [] => Raise (Exn "ValueError" "min() arg is an empty sequence")
  | x :: xs => Return (fold_left (fun kept item => if PrimFloat.ltb item kept then item else kept) xs x)
  end.

(** ** GDAL objects *)

(** The six coefficients [gt[0]] .. [gt[5]] of [ds.GetGeoTransform()]. *)
Record GeoTransform := {
  gt0 : float; gt1 : float; gt2 : float; gt3 : float; gt4 : float; gt5 : float
}.

(** [osr.SpatialReference(wkt=ds.GetProjection())]: the two queries the
    script makes; [GetAuthorityCode(None)] answers a string or [None], or raises. *)
Record SpatialReference := {
  IsProjected : bool;
  GetAuthorityCode : outcome (option string)
}.

(** An opened dataset. *)
Record Dataset := {
  GetGeoTransform : GeoTransform;
  RasterXSize : Z;
  RasterYSize : Z;
  GetProjection : SpatialReference
}.

(** ** The file system *)

Inductive compression := ZIP_STORED | ZIP_DEFLATED.

(** A file is a byte string or a zip archive, the list of its entries in the
    order they were written: archive name, compression method, content. *)
Inductive file :=
| Regular (data : string)
| Zip (entries : list ZipEntry)
with ZipEntry :=
| Entry (arcname : string) (compress_type : compression) (content : file).

(** [files]: the regular files by path; [dirs]: the directories that exist;
    [locked]: the paths the process may neither write nor remove; [cwd]:
    [os.getcwd()]. *)
Record world := {
  files : gmap string file;
  dirs : gset string;
  locked : gset string;
  cwd : string
}.

(** A PIL image as far as the script looks at it. *)
Record image := { mode : string; pixels : string }.

(** Code with effects: the world is threaded, also through a raised exception. *)
Definition M (A : Type) : Type := world -> world * outcome A.

Definition ret {A : Type} (a : A) : M A := fun w => (w, Return a).
Definition raise {A : Type} (e : exn) : M A := fun w => (w, Raise e).

Definition bindM {A B : Type} (m : M A) (k : A -> M B) : M B :=
  fun w => match m w with
           | (w', Return a) => k a w'
           | (w', Raise e) => (w', Raise e)
           end.

Notation "x <~ m ;; k" := (bindM m (fun x => k))
  (at level 100, m at next level, right associativity).
Notation "m ;;; k" := (bindM m (fun _ => k))
  (at level 100, right associativity).

(** [try: body / except Exception as e: handler(e) / finally: final]. The
    [finally] block runs on every path; an exception of its own would replace
    the result. *)
Definition try_except_finally {A : Type} (body : M A) (handler : exn -> M A) (final : M unit) : M A :=
  fun w =>
    let (w1, r1) := match body w with
                    | (w', Return a) => (w', Return a)
                    | (w', Raise e) => handler e w'
                    end in
    match final w1 with
    | (w2, Return _) => (w2, r1)
    | (w2, Raise e) => (w2, Raise e)
    end.

(** [try: body / except Exception: pass] *)
Definition try_except_pass (body : M unit) : M unit :=
  fun w => match body w with
           | (w', Return _) => (w', Return tt)
           | (w', Raise _) => (w', Return tt)
           end.

(** ** The collaborators

    GDAL, Pillow, [tempfile] and [float.__str__] are outside the script. Each
    is taken as given; those that touch the disk may change the world in any
    way and may raise. *)
Class Collaborators := {
  (** [gdal.Open(path)]: the dataset, or [None] when the file cannot be opened
      (GDAL's Python bindings without [UseExceptions]). *)
  gdal_Open : string -> world -> option Dataset;
  (** [gdal.Translate(png_path, ds, format='PNG', ..., creationOptions=[ZLEVEL, NBITS])] *)
  gdal_Translate : string -> Dataset -> Z -> M unit;
  (** [ct.TransformPoint(x, y)] of the transformation EPSG:3857 to EPSG:4326:
      a triple, whose order of axes is the library's (GDAL 3 answers in the
      order the authority gives for the target system, for EPSG:4326
      latitude first; GDAL 2 answers longitude first). *)
  TransformPoint : float -> float -> float * float * float;
  (** [Image.open], [img.convert], [img.quantize], [img.save(path, optimize=True)] *)
  Image_open : string -> M image;
  Image_convert : image -> string -> M image;
  Image_quantize : image -> Z -> M image;
  Image_save : image -> string -> M unit;
  (** [tempfile.TemporaryDirectory()]: makes a fresh directory and answers its name *)
  TemporaryDirectory : M string;
  (** [str(x)] of a float, as an f-string renders it *)
  str_of_float : float -> string
}.

(** ** Files: [open(p, 'w')], [os.path.exists], [os.remove], [zipfile], [shutil.rmtree] *)

Definition set_files (f : gmap string file -> gmap string file) (w : world) : world :=
  {| files := f (files w); dirs := dirs w; locked := locked w; cwd := cwd w |}.

Definition set_dirs (f : gset string -> gset string) (w : world) : world :=
  {| files := files w; dirs := f (dirs w); locked := locked w; cwd := cwd w |}.

Definition quoted (p : string) : string := "'" +:+ p +:+ "'".

Definition PermissionError (p : string) : exn :=
  Exn "PermissionError" ("[Errno 13] Permission denied: " +:+ quoted p).
Definition FileNotFoundError (p : string) : exn :=
  Exn "FileNotFoundError" ("[Errno 2] No such file or directory: " +:+ quoted p).
Definition IsADirectoryError (p : string) : exn :=
  Exn "IsADirectoryError" ("[Errno 21] Is a directory: " +:+ quoted p).
Definition FileExistsError (p : string) : exn :=
  Exn "FileExistsError" ("[Errno 17] File exists: " +:+ quoted p).

(** [with open(p, 'w') as f: f.write(data)]. The directory the path lies in is
    taken to be there, as it is where the script writes: the temporary
    directory of the call, or a mirror the walker has made. *)
Definition write_text (p data : string) : M unit :=
  fun w =>
    if bool_decide (p ∈ locked w) then (w, Raise (PermissionError p))
    else if bool_decide (p ∈ dirs w) then (w, Raise (IsADirectoryError p))
    else (set_files <[p := Regular data]> w, Return tt).

(** [os.path.exists(p)] *)
Definition os_path_exists (p : string) (w : world) : bool :=
  bool_decide (is_Some (files w !! p)) || bool_decide (p ∈ dirs w).

(** [os.remove(p)] *)
Definition os_remove (p : string) : M unit :=
  fun w =>
    if bool_decide (p ∈ locked w) then (w, Raise (PermissionError p))
    else match files w !! p with
         | Some _ => (set_files (delete p) w, Return tt)
         | None =>
             if bool_decide (p ∈ dirs w) then (w, Raise (IsADirectoryError p))
             else (w, Raise (FileNotFoundError p))
         end.

(** [os.makedirs(p, exist_ok=True)]: no error when the directory is there.
    The disk is keyed by paths as they are spelled, so this is [makedirs] as
    far as the path [p] itself goes: the directories above it are taken to
    be there. *)
Definition os_makedirs_exist_ok (p : string) : M unit :=
  fun w =>
    if bool_decide (p ∈ dirs w) then (w, Return tt)
    else if bool_decide (is_Some (files w !! p)) then (w, Raise (FileExistsError p))
    else if bool_decide (p ∈ locked w) then (w, Raise (PermissionError p))
    else (set_dirs (union {[p]}) w, Return tt).

Definition entries_of (f : option file) : list ZipEntry :=
  match f with
  | Some (Zip es) => es
  | _ => []
  end.

(** [zipfile.ZipFile(path, 'w', method)]: the archive is created empty
    (an older file of that name is truncated). The directory the path lies
    in is taken to be there, as for [write_text]. *)
Definition ZipFile_w (path : string) : M unit :=
  fun w =>
    if bool_decide (path ∈ locked w) then (w, Raise (PermissionError path))
    else if bool_decide (path ∈ dirs w) then (w, Raise (IsADirectoryError path))
    else (set_files <[path := Zip []]> w, Return tt).

(** [zf.write(filename, arcname=arcname)] on the archive at [path] opened with [method] *)
Definition ZipFile_write (path : string) (method : compression) (filename arcname : string) : M unit :=
  fun w =>
    match files w !! filename with
    | None => (w, Raise (FileNotFoundError filename))
    | Some f =>
        (set_files <[path := Zip (entries_of (files w !! path) ++ [Entry arcname method f])]> w,
         Return tt)
    end.

(** What [TemporaryDirectory.__exit__] does: the directory and all below it go. *)
Definition under (d p : string) : bool := startswith p (join d "").

Definition rmtree (d : string) (w : world) : world :=
  {| files := filter (fun kv => under d kv.1 = false) (files w);
     dirs := filter (fun p => under d p = false ∧ p ≠ d) (dirs w);
     locked := locked w;
     cwd := cwd w |}.

(** [with tempfile.TemporaryDirectory() as tmpdir: body] *)
Definition with_TemporaryDirectory `{Collaborators} {A : Type} (body : string -> M A) : M A :=
  fun w =>
    match TemporaryDirectory w with
    | (w1, Raise e) => (w1, Raise e)
    | (w1, Return tmpdir) =>
        let (w2, r) := body tmpdir w1 in (rmtree tmpdir w2, r)
    end.

(** ** The script *)

Section Script.
Context `{Collaborators}.

Definition geotiff_to_png (tiff_path png_path : string) (zlevel : Z) : M unit :=
  fun w =>
    match gdal_Open tiff_path w with
    | None => (w, Raise (Exn "Exception" ("Unable to open input GeoTIFF: " +:+ tiff_path)))
    | Some ds => gdal_Translate png_path ds zlevel w
    end.

Definition quantize_png_with_pillow (png_path : string) (colors : Z) : M unit :=
  img <~ Image_open png_path;;
  img <~ (if negb (String.eqb (mode img) "RGBA") then Image_convert img "RGBA" else ret img);;
  quantized <~ Image_quantize img colors;;
  Image_save quantized png_path.

(** The four corners, in the order top-left, top-right, bottom-left, bottom-right. *)
Definition corners (ds : Dataset) : list (float * float) :=
  let gt := GetGeoTransform ds in
  let cols := float_of_int (RasterXSize ds) in
  let rows := float_of_int (RasterYSize ds) in
  [ (gt0 gt, gt3 gt);
    (gt0 gt + cols * gt1 gt, gt3 gt);
    (gt0 gt, gt3 gt + rows * gt5 gt);
    (gt0 gt + cols * gt1 gt, gt3 gt + rows * gt5 gt) ]%float.

(** [epsg = None; if srs.IsProjected(): try: epsg = srs.GetAuthorityCode(None) except: epsg = None] *)
Definition epsg_of (srs : SpatialReference) : option string :=
  if IsProjected srs
  then match GetAuthorityCode srs with
       | Return code => code
       | Raise _ => None
       end
  else None.

(** The list [latlons] of the script: in the first branch each corner is
    transformed, [lon, lat, _ = ct.TransformPoint(x, y)], and the pair
    [(lon, lat)] is appended; in the second [(y, x)] is. *)
Definition latlons_of (epsg : option string) (cs : list (float * float)) : list (float * float) :=
  if bool_decide (epsg = Some "3857")
  then map (fun c => let '(lon, lat, _) := TransformPoint c.1 c.2 in (lon, lat)) cs
  else map (fun c => (c.2, c.1)) cs.

(** The reduction [lats = [lat for lat, lon in latlons]] etc. *)
Definition bounds_of (latlons : list (float * float)) : outcome (float * float * float * float) :=
  let lats := map (fun p => p.1) latlons in
  let lons := map (fun p => p.2) latlons in
  north <- py_max lats;;
  south <- py_min lats;;
  east <- py_max lons;;
  west <- py_min lons;;
  Return (north, south, east, west).

Definition AttributeError_None (attr : string) : exn :=
  Exn "AttributeError" ("'NoneType' object has no attribute " +:+ quoted attr).

Definition get_geotiff_bounds (tiff_path : string) : M (float * float * float * float) :=
  fun w =>
    match gdal_Open tiff_path w with
    | None => (w, Raise (AttributeError_None "GetGeoTransform"))
    | Some ds =>
        (w, bounds_of (latlons_of (epsg_of (GetProjection ds)) (corners ds)))
    end.

Definition nl : string := String (ascii_of_nat 10) EmptyString.
Definition dq : string := String (ascii_of_nat 34) EmptyString.

Definition kml_content (image_name : string) (north south east west : float) : string :=
  "<?xml version=" +:+ dq +:+ "1.0" +:+ dq +:+ " encoding=" +:+ dq +:+ "UTF-8" +:+ dq +:+ "?>" +:+ nl +:+
  "<kml xmlns=" +:+ dq +:+ "http://www.opengis.net/kml/2.2" +:+ dq +:+ ">" +:+ nl +:+
  "  <GroundOverlay>" +:+ nl +:+
  "    <name>" +:+ image_name +:+ "</name>" +:+ nl +:+
  "    <Icon>" +:+ nl +:+
  "      <href>" +:+ image_name +:+ "</href>" +:+ nl +:+
  "    </Icon>" +:+ nl +:+
  "    <color>ffffffff</color>" +:+ nl +:+
  "    <LatLonBox>" +:+ nl +:+
  "      <north>" +:+ str_of_float north +:+ "</north>" +:+ nl +:+
  "      <south>" +:+ str_of_float south +:+ "</south>" +:+ nl +:+
  "      <east>" +:+ str_of_float east +:+ "</east>" +:+ nl +:+
  "      <west>" +:+ str_of_float west +:+ "</west>" +:+ nl +:+
  "    </LatLonBox>" +:+ nl +:+
  "  </GroundOverlay>" +:+ nl +:+
  "</kml>" +:+ nl.

Definition generate_kml (image_name : string) (north south east west : float) (kml_path : string) : M unit :=
  write_text kml_path (kml_content image_name north south east west).

Definition create_kmz (kml_path image_path kmz_path : string) : M unit :=
  ZipFile_w kmz_path;;;
  ZipFile_write kmz_path ZIP_DEFLATED kml_path "doc.kml";;;
  ZipFile_write kmz_path ZIP_DEFLATED image_path (basename image_path).

Definition remove_if_exists (p : string) : M unit :=
  fun w => if os_path_exists p w then try_except_pass (os_remove p) w else (w, Return tt).

Definition cleanup_aux_xml (tif_path : string) : M unit :=
  let aux_xml := tif_path +:+ ".aux.xml" in
  remove_if_exists aux_xml;;;
  if endswith (lower tif_path) ".tif"
  then let alt_aux_xml := slice_to tif_path (-4) +:+ ".tiff.aux.xml" in
       remove_if_exists alt_aux_xml
  else ret tt.

(** Steps 1 to 5, the body of the [try]. *)
Definition pipeline (tif_path kmz_path png_path kml_path : string) : M (string * string) :=
  geotiff_to_png tif_path png_path 9;;;
  quantize_png_with_pillow png_path 256;;;
  b <~ get_geotiff_bounds tif_path;;
  let '(north, south, east, west) := b in
  generate_kml (basename png_path) north south east west kml_path;;;
  create_kmz kml_path png_path kmz_path;;;
  ret (tif_path, "OK").

Definition convert_tif_to_kmz_task (args : string * string) : M (string * string) :=
  let '(tif_path, kmz_path) := args in
  let base := (splitext (basename tif_path)).1 in
  with_TemporaryDirectory (fun tmpdir =>
    let png_path := join tmpdir (base +:+ ".png") in
    let kml_path := join tmpdir "doc.kml" in
    try_except_finally
      (pipeline tif_path kmz_path png_path kml_path)
      (fun e => ret (tif_path, "FAILED: " +:+ exn_str e))
      (cleanup_aux_xml tif_path)).

(** [pipeline] stops in stage [k] (1 to 5) with the exception [e], in the world [w']. *)
Inductive raises_in_stage (tif_path kmz_path png_path kml_path : string) (w : world)
  : nat -> exn -> world -> Prop :=
| raises_in_decode e w' :
    geotiff_to_png tif_path png_path 9 w = (w', Raise e) ->
    raises_in_stage tif_path kmz_path png_path kml_path w 1 e w'
| raises_in_quantize w1 e w' :
    geotiff_to_png tif_path png_path 9 w = (w1, Return tt) ->
    quantize_png_with_pillow png_path 256 w1 = (w', Raise e) ->
    raises_in_stage tif_path kmz_path png_path kml_path w 2 e w'
| raises_in_bounds w1 w2 e w' :
    geotiff_to_png tif_path png_path 9 w = (w1, Return tt) ->
    quantize_png_with_pillow png_path 256 w1 = (w2, Return tt) ->
    get_geotiff_bounds tif_path w2 = (w', Raise e) ->
    raises_in_stage tif_path kmz_path png_path kml_path w 3 e w'
| raises_in_overlay w1 w2 w3 north south east west e w' :
    geotiff_to_png tif_path png_path 9 w = (w1, Return tt) ->
    quantize_png_with_pillow png_path 256 w1 = (w2, Return tt) ->
    get_geotiff_bounds tif_path w2 = (w3, Return (north, south, east, west)) ->
    generate_kml (basename png_path) north south east west kml_path w3 = (w', Raise e) ->
    raises_in_stage tif_path kmz_path png_path kml_path w 4 e w'
| raises_in_packaging w1 w2 w3 w4 north south east west e w' :
    geotiff_to_png tif_path png_path 9 w = (w1, Return tt) ->
    quantize_png_with_pillow png_path 256 w1 = (w2, Return tt) ->
    get_geotiff_bounds tif_path w2 = (w3, Return (north, south, east, west)) ->
    generate_kml (basename png_path) north south east west kml_path w3 = (w4, Return tt) ->
    create_kmz kml_path png_path kmz_path w4 = (w', Raise e) ->
    raises_in_stage tif_path kmz_path png_path kml_path w 5 e w'.

End Script.

(** ** [os.path.relpath] *)

(** [s.split(c)] for a one-character separator: never the empty list. *)
Fixpoint split (c : ascii) (s : string) : list string :=
  match s with
  | EmptyString => [EmptyString]
  | String a s' =>
      if Ascii.eqb a c then EmptyString :: split c s'
      else match split c s' with
           | x :: xs => String a x :: xs
           | [] => [String a EmptyString]
           end
  end.

(** ['/'.join(l)] *)
Fixpoint sep_join (l : list string) : string :=
  match l with
  | [] => ""
  | [x] => x
  | x :: xs => x +:+ "/" +:+ sep_join xs
  end.

(** [os.path.join(a, *p)] *)
Definition join_all (a : string) (p : list string) : string := fold_left join p a.

(** One round of the loop of [posixpath.normpath] over the components. *)
Definition normpath_step (initial_slashes : nat) (new_comps : list string) (comp : string) : list string :=
  if String.eqb comp "" || String.eqb comp "." then new_comps
  else if negb (String.eqb comp "..")
          || (Nat.eqb initial_slashes 0 && bool_decide (new_comps = []))
          || bool_decide (last new_comps = Some "..")
       then new_comps ++ [comp]
       else removelast new_comps.

Definition normpath (path : string) : string :=
  if String.eqb path "" then "."
  else
    let initial_slashes :=
      if startswith path "/"
      then (if startswith path "//" && negb (startswith path "///") then 2 else 1)%nat
      else 0%nat in
    let comps := fold_left (normpath_step initial_slashes) (split slash path) [] in
    let path := sep_join comps in
    let path := Nat.iter initial_slashes (String slash) path in
    if String.eqb path "" then "." else path.

(** [os.path.abspath(path)] in the working directory [cwd] *)
Definition abspath (cwd path : string) : string :=
  normpath (if startswith path "/" then path else join cwd path).

(** [len(commonprefix([l1, l2]))] on two lists of components *)
Fixpoint common_prefix_len (l1 l2 : list string) : nat :=
  match l1, l2 with
  | x :: l1', y :: l2' => if String.eqb x y then S (common_prefix_len l1' l2') else O
  | _, _ => O
  end.

Definition nonempty_comps (p : string) : list string :=
  filter (fun x => x ≠ "") (split slash p).

(** [os.path.relpath(path, start)] *)
Definition relpath (path start : string) : M string :=
  fun w =>
    if String.eqb path "" then (w, Raise (Exn "ValueError" "no path specified"))
    else
      let start_list := nonempty_comps (abspath (cwd w) start) in
      let path_list := nonempty_comps (abspath (cwd w) path) in
      let i := common_prefix_len start_list path_list in
      let rel_list := repeat ".." (length start_list - i) ++ drop i path_list in
      match rel_list with
      | [] => (w, Return ".")
      | a :: p => (w, Return (join_all a p))
      end.

(** ** The tree walker *)

(** A directory as [os.walk] lists it: its name, its subdirectories and the
    names of its non-directory entries, each list in [scandir]'s order. *)
Inductive tree :=
| Dir (name : string) (subdirs : list tree) (filenames : list string).

Definition dir_name (t : tree) : string := let 'Dir n _ _ := t in n.
Definition subdirs_of (t : tree) : list tree := let 'Dir _ ds _ := t in ds.
Definition filenames_of (t : tree) : list string := let 'Dir _ _ fs := t in fs.

(** The triples [(dirpath, dirnames, filenames)] that [os.walk(top)] yields,
    top-down, for the directory [t] found at [top]. *)
Fixpoint walk (top : string) (t : tree) : list (string * list string * list string) :=
  match t with
  | Dir _ subs fs =>
      (top, map dir_name subs, fs)
        :: flat_map (fun s => walk (join top (dir_name s)) s) subs
  end.

(** [os.walk('')] yields nothing: [scandir('')] fails and the error is dropped.
    The tree [t] is the listing the walk yields. [os.walk] lists each
    directory when it comes to it, so [t] is the tree as it stands at the
    start of the walk only if the loop body makes no directory inside it:
    the statements about the walker take the two roots apart
    ([roots_apart]) or are about a walk that has returned. *)
Definition os_walk (top : string) (t : tree) : list (string * list string * list string) :=
  if String.eqb top "" then [] else walk top t.

Definition task : Type := string * string.

Definition is_tif (fname : string) : bool :=
  endswith (lower fname) ".tif" || endswith (lower fname) ".tiff".

Definition kmz_name_of (fname : string) : string := (splitext fname).1 +:+ ".kmz".

(** The inner loop [for fname in filenames] *)
Fixpoint tasks_of_files (dirpath out_dir : string) (filenames : list string) (tasks : list task) : list task :=
  match filenames with
  | [] => tasks
  | fname :: rest =>
      if is_tif fname
      then let tif_path := join dirpath fname in
           let kmz_name := kmz_name_of fname in
           let kmz_path := join out_dir kmz_name in
           tasks_of_files dirpath out_dir rest (tasks ++ [(tif_path, kmz_path)])
      else tasks_of_files dirpath out_dir rest tasks
  end.

(** The outer loop [for dirpath, dirnames, filenames in os.walk(root_in)] *)
Fixpoint gather_loop (root_in root_out : string)
    (entries : list (string * list string * list string)) (tasks : list task) : M (list task) :=
  match entries with
  | [] => ret tasks
  | (dirpath, _, filenames) :: rest =>
      rel_dir <~ relpath dirpath root_in;;
      let out_dir := join root_out rel_dir in
      os_makedirs_exist_ok out_dir;;;
      gather_loop root_in root_out rest (tasks_of_files dirpath out_dir filenames tasks)
  end.

Definition gather_tif_tasks (root_in root_out : string) (t : tree) : M (list task) :=
  gather_loop root_in root_out (os_walk root_in t) [].

(** ** The batch: [ProcessPoolExecutor], [as_completed] and the reporting loop *)

(** What a worker hands back for one task: [(tif_path, status)]. *)
Definition result : Type := string * string.

(** The line [print(f"[{i}/{len(tasks)}] {tif_path}: {status}")] *)
Definition report_line (i total : nat) (tif_path status : string) : string :=
  "[" +:+ str_of_nat i +:+ "/" +:+ str_of_nat total +:+ "] " +:+ tif_path +:+ ": " +:+ status.

(** The state of a batch. Futures are numbered in submission order. A call
    runs in a process of its own; what it does to the shared disk is taken
    as one step, at the moment the call ends.
    - [queued]: submitted, waiting for a free worker;
    - [running]: taken by a worker process;
    - [finished]: done (the call returned or raised), not yet yielded by [as_completed];
    - [yielded]: the futures [as_completed] has yielded so far, in that order,
      each with what [future.result()] gave;
    - [counter]: the [i] of [enumerate(..., 1)] at the last iteration;
    - [printed]: the lines the loop has printed;
    - [escaped]: the exception [future.result()] re-raised in the main process, if any;
    - [disk]: the file system all workers share. *)
Record pool := {
  queued : list (nat * task);
  running : list (nat * task);
  finished : list (nat * outcome result);
  yielded : list (nat * outcome result);
  counter : nat;
  printed : list string;
  escaped : option exn;
  disk : world
}.

(** What can happen next: a free worker takes the oldest queued task; the
    [k]-th running call ends; [as_completed] yields the [k]-th finished future
    to the loop. Which one happens is the scheduler's choice. *)
Inductive action :=
| Start
| Finish (k : nat)
| Yield (k : nat).

Section Batch.
Context `{Collaborators}.

(** [{executor.submit(convert_tif_to_kmz_task, task): task for task in tasks}] *)
Definition submit_all (tasks : list task) (w : world) : pool :=
  {| queued := imap (fun i t => (i, t)) tasks;
     running := [];
     finished := [];
     yielded := [];
     counter := 0;
     printed := [];
     escaped := None;
     disk := w |}.

Definition step (max_workers total : nat) (a : action) (p : pool) : option pool :=
  match a with
  | Start =>
      match queued p with
      | x :: q =>
          if (length (running p) <? max_workers)%nat
          then Some {| queued := q; running := running p ++ [x]; finished := finished p;
                       yielded := yielded p; counter := counter p; printed := printed p;
                       escaped := escaped p; disk := disk p |}
          else None
      | [] => None
      end
  | Finish k =>
      match running p !! k with
      | Some (id, t) =>
          let (w', r) := convert_tif_to_kmz_task t (disk p) in
          Some {| queued := queued p; running := delete k (running p);
                  finished := finished p ++ [(id, r)];
                  yielded := yielded p; counter := counter p; printed := printed p;
                  escaped := escaped p; disk := w' |}
      | None => None
      end
  | Yield k =>
      match escaped p, finished p !! k with
      | None, Some (id, Return (tif_path, status)) =>
          let i := S (counter p) in
          Some {| queued := queued p; running := running p; finished := delete k (finished p);
                  yielded := yielded p ++ [(id, Return (tif_path, status))];
                  counter := i;
                  printed := printed p ++ [report_line i total tif_path status];
                  escaped := None; disk := disk p |}
      | None, Some (id, Raise e) =>
          Some {| queued := queued p; running := running p; finished := delete k (finished p);
                  yielded := yielded p ++ [(id, Raise e)];
                  counter := S (counter p);
                  printed := printed p;
                  escaped := Some e; disk := disk p |}
      | _, _ => None
      end
  end.

Fixpoint exec (max_workers total : nat) (acts : list action) (p : pool) : option pool :=
  match acts with
  | [] => Some p
  | a :: rest =>
      match step max_workers total a p with
      | Some p' => exec max_workers total rest p'
      | None => None
      end
  end.

(** The [with ProcessPoolExecutor()] block is left when every call has ended
    ([shutdown(wait=True)]) and the loop has either consumed every future or
    been left by an exception. *)
Definition settled (p : pool) : bool :=
  bool_decide (queued p = []) && bool_decide (running p = [])
  && (bool_decide (finished p = []) || bool_decide (is_Some (escaped p))).

(** What a run of the program shows: the lines on standard output, the exit
    status, the file system it leaves. *)
Record run := {
  stdout : list string;
  exit_status : Z;
  left : world
}.

Definition usage (argv0 : string) : string :=
  "Usage: python " +:+ argv0 +:+ " input_root_folder output_root_folder".

Definition found (n : nat) : string :=
  "[+] Found " +:+ str_of_nat n +:+ " GeoTIFF files to process.".

(** [ProcessPoolExecutor()] sizes the pool as [os.cpu_count() or 1]
    ([cpu_count = 0] stands for [None]). *)
Definition default_workers (cpu_count : nat) : nat :=
  if (cpu_count =? 0)%nat then 1%nat else cpu_count.

(** The program, [sys.argv = argv0 :: args]: [t] is the directory tree found
    at the input root, [sched] the choices of the scheduler. An uncaught
    exception ends the interpreter with status 1. The answer is [None] when
    [sched] is not a complete schedule of the batch. *)
Definition main (argv0 : string) (args : list string) (t : tree) (cpu_count : nat)
    (sched : list action) (w : world) : option run :=
  match args with
  | [root_in; root_out] =>
      match gather_tif_tasks root_in root_out t w with
      | (w1, Raise e) => Some {| stdout := []; exit_status := 1; left := w1 |}
      | (w1, Return tasks) =>
          let total := length tasks in
          match exec (default_workers cpu_count) total sched (submit_all tasks w1) with
          | Some p =>
              if settled p
              then Some {| stdout := found total :: printed p;
                           exit_status := if escaped p is Some _ then 1 else 0;
                           left := disk p |}
              else None
          | None => None
          end
      end
  | _ => Some {| stdout := [usage argv0]; exit_status := 1; left := w |}
  end.

End Batch.

(** ** Vocabulary of the statements *)

(** [s] holds nothing but dots (the empty string too). *)
Definition only_dots (s : string) : bool := forallb (Ascii.eqb dot) (list_ascii_of_string s).

(** [c] occurs in [s]. *)
Definition has_char (c : ascii) (s : string) : bool := existsb (Ascii.eqb c) (list_ascii_of_string s).

(** A name a directory entry can have: not empty, no separator, not [.] or [..]. *)
Definition proper_name (n : string) : bool :=
  negb (String.eqb n "") && negb (has_char slash n)
  && negb (String.eqb n ".") && negb (String.eqb n "..").

(** The name of a raster without its suffix [.tif] or [.tiff], whatever the
    case of the suffix: what "the extension replaced" leaves in place. *)
Definition raster_stem (fname : string) : string :=
  if endswith (lower fname) ".tiff" then slice_to fname (-5) else slice_to fname (-4).

(** The relative directory of a directory reached from the root through the
    subdirectories [cs]: [.] for the root itself, else the names joined by the
    separator. *)
Definition rel_dir_of (cs : list string) : string :=
  match cs with
  | [] => "."
  | _ => sep_join cs
  end.

(** The directories of a tree, top-down as [os.walk] visits them, each with
    the names that lead to it from the root. *)
Fixpoint dirs_under (prefix : list string) (t : tree) : list (list string * tree) :=
  match t with
  | Dir _ subs _ =>
      (prefix, t) :: flat_map (fun s => dirs_under (prefix ++ [dir_name s]) s) subs
  end.

(** Every directory below the root and every file has a proper name. *)
Fixpoint proper_tree (t : tree) : bool :=
  match t with
  | Dir _ subs fs =>
      forallb proper_name fs
      && forallb (fun s => proper_name (dir_name s) && proper_tree s) subs
  end.

(** The directory that mirrors, under [root_out], the one reached through [cs]. *)
Definition mirror_of (root_out : string) (cs : list string) : string :=
  join root_out (rel_dir_of cs).

(** The work item of the raster [fname] found in the directory reached
    through [cs], as the script builds it. *)
Definition item_of (root_in root_out : string) (cs : list string) (fname : string) : task :=
  (join (join_all root_in cs) fname, join (mirror_of root_out cs) (kmz_name_of fname)).

(** The work items of a tree: directories top-down, the rasters of each in
    the order listed, one item per raster. *)
Definition items_of (root_in root_out : string) (t : tree) : list task :=
  flat_map (fun e => map (item_of root_in root_out e.1)
                         (filter (fun fname => is_tif fname = true) (filenames_of e.2)))
           (dirs_under [] t).

(** The path can be made a directory: it is one already, or it is free and
    may be written. *)
Definition can_mirror (w : world) (p : string) : Prop :=
  p ∈ dirs w \/ (files w !! p = None /\ p ∉ locked w).

(** ** Vocabulary of the batch statements *)

(** A status the converter hands back. *)
Definition ok_or_failed (status : string) : Prop :=
  status = "OK" \/ exists e, status = "FAILED: " +:+ exn_str e.

(** The line the loop prints for the [i]-th yielded future (counting from 0). *)
Definition line_of (total i : nat) (y : nat * outcome result) : string :=
  match y.2 with
  | Return (tif_path, status) => report_line (S i) total tif_path status
  | Raise _ => ""
  end.

Definition returned {A : Type} (o : outcome A) : Prop :=
  match o with
  | Return _ => True
  | Raise _ => False
  end.

(** What holds of every state of a batch over [tasks]: each future is in
    exactly one place; a queued or running future carries its task; a result
    names the source of its task; the loop has counted and printed what was
    yielded. *)
Record pool_inv (tasks : list task) (p : pool) : Prop := {
  inv_ids :
    Permutation ((queued p).*1 ++ (running p).*1 ++ (finished p).*1 ++ (yielded p).*1)
                (seq 0 (length tasks));
  inv_tasks : Forall (fun x => tasks !! x.1 = Some x.2) (queued p ++ running p);
  inv_results :
    Forall (fun y => forall res, y.2 = Return res ->
                       exists kmz, tasks !! y.1 = Some (res.1, kmz) /\ ok_or_failed res.2)
           (finished p ++ yielded p);
  inv_counter : counter p = length (yielded p);
  inv_printed :
    escaped p = None ->
    printed p = imap (line_of (length tasks)) (yielded p)
    /\ Forall (fun y => returned y.2) (yielded p)
}.

(** What is left to do: three steps for a queued future, two for a running
    one, one for a finished one. *)
Definition steps_left (p : pool) : nat :=
  (3 * length (queued p) + 2 * length (running p) + length (finished p))%nat.

(** ** Auxiliary notions of the proofs *)

(** The characters of a string. *)
Abbreviation chars := list_ascii_of_string.

(** The loop of [normpath] over the components of [p], from the list [acc]. *)
Definition norm_from (k : nat) (acc : list string) (p : string) : list string :=
  fold_left (normpath_step k) (split slash p) acc.

Definition normal_comps (k : nat) (p : string) : list string := norm_from k [] p.

(** A component [normpath] keeps: not empty, no separator. *)
Definition good_comp (x : string) : Prop := x <> "" /\ slash ∉ chars x.

(** The triple [os.walk] yields for a directory of [dirs_under]. *)
Definition entry_of (root : string) (e : list string * tree)
  : string * list string * list string :=
  (join_all root e.1, map dir_name (subdirs_of e.2), filenames_of e.2).

(** ** A concrete environment

    Small stand-ins for the collaborators, on which the theorems below are
    run: a file opens as a raster when it starts with the TIFF magic bytes,
    translation and quantization write short byte strings, and every
    temporary directory is [/tmp/tmp0]. *)

Definition unit_transform : GeoTransform :=
  {| gt0 := 0; gt1 := 1; gt2 := 0; gt3 := 0; gt4 := 0; gt5 := -1 |}.

Definition WGS84 : SpatialReference :=
  {| IsProjected := false; GetAuthorityCode := Return (Some "4326") |}.

Definition WebMercator : SpatialReference :=
  {| IsProjected := true; GetAuthorityCode := Return (Some "3857") |}.

Definition unit_raster : Dataset :=
  {| GetGeoTransform := unit_transform; RasterXSize := 10; RasterYSize := 10;
     GetProjection := WGS84 |}.

Definition open_by_magic (ds : Dataset) (path : string) (w : world) : option Dataset :=
  match files w !! path with
  | Some (Regular data) => if startswith data "II*" then Some ds else None
  | _ => None
  end.

Definition read_image (path : string) : M image :=
  fun w =>
    match files w !! path with
    | Some (Regular data) => (w, Return {| mode := "RGB"; pixels := data |})
    | _ => (w, Raise (FileNotFoundError path))
    end.

Definition mkdtemp_fixed (d : string) : M string :=
  fun w => (set_dirs (union {[d]}) w, Return d).

Definition demo_with (ds : Dataset) (tp : float -> float -> float * float * float)
    (tmp : M string) : Collaborators :=
  {| gdal_Open := open_by_magic ds;
     gdal_Translate := fun png_path _ _ => write_text png_path "PNG24";
     TransformPoint := tp;
     Image_open := read_image;
     Image_convert := fun img m => ret {| mode := m; pixels := pixels img |};
     Image_quantize := fun img _ => ret {| mode := "P"; pixels := "PNG8" |};
     Image_save := fun img path => write_text path (pixels img);
     TemporaryDirectory := tmp;
     str_of_float := fun _ => "0.0" |}.

Definition demo : Collaborators :=
  demo_with unit_raster (fun x y => (x, y, 0%float)) (mkdtemp_fixed "/tmp/tmp0").

(** A host on which no temporary directory can be made. *)
Definition no_tmp : Collaborators :=
  demo_with unit_raster (fun x y => (x, y, 0%float))
    (raise (Exn "FileNotFoundError" "[Errno 2] No usable temporary directory found")).

(** A raster in Web Mercator spanning 10 to 20 degrees east and 40 to 50
    degrees north (in metres: 1113195 to 2226390 east, 4865942 to 6446276
    north), one pixel wide and high, and a stand-in for the inverse
    projection that is right at its four corners and answers as GDAL 3 does
    for EPSG:4326, latitude first: [(lat, lon, z)]. *)
Definition mercator_raster : Dataset :=
  {| GetGeoTransform :=
       {| gt0 := 1113195; gt1 := 1113195; gt2 := 0;
          gt3 := 6446276; gt4 := 0; gt5 := -1580334 |};
     RasterXSize := 1; RasterYSize := 1;
     GetProjection := WebMercator |}.

Definition inverse_mercator (x y : float) : float * float * float :=
  ((if PrimFloat.ltb y 5500000 then 40 else 50)%float,
   (if PrimFloat.ltb x 1500000 then 10 else 20)%float,
   0%float).

Definition mercator_demo : Collaborators :=
  demo_with mercator_raster inverse_mercator (mkdtemp_fixed "/tmp/tmp0").

Definition empty_world : world :=
  {| files := ∅; dirs := ∅; locked := ∅; cwd := "/home/user" |}.

Definition world_of (fs : list (string * file)) : world :=
  {| files := list_to_map fs; dirs := ∅; locked := ∅; cwd := "/home/user" |}.

(** A disk with one raster that opens, one file that does not, and a
    sidecar of the second that cannot be removed. *)
Definition sample_world : world :=
  {| files := list_to_map [("in/a.tif", Regular "II*raster");
                           ("in/bad.tif", Regular "oops");
                           ("in/bad.tif.aux.xml", Regular "<PAM/>")];
     dirs := {["in"; "out"]};
     locked := {["in/bad.tif.aux.xml"]};
     cwd := "/home/user" |}.

(** A batch of two items over [sample_world], the directory that holds them,
    and one way the scheduler can run it on two workers: both start, the
    second ends and is reported first. *)
Definition sample_tasks : list task :=
  [("in/a.tif", "out/./a.kmz"); ("in/bad.tif", "out/./bad.kmz")].

Definition sample_tree : tree := Dir "in" [] ["a.tif"; "bad.tif"; "bad.tif.aux.xml"].

Definition sample_sched : list action :=
  [Start; Start; Finish 1; Yield 0; Finish 0; Yield 0].

(** ** Vocabulary of the further properties *)

(** The larger and the smaller of two floats, as [max] and [min] decide
    between the item kept and a later one: the later one wins only when it
    compares strictly greater (resp. smaller). *)
Definition larger (a b : float) : float := if PrimFloat.ltb a b then b else a.
Definition smaller (a b : float) : float := if PrimFloat.ltb b a then b else a.

(** No file of the tree is named like a raster. *)
Definition no_rasters (t : tree) : bool :=
  forallb (fun e => forallb (fun fname => negb (is_tif fname)) (filenames_of e.2))
          (dirs_under [] t).

(** A raster in a UTM zone (authority code 32633), with rotation terms in
    its transform, and a spatial reference whose authority lookup fails. *)
Definition UTM33N : SpatialReference :=
  {| IsProjected := true; GetAuthorityCode := Return (Some "32633") |}.

Definition Unidentified : SpatialReference :=
  {| IsProjected := true;
     GetAuthorityCode := Raise (Exn "RuntimeError" "OGR Error: Unsupported SRS") |}.

Definition utm_raster : Dataset :=
  {| GetGeoTransform :=
       {| gt0 := 500000; gt1 := 30; gt2 := 0.5;
          gt3 := 4649776; gt4 := 0.25; gt5 := -30 |};
     RasterXSize := 100; RasterYSize := 100;
     GetProjection := UTM33N |}.

Definition utm_demo : Collaborators :=
  demo_with utm_raster (fun x y => (x, y, 0%float)) (mkdtemp_fixed "/tmp/tmp0").

(** The names a directory lists are pairwise different, at every level of
    the tree. *)
Fixpoint distinct_names (t : tree) : bool :=
  match t with
  | Dir _ subs fs =>
      bool_decide (NoDup fs) && bool_decide (NoDup (map dir_name subs))
      && forallb distinct_names subs
  end.

(** The two roots lie apart: taken as absolute paths, they differ and
    neither lies within the other. Then no directory the walker makes under
    the output root shows up in the tree it walks. *)
Definition roots_apart (w : world) (root_in root_out : string) : Prop :=
  let a := abspath (cwd w) root_in in
  let b := abspath (cwd w) root_out in
  a <> b /\ under a b = false /\ under b a = false.

(** * Theorems *)

(** ** The string and path functions on examples *)

Example splitext_plain : splitext "a/b.c/scene.TIF" = ("a/b.c/scene", ".TIF").
Proof. reflexivity. Qed.

Example splitext_dotfile : splitext "dir/..tif" = ("dir/..tif", "").
Proof. reflexivity. Qed.

Example basename_ex : basename "in/A/scene.tif" = "scene.tif".
Proof. reflexivity. Qed.

Example join_ex :
  (join "out" ".", join "out/" "a", join "out" "/abs", join "" "a")
  = ("out/.", "out/a", "/abs", "a").
Proof. reflexivity. Qed.

Example endswith_ex :
  (endswith (lower "X.TiF") ".tif", endswith "tif" ".tif", str_of_nat 0, str_of_nat 120)
  = (true, false, "0", "120").
Proof. reflexivity. Qed.

Example relpath_ex :
  let w := empty_world in
  ((relpath "in/A/B" "in" w).2, (relpath "in" "in" w).2,
   (relpath "../x/./y//z" "../x/" w).2, (relpath "/a/b" "/a/c/d" w).2)
  = (Return "A/B", Return ".", Return "y/z", Return "../../b").
Proof. reflexivity. Qed.

(** ** The bounds resolver *)

Section Bounds.
Context `{Collaborators}.

Lemma py_max_cons x xs : exists m, py_max (x :: xs) = Return m.
Proof. eexists; reflexivity. Qed.

Lemma py_min_cons x xs : exists m, py_min (x :: xs) = Return m.
Proof. eexists; reflexivity. Qed.

Lemma epsg_of_geographic srs : IsProjected srs = false -> epsg_of srs = None.
Proof. intros Hp. unfold epsg_of. now rewrite Hp. Qed.

(** On four corners the reduction never raises. *)
Lemma bounds_of_four a b c d :
  exists north south east west,
    bounds_of [a; b; c; d] = Return (north, south, east, west)
    /\ py_max [a.1; b.1; c.1; d.1] = Return north
    /\ py_min [a.1; b.1; c.1; d.1] = Return south
    /\ py_max [a.2; b.2; c.2; d.2] = Return east
    /\ py_min [a.2; b.2; c.2; d.2] = Return west.
Proof.
  unfold bounds_of; cbn [map py_max py_min bind].
  do 4 eexists; repeat split; reflexivity.
Qed.

(** C4. For a raster that is not projected, the bounds are the reduction of
    the four corners given by the affine transform, read as [lat = y] and
    [lon = x]: north and south are the maximum and the minimum of the corner
    ordinates, east and west those of the corner abscissas, and no exception
    is raised. With origin (0,0), pixel size (1,-1) and size 10x10 this gives
    north 0, south -10, east 10, west 0. *)
Theorem bounds_of_geographic_raster (tiff_path : string) (w : world) (ds : Dataset) :
  gdal_Open tiff_path w = Some ds ->
  IsProjected (GetProjection ds) = false ->
  let gt := GetGeoTransform ds in
  let cols := float_of_int (RasterXSize ds) in
  let rows := float_of_int (RasterYSize ds) in
  let lats := [gt3 gt; gt3 gt; gt3 gt + rows * gt5 gt; gt3 gt + rows * gt5 gt]%float in
  let lons := [gt0 gt; gt0 gt + cols * gt1 gt; gt0 gt; gt0 gt + cols * gt1 gt]%float in
  (exists north south east west,
      get_geotiff_bounds tiff_path w = (w, Return (north, south, east, west))
      /\ py_max lats = Return north /\ py_min lats = Return south
      /\ py_max lons = Return east /\ py_min lons = Return west)
  /\ ((gt0 gt, gt1 gt, gt3 gt, gt5 gt) = (0, 1, 0, -1)%float ->
      (RasterXSize ds, RasterYSize ds) = (10, 10) ->
      get_geotiff_bounds tiff_path w = (w, Return (0, -10, 10, 0)%float)).
Proof.
  intros Hopen Hgeo gt cols rows lats lons.
  assert (Hb : get_geotiff_bounds tiff_path w
               = (w, bounds_of (map (fun c => (c.2, c.1)) (corners ds)))).
  { unfold get_geotiff_bounds. rewrite Hopen.
    rewrite (epsg_of_geographic _ Hgeo). reflexivity. }
  split.
  - rewrite Hb. unfold corners. cbn [map fst snd].
    destruct (bounds_of_four
                (gt3 gt, gt0 gt) (gt3 gt, gt0 gt + cols * gt1 gt)%float
                (gt3 gt + rows * gt5 gt, gt0 gt)%float
                (gt3 gt + rows * gt5 gt, gt0 gt + cols * gt1 gt)%float)
      as (north & south & east & west & Hr & Hn & Hs & He & Hw).
    exists north, south, east, west.
    fold gt cols rows. rewrite Hr. auto.
  - intros Hgt Hsize. rewrite Hb. unfold corners.
    fold gt. injection Hgt as -> -> -> ->. injection Hsize as -> ->.
    vm_compute. reflexivity.
Qed.

(** C10. The decode stage guards a failed open with a descriptive exception;
    the bounds extraction does not: on a path that does not open it stops at
    the attribute access on [None]. On a path that opens it returns bounds. *)
Theorem bounds_needs_an_open_dataset (tiff_path png_path : string) (zlevel : Z) (w : world) :
  match gdal_Open tiff_path w with
  | None =>
      geotiff_to_png tiff_path png_path zlevel w
      = (w, Raise (Exn "Exception" ("Unable to open input GeoTIFF: " +:+ tiff_path)))
      /\ get_geotiff_bounds tiff_path w
         = (w, Raise (Exn "AttributeError"
                          "'NoneType' object has no attribute 'GetGeoTransform'"))
  | Some ds =>
      exists north south east west,
        get_geotiff_bounds tiff_path w = (w, Return (north, south, east, west))
  end.
Proof.
  unfold geotiff_to_png, get_geotiff_bounds.
  destruct (gdal_Open tiff_path w) as [ds|]; [|split; reflexivity].
  unfold latlons_of, corners.
  case_bool_decide; cbn [map];
    match goal with
    | |- context [bounds_of [?a; ?b; ?c; ?d]] =>
        destruct (bounds_of_four a b c d) as (n & s & e & w' & Hr & _)
    end; rewrite Hr; eauto.
Qed.

Lemma latlons_of_mercator (cs : list (float * float)) :
  latlons_of (Some "3857") cs
  = map (fun c => ((TransformPoint c.1 c.2).1.1, (TransformPoint c.1 c.2).1.2)) cs.
Proof.
  unfold latlons_of. rewrite bool_decide_eq_true_2 by reflexivity.
  apply map_ext. intros c. now destruct (TransformPoint c.1 c.2) as [[lon lat] z].
Qed.

(** In the Web Mercator branch the pair appended for a corner is
    [(lon, lat)] as unpacked from [TransformPoint], and the reduction takes
    its first component for the latitude: north is the maximum of what the
    script has named [lon]. *)
Theorem mercator_branch_reduction (tiff_path : string) (w : world) (ds : Dataset) :
  gdal_Open tiff_path w = Some ds ->
  epsg_of (GetProjection ds) = Some "3857" ->
  let lon := fun c : float * float => (TransformPoint c.1 c.2).1.1 in
  let lat := fun c : float * float => (TransformPoint c.1 c.2).1.2 in
  exists north south east west,
    get_geotiff_bounds tiff_path w = (w, Return (north, south, east, west))
    /\ py_max (map lon (corners ds)) = Return north
    /\ py_min (map lon (corners ds)) = Return south
    /\ py_max (map lat (corners ds)) = Return east
    /\ py_min (map lat (corners ds)) = Return west.
Proof.
  intros Hopen Hepsg lon lat. unfold get_geotiff_bounds. rewrite Hopen, Hepsg.
  rewrite latlons_of_mercator. unfold corners. cbn [map].
  match goal with
  | |- context [bounds_of [?a; ?b; ?c; ?d]] =>
      destruct (bounds_of_four a b c d) as (n & s & e & w' & Hr & Hn & Hs & He & Hw)
  end.
  exists n, s, e, w'. rewrite Hr. auto.
Qed.

Lemma epsg_of_3857 (srs : SpatialReference) :
  epsg_of srs = Some "3857"
  <-> IsProjected srs = true /\ GetAuthorityCode srs = Return (Some "3857").
Proof.
  unfold epsg_of. destruct (IsProjected srs).
  - destruct (GetAuthorityCode srs) as [code|e].
    + split; [intros ->; auto | intros [_ [= ->]]; reflexivity].
    + split; [discriminate | intros [_ [=]]].
  - split; [discriminate | intros [[=] _]].
Qed.

(** C5. The branch is taken on the authority code: the corners are
    transformed exactly when the raster is projected and its code reads
    [3857]; otherwise they are passed through with the axes swapped,
    [(y, x)]. The library answers [TransformPoint] with the latitude first
    and the longitude second (GDAL 3, for EPSG:4326): the pair appended in
    the first branch is then, like the one of the second branch, a latitude
    followed by a longitude, whatever the names the script gives its two
    components. The reduction reads every pair that way in both branches:
    north and south are the maximum and the minimum of the first members,
    east and west those of the second. *)
Theorem both_branches_hand_lat_lon (tiff_path : string) (w : world) (ds : Dataset)
    (latitude longitude : float -> float -> float) :
  gdal_Open tiff_path w = Some ds ->
  (forall x y, (TransformPoint x y).1 = (latitude x y, longitude x y)) ->
  let srs := GetProjection ds in
  let latlons := latlons_of (epsg_of srs) (corners ds) in
  (IsProjected srs = true /\ GetAuthorityCode srs = Return (Some "3857") ->
   latlons = map (fun c => (latitude c.1 c.2, longitude c.1 c.2)) (corners ds))
  /\ (~ (IsProjected srs = true /\ GetAuthorityCode srs = Return (Some "3857")) ->
      latlons = map (fun c => (c.2, c.1)) (corners ds))
  /\ exists north south east west,
       get_geotiff_bounds tiff_path w = (w, Return (north, south, east, west))
       /\ py_max (map fst latlons) = Return north
       /\ py_min (map fst latlons) = Return south
       /\ py_max (map snd latlons) = Return east
       /\ py_min (map snd latlons) = Return west.
Proof.
  intros Hopen Horder srs latlons. split; [|split].
  - intros Hcode. apply epsg_of_3857 in Hcode. subst latlons. rewrite Hcode.
    rewrite latlons_of_mercator. apply map_ext. intros c.
    specialize (Horder c.1 c.2). now rewrite Horder.
  - intros Hcode. subst latlons. unfold latlons_of.
    rewrite bool_decide_eq_false_2; [reflexivity|].
    intros Hepsg. now apply Hcode, epsg_of_3857.
  - unfold get_geotiff_bounds. rewrite Hopen. fold srs. fold latlons.
    assert (Hfour : exists a b c d, latlons = [a; b; c; d]).
    { subst latlons. unfold latlons_of, corners. case_bool_decide; cbn [map]; eauto. }
    destruct Hfour as (a & b & c & d & ->).
    destruct (bounds_of_four a b c d) as (n & s & e & w' & Hr & Hn & Hs & He & Hw).
    exists n, s, e, w'. rewrite Hr. cbn [map fst snd]. auto.
Qed.

End Bounds.

Lemma bounds_of_geographic_raster_witness :
  @get_geotiff_bounds demo "a.tif" (world_of [("a.tif", Regular "II*")])
  = (world_of [("a.tif", Regular "II*")], Return (0, -10, 10, 0)%float).
Proof.
  refine (proj2 (@bounds_of_geographic_raster demo "a.tif"
                   (world_of [("a.tif", Regular "II*")]) unit_raster _ _) _ _);
    reflexivity.
Defined.

Lemma mercator_branch_reduction_witness :
  exists north south east west,
    @get_geotiff_bounds mercator_demo "m.tif" (world_of [("m.tif", Regular "II*")])
    = (world_of [("m.tif", Regular "II*")], Return (north, south, east, west))
    /\ py_max (map (fun c => (inverse_mercator c.1 c.2).1.1) (corners mercator_raster))
       = Return north.
Proof.
  destruct (@mercator_branch_reduction mercator_demo "m.tif"
              (world_of [("m.tif", Regular "II*")]) mercator_raster eq_refl eq_refl)
    as (north & south & east & west & Hb & Hn & _).
  exists north, south, east, west. split; [exact Hb | exact Hn].
Defined.

(** At a Web Mercator raster that spans 10 to 20 degrees east and 40 to 50
    degrees north the box comes out as north 50, south 40, east 20, west 10. *)
Lemma both_branches_hand_lat_lon_witness :
  let w := world_of [("m.tif", Regular "II*")] in
  latlons_of (H := mercator_demo) (epsg_of (GetProjection mercator_raster))
    (corners mercator_raster)
  = [(50, 10); (50, 20); (40, 10); (40, 20)]%float
  /\ @get_geotiff_bounds mercator_demo "m.tif" w = (w, Return (50, 40, 20, 10)%float).
Proof.
  intros w.
  assert (Hopen : @gdal_Open mercator_demo "m.tif" w = Some mercator_raster) by reflexivity.
  assert (Horder : forall x y,
             (@TransformPoint mercator_demo x y).1
             = ((inverse_mercator x y).1.1, (inverse_mercator x y).1.2)).
  { intros x y. reflexivity. }
  destruct (@both_branches_hand_lat_lon mercator_demo "m.tif" w mercator_raster
              (fun x y => (inverse_mercator x y).1.1) (fun x y => (inverse_mercator x y).1.2)
              Hopen Horder) as (Hmerc & _ & north & south & east & west & Hb & Hn & Hs & He & Hw).
  assert (Hl : latlons_of (H := mercator_demo) (epsg_of (GetProjection mercator_raster))
                 (corners mercator_raster)
               = [(50, 10); (50, 20); (40, 10); (40, 20)]%float).
  { rewrite Hmerc by (split; reflexivity). vm_compute. reflexivity. }
  split; [exact Hl|]. rewrite Hb. rewrite Hl in Hn, Hs, He, Hw.
  vm_compute in Hn, Hs, He, Hw.
  injection Hn as <-. injection Hs as <-. injection He as <-. injection Hw as <-.
  reflexivity.
Defined.

(** ** Strings as lists of characters *)

Lemma chars_inj (s t : string) : chars s = chars t -> s = t.
Proof.
  intros E. rewrite <- (string_of_list_ascii_of_string s), <- (string_of_list_ascii_of_string t).
  now rewrite E.
Qed.

Lemma app_String (a : ascii) (s t : string) : String a s +:+ t = String a (s +:+ t).
Proof. reflexivity. Qed.

Lemma app_empty_l (t : string) : "" +:+ t = t.
Proof. reflexivity. Qed.

Lemma chars_app (s t : string) : chars (s +:+ t) = chars s ++ chars t.
Proof.
  induction s as [|a s IH]; [reflexivity|].
  rewrite app_String. cbn [list_ascii_of_string]. now rewrite IH.
Qed.

Lemma length_chars (s : string) : length (chars s) = String.length s.
Proof. induction s as [|a s IH]; cbn; [reflexivity | now rewrite IH]. Qed.

Lemma len_chars (s : string) : len s = Z.of_nat (length (chars s)).
Proof. unfold len. now rewrite length_chars. Qed.

Lemma len_nonneg (s : string) : 0 <= len s.
Proof. unfold len. lia. Qed.

Lemma len_app (s t : string) : len (s +:+ t) = len s + len t.
Proof. rewrite !len_chars, chars_app, length_app. lia. Qed.

Lemma len_String (a : ascii) (s : string) : len (String a s) = 1 + len s.
Proof. unfold len. cbn [String.length]. lia. Qed.

Lemma app_assoc_s (a b c : string) : (a +:+ b) +:+ c = a +:+ (b +:+ c).
Proof. apply chars_inj. rewrite !chars_app. now rewrite <- app_assoc. Qed.

Lemma app_empty_r (a : string) : a +:+ "" = a.
Proof. apply chars_inj. rewrite chars_app. cbn. now rewrite app_nil_r. Qed.

Lemma chars_substring (n m : nat) (s : string) :
  chars (substring n m s) = take m (drop n (chars s)).
Proof.
  revert n m. induction s as [|a s IH]; intros [|n] [|m]; cbn; try reflexivity.
  - now rewrite IH.
  - apply IH.
  - apply IH.
Qed.

Lemma chars_slice (s : string) (i j : Z) :
  chars (slice s i j)
  = take (Z.to_nat (clamp (len s) j - clamp (len s) i)) (drop (Z.to_nat (clamp (len s) i)) (chars s)).
Proof. unfold slice. apply chars_substring. Qed.

Lemma clamp_inside (n i : Z) : 0 <= i <= n -> clamp n i = i.
Proof. intros Hi. unfold clamp. destruct (Z.ltb_spec i 0); lia. Qed.

Lemma clamp_negative (n i : Z) : - n <= i < 0 -> clamp n i = n + i.
Proof. intros Hi. unfold clamp. destruct (Z.ltb_spec i 0); lia. Qed.

(** [(a + b)[len(a):] = b] and [(a + b)[:len(a)] = a] *)
Lemma slice_from_app (a b : string) : slice_from (a +:+ b) (len a) = b.
Proof.
  apply chars_inj. unfold slice_from. rewrite chars_slice.
  pose proof (len_nonneg a). pose proof (len_nonneg b).
  rewrite !clamp_inside by (rewrite len_app; lia).
  rewrite chars_app, len_app, len_chars, Nat2Z.id, drop_app_length.
  rewrite take_ge; [reflexivity|]. rewrite (len_chars b). lia.
Qed.

Lemma slice_to_app (a b : string) : slice_to (a +:+ b) (len a) = a.
Proof.
  apply chars_inj. unfold slice_to. rewrite chars_slice.
  pose proof (len_nonneg a). pose proof (len_nonneg b).
  rewrite !clamp_inside by (rewrite len_app; lia).
  rewrite chars_app, Z.sub_0_r, len_chars, Nat2Z.id. rewrite Z2Nat.inj_0, drop_0.
  now rewrite take_app_length.
Qed.

(** [(a + b)[:-len(b)] = a] for a non-empty [b] *)
Lemma slice_to_neg_app (a b : string) : 0 < len b -> slice_to (a +:+ b) (- len b) = a.
Proof.
  intros Hb. apply chars_inj. unfold slice_to. rewrite chars_slice.
  pose proof (len_nonneg a).
  rewrite (clamp_inside _ 0) by (rewrite len_app; lia).
  rewrite clamp_negative by (rewrite len_app; lia).
  rewrite len_app, chars_app. rewrite Z2Nat.inj_0, drop_0.
  replace (Z.to_nat (len a + len b + - len b - 0)) with (length (chars a))
    by (rewrite len_chars; lia).
  now rewrite take_app_length.
Qed.

Lemma slice_whole (s : string) : slice_from s 0 = s.
Proof. apply (slice_from_app "" s). Qed.

Lemma slice_to_0 (s : string) : slice_to s 0 = "".
Proof. apply (slice_to_app "" s). Qed.

(** [s.endswith(p)] says that [s] is some [q + p]. *)
Lemma endswith_app (q p : string) : endswith (q +:+ p) p = true.
Proof.
  unfold endswith. pose proof (len_nonneg q).
  rewrite len_app. replace (len q + len p - len p) with (len q) by lia.
  rewrite <- len_app, slice_from_app, String.eqb_refl.
  rewrite andb_true_r. apply Z.leb_le. rewrite len_app. lia.
Qed.

Lemma endswith_inv (s p : string) :
  endswith s p = true -> s = slice_to s (len s - len p) +:+ p.
Proof.
  unfold endswith. intros [Hle Heq]%andb_true_iff.
  apply Z.leb_le in Hle. apply String.eqb_eq in Heq.
  pose proof (len_nonneg p).
  set (k := len s - len p) in *.
  assert (Hk : 0 <= k <= len s) by (subst k; lia).
  apply chars_inj. rewrite chars_app.
  transitivity (take (Z.to_nat k) (chars s) ++ drop (Z.to_nat k) (chars s));
    [symmetry; apply take_drop|].
  f_equal.
  - unfold slice_to. rewrite chars_slice, !clamp_inside by lia.
    now rewrite Z.sub_0_r, Z2Nat.inj_0, drop_0.
  - rewrite <- Heq. unfold slice_from. rewrite chars_slice, !clamp_inside by lia.
    rewrite take_ge; [reflexivity|]. rewrite length_drop.
    pose proof (len_chars s). lia.
Qed.

(** ** [rfind] *)

Lemma rfind_from_app (c : ascii) (a b : string) (i f : Z) :
  rfind_from c (a +:+ b) i f = rfind_from c b (i + len a) (rfind_from c a i f).
Proof.
  revert i f. induction a as [|x a IH]; intros i f.
  - rewrite app_empty_l. cbn [rfind_from]. f_equal. unfold len. cbn. lia.
  - rewrite app_String. cbn [rfind_from]. rewrite IH, len_String. f_equal. lia.
Qed.

Lemma rfind_from_absent (c : ascii) (b : string) (i f : Z) :
  c ∉ chars b -> rfind_from c b i f = f.
Proof.
  revert i f. induction b as [|x b IH]; intros i f Hc; [reflexivity|].
  cbn [rfind_from list_ascii_of_string] in *.
  apply not_elem_of_cons in Hc as [Hx Hb].
  destruct (Ascii.eqb_spec x c) as [->|_]; [congruence|]. now apply IH.
Qed.

Lemma rfind_absent (c : ascii) (s : string) : c ∉ chars s -> rfind c s = -1.
Proof. apply rfind_from_absent. Qed.

Lemma rfind_last (c : ascii) (a b : string) :
  c ∉ chars b -> rfind c (a +:+ String c b) = len a.
Proof.
  intros Hb. unfold rfind. rewrite rfind_from_app. cbn [rfind_from].
  rewrite Ascii.eqb_refl. now rewrite rfind_from_absent.
Qed.

(** A string either lacks [c] or splits at the last [c]. *)
Lemma last_occurrence (c : ascii) (s : string) :
  c ∉ chars s \/ exists a b, s = a +:+ String c b /\ c ∉ chars b.
Proof.
  induction s as [|x s IH].
  - left. cbn. apply not_elem_of_nil.
  - destruct IH as [Hs | (a & b & -> & Hb)].
    + destruct (Ascii.eqb_spec x c) as [->|Hx].
      * right. exists "", s. split; [reflexivity | assumption].
      * left. cbn. apply not_elem_of_cons. split; [congruence | assumption].
    + right. exists (String x a), b. split; [reflexivity | assumption].
Qed.

(** ** [basename] and [join] *)

Lemma basename_no_sep (p : string) : slash ∉ chars (basename p).
Proof.
  unfold basename. destruct (last_occurrence slash p) as [Hp | (a & b & -> & Hb)].
  - rewrite rfind_absent by assumption. now rewrite slice_whole.
  - rewrite rfind_last by assumption.
    replace (a +:+ String slash b) with ((a +:+ "/") +:+ b)
      by (now rewrite app_assoc_s).
    replace (len a + 1) with (len (a +:+ "/")) by (rewrite len_app; reflexivity).
    now rewrite slice_from_app.
Qed.

Lemma basename_of_name (n : string) : slash ∉ chars n -> basename n = n.
Proof. intros Hn. unfold basename. rewrite rfind_absent by assumption. apply slice_whole. Qed.

Lemma basename_after_sep (q n : string) :
  slash ∉ chars n -> basename (q +:+ "/" +:+ n) = n.
Proof.
  intros Hn. unfold basename.
  change (q +:+ "/" +:+ n) with (q +:+ String slash n).
  rewrite rfind_last by assumption.
  replace (q +:+ String slash n) with ((q +:+ "/") +:+ n) by (now rewrite app_assoc_s).
  replace (len q + 1) with (len (q +:+ "/")) by (rewrite len_app; reflexivity).
  apply slice_from_app.
Qed.

Lemma startswith_sep_false (n : string) : slash ∉ chars n -> startswith n "/" = false.
Proof.
  intros Hn. destruct n as [|x n]; [reflexivity|].
  unfold startswith. cbn [String.prefix].
  cbn in Hn. apply not_elem_of_cons in Hn as [Hx _].
  destruct (ascii_dec "/" x) as [E|_]; [|reflexivity].
  exfalso. apply Hx. now rewrite <- E.
Qed.

(** [join(d, n)] puts a relative [n] behind a prefix that is empty or ends
    in the separator. *)
Lemma join_rel (d n : string) :
  startswith n "/" = false ->
  join d n = join d "" +:+ n /\ (join d "" = "" \/ exists q, join d "" = q +:+ "/").
Proof.
  intros Hn. unfold join. rewrite Hn.
  change (startswith "" "/") with false. cbv iota.
  destruct (String.eqb_spec d "") as [->|Hd]; cbn [orb].
  - split; [reflexivity | now left].
  - destruct (endswith d "/") eqn:He.
    + split; [now rewrite app_empty_r|]. right.
      exists (slice_to d (len d - len "/")). rewrite app_empty_r.
      now apply endswith_inv.
    + change ("/" +:+ "") with "/". split; [now rewrite app_assoc_s|].
      right. now exists d.
Qed.

Lemma join_name (d n : string) :
  slash ∉ chars n ->
  join d n = join d "" +:+ n /\ (join d "" = "" \/ exists q, join d "" = q +:+ "/").
Proof. intros Hn. apply join_rel. now apply startswith_sep_false. Qed.

Lemma basename_join (d n : string) : slash ∉ chars n -> basename (join d n) = n.
Proof.
  intros Hn. destruct (join_name d n Hn) as [-> [-> | [q ->]]].
  - rewrite app_empty_l. now apply basename_of_name.
  - rewrite app_assoc_s. now apply basename_after_sep.
Qed.

(** ** [splitext] *)

Lemma has_char_false (c : ascii) (s : string) : has_char c s = false <-> c ∉ chars s.
Proof.
  unfold has_char. induction (chars s) as [|x l IH]; cbn.
  - split; [intros _; apply not_elem_of_nil | reflexivity].
  - rewrite orb_false_iff, IH, not_elem_of_cons.
    destruct (Ascii.eqb_spec c x); split; intros [? ?]; split; congruence.
Qed.

Lemma slice_char (pre : string) (c : ascii) (rest : string) :
  slice (pre +:+ String c rest) (len pre) (len pre + 1) = String c "".
Proof.
  apply chars_inj. rewrite chars_slice.
  pose proof (len_nonneg pre). pose proof (len_nonneg rest).
  rewrite !clamp_inside by (rewrite len_app, len_String; lia).
  rewrite chars_app, len_chars, Nat2Z.id, drop_app_length.
  replace (Z.to_nat _) with 1%nat by lia. reflexivity.
Qed.

Lemma splitext_loop_spec (p : string) (d : Z) (post : string) :
  forall pre rest,
    p = pre +:+ post +:+ rest ->
    splitext_loop p d (String.length post) (len pre)
    = if only_dots post then (p, slice_to p 0) else (slice_to p d, slice_from p d).
Proof.
  induction post as [|c post IH]; intros pre rest Hp; [reflexivity|].
  cbn [String.length splitext_loop].
  rewrite app_String in Hp. rewrite Hp at 1. rewrite slice_char.
  unfold only_dots. cbn [list_ascii_of_string forallb String.eqb].
  rewrite (Ascii.eqb_sym dot c). unfold dot at 1.
  destruct (Ascii.eqb_spec c ".") as [->|Hc]; cbn [negb andb].
  - change (if String.eqb "" "" then false else true) with false. cbv iota.
    replace (len pre + 1) with (len (pre +:+ ".")) by (rewrite len_app; reflexivity).
    apply (IH (pre +:+ ".") rest). now rewrite app_assoc_s.
  - reflexivity.
Qed.

(** A name without separator and without dot has no extension. *)
Lemma splitext_no_dot (n : string) :
  slash ∉ chars n -> dot ∉ chars n -> splitext n = (n, "").
Proof.
  intros Hs Hd. unfold splitext. rewrite !rfind_absent by assumption.
  cbn [Z.ltb Z.compare Pos.compare Pos.compare_cont]. now rewrite slice_to_0.
Qed.

(** A name [stem.ext] splits at its last dot, unless the stem holds nothing
    but dots: then there is no extension. *)
Lemma splitext_name (stem ext : string) :
  slash ∉ chars (stem +:+ String dot ext) -> dot ∉ chars ext ->
  splitext (stem +:+ String dot ext)
  = if only_dots stem then (stem +:+ String dot ext, "") else (stem, String dot ext).
Proof.
  intros Hs Hd. unfold splitext.
  rewrite (rfind_absent slash) by assumption. rewrite rfind_last by assumption.
  pose proof (len_nonneg stem).
  destruct (Z.ltb_spec (-1) (len stem)); [|lia].
  replace (Z.to_nat (len stem - (-1 + 1))) with (String.length stem) by (unfold len; lia).
  change (-1 + 1) with (len "").
  rewrite (splitext_loop_spec _ _ stem "" (String dot ext)) by reflexivity.
  destruct (only_dots stem).
  - now rewrite slice_to_0.
  - now rewrite slice_to_app, slice_from_app.
Qed.

Lemma not_elem_of_chars_app (c : ascii) (a b : string) :
  (c ∉ chars (a +:+ b)) <-> (c ∉ chars a) /\ (c ∉ chars b).
Proof. rewrite chars_app. apply not_elem_of_app. Qed.

(** The root of a name holds no separator either. *)
Lemma splitext_root_no_sep (n : string) : slash ∉ chars n -> slash ∉ chars (splitext n).1.
Proof.
  intros Hn. destruct (last_occurrence dot n) as [Hd | (a & b & -> & Hb)].
  - now rewrite splitext_no_dot.
  - rewrite splitext_name by assumption.
    destruct (only_dots a); [assumption|].
    now apply not_elem_of_chars_app in Hn as [Ha _].
Qed.

(** The image name of the converter, [basename(join(tmpdir, base + ".png"))],
    is [base + ".png"]. *)
Lemma image_name_of_task (tmpdir tif_path : string) :
  basename (join tmpdir ((splitext (basename tif_path)).1 +:+ ".png"))
  = (splitext (basename tif_path)).1 +:+ ".png".
Proof.
  apply basename_join. apply not_elem_of_chars_app. split.
  - apply splitext_root_no_sep, basename_no_sep.
  - apply has_char_false. reflexivity.
Qed.

(** ** The single-item converter *)

Section Converter.
Context `{Collaborators}.

Lemma remove_if_exists_spec (p : string) (w : world) :
  exists w', remove_if_exists p w = (w', Return tt)
    /\ dirs w' = dirs w /\ locked w' = locked w /\ cwd w' = cwd w
    /\ forall q, q <> p -> files w' !! q = files w !! q.
Proof.
  unfold remove_if_exists, try_except_pass, os_remove.
  destruct (os_path_exists p w); [|exists w; auto].
  case_bool_decide; [exists w; auto|].
  destruct (files w !! p) eqn:Ef.
  - eexists; split; [reflexivity|]. cbn. repeat split; try reflexivity.
    intros q Hq. now apply lookup_delete_ne.
  - case_bool_decide; exists w; auto.
Qed.

(** The cleanup never raises: whatever [os.remove] does is swallowed. It
    touches nothing but the two sidecar paths. *)
Lemma cleanup_aux_xml_spec (tif_path : string) (w : world) :
  exists w', cleanup_aux_xml tif_path w = (w', Return tt)
    /\ dirs w' = dirs w /\ locked w' = locked w /\ cwd w' = cwd w
    /\ forall q, q <> tif_path +:+ ".aux.xml" ->
                 q <> slice_to tif_path (-4) +:+ ".tiff.aux.xml" ->
                 files w' !! q = files w !! q.
Proof.
  unfold cleanup_aux_xml, bindM.
  destruct (remove_if_exists_spec (tif_path +:+ ".aux.xml") w)
    as (w1 & -> & Hd1 & Hl1 & Hc1 & Hf1).
  destruct (endswith (lower tif_path) ".tif").
  - destruct (remove_if_exists_spec (slice_to tif_path (-4) +:+ ".tiff.aux.xml") w1)
      as (w2 & -> & Hd2 & Hl2 & Hc2 & Hf2).
    exists w2. repeat split; try congruence.
    intros q Hq1 Hq2. rewrite Hf2, Hf1; auto.
  - exists w1. unfold ret. repeat split; try congruence.
    intros q Hq1 Hq2. now apply Hf1.
Qed.

Lemma rmtree_lookup (d p : string) (w : world) :
  under d p = false -> files (rmtree d w) !! p = files w !! p.
Proof.
  intros Hp. unfold rmtree; cbn [files]. apply option_eq. intros x.
  rewrite map_lookup_filter_Some. cbn. intuition congruence.
Qed.

Lemma raises_in_stage_range tif_path kmz_path png_path kml_path w k e w' :
  raises_in_stage tif_path kmz_path png_path kml_path w k e w' -> (1 <= k <= 5)%nat.
Proof. destruct 1; lia. Qed.

Lemma raises_in_stage_pipeline tif_path kmz_path png_path kml_path w k e w' :
  raises_in_stage tif_path kmz_path png_path kml_path w k e w' ->
  pipeline tif_path kmz_path png_path kml_path w = (w', Raise e).
Proof.
  destruct 1; unfold pipeline, bindM;
    repeat match goal with
           | E : ?m = (_, _) |- context [?m] => rewrite E
           end; reflexivity.
Qed.

(** What the five steps leave when [pipeline] ends. *)
Lemma pipeline_cases tif_path kmz_path png_path kml_path w :
  (exists k e w', raises_in_stage tif_path kmz_path png_path kml_path w k e w')
  \/ (exists w1 w2 w3 north south east west w4 w5,
        geotiff_to_png tif_path png_path 9 w = (w1, Return tt)
        /\ quantize_png_with_pillow png_path 256 w1 = (w2, Return tt)
        /\ get_geotiff_bounds tif_path w2 = (w3, Return (north, south, east, west))
        /\ generate_kml (basename png_path) north south east west kml_path w3 = (w4, Return tt)
        /\ create_kmz kml_path png_path kmz_path w4 = (w5, Return tt)
        /\ pipeline tif_path kmz_path png_path kml_path w = (w5, Return (tif_path, "OK"))).
Proof.
  destruct (geotiff_to_png tif_path png_path 9 w) as [w1 [[]|e]] eqn:E1;
    [|left; do 3 eexists; eapply raises_in_decode; eassumption].
  destruct (quantize_png_with_pillow png_path 256 w1) as [w2 [[]|e]] eqn:E2;
    [|left; do 3 eexists; eapply raises_in_quantize; eassumption].
  destruct (get_geotiff_bounds tif_path w2) as [w3 [[[[north south] east] west]|e]] eqn:E3;
    [|left; do 3 eexists; eapply raises_in_bounds; eassumption].
  destruct (generate_kml (basename png_path) north south east west kml_path w3)
    as [w4 [[]|e]] eqn:E4;
    [|left; do 3 eexists; eapply raises_in_overlay; eassumption].
  destruct (create_kmz kml_path png_path kmz_path w4) as [w5 [[]|e]] eqn:E5;
    [|left; do 3 eexists; eapply raises_in_packaging; eassumption].
  right. exists w1, w2, w3, north, south, east, west, w4, w5.
  repeat split; try assumption.
  unfold pipeline, bindM. now rewrite E1, E2, E3, E4, E5.
Qed.

Lemma pipeline_raise_inv tif_path kmz_path png_path kml_path w e w' :
  pipeline tif_path kmz_path png_path kml_path w = (w', Raise e) ->
  exists k, raises_in_stage tif_path kmz_path png_path kml_path w k e w'.
Proof.
  intros Hp.
  destruct (pipeline_cases tif_path kmz_path png_path kml_path w)
    as [(k & e0 & w0 & Hk) | (w1 & w2 & w3 & n & s & ea & we & w4 & w5 & _ & _ & _ & _ & _ & Hok)].
  - pose proof (raises_in_stage_pipeline _ _ _ _ _ _ _ _ Hk) as Hr.
    rewrite Hp in Hr. injection Hr as -> ->. now exists k.
  - rewrite Hp in Hok. discriminate.
Qed.

(** The converter, once its temporary directory is there: the outcome [r] of
    the five steps decides the status, the cleanup runs on the world they
    leave, then the temporary directory goes. *)
Lemma convert_unfold (tif_path kmz_path tmpdir : string) (w w0 w1 : world)
    (r : outcome (string * string)) :
  TemporaryDirectory w = (w0, Return tmpdir) ->
  pipeline tif_path kmz_path
    (join tmpdir ((splitext (basename tif_path)).1 +:+ ".png")) (join tmpdir "doc.kml") w0
  = (w1, r) ->
  convert_tif_to_kmz_task (tif_path, kmz_path) w
  = (rmtree tmpdir (cleanup_aux_xml tif_path w1).1,
     Return match r with
            | Return res => res
            | Raise e => (tif_path, "FAILED: " +:+ exn_str e)
            end).
Proof.
  intros Htmp Hp. unfold convert_tif_to_kmz_task, with_TemporaryDirectory.
  rewrite Htmp. unfold try_except_finally. rewrite Hp.
  destruct (cleanup_aux_xml_spec tif_path w1) as (w2 & Hc & _).
  destruct r as [res|e]; unfold ret; rewrite Hc; reflexivity.
Qed.

(** Without a temporary directory the converter raises: this is outside the [try]. *)
Lemma convert_without_tmpdir (args : string * string) (w w0 : world) (e : exn) :
  TemporaryDirectory w = (w0, Raise e) ->
  convert_tif_to_kmz_task args w = (w0, Raise e).
Proof.
  intros Htmp. destruct args as [tif_path kmz_path].
  unfold convert_tif_to_kmz_task, with_TemporaryDirectory. now rewrite Htmp.
Qed.

(** A call that returns hands back the source path and a status that is
    [OK] or [FAILED: <message>]. *)
Lemma convert_returns (tif_path kmz_path : string) (w w' : world) (res : string * string) :
  convert_tif_to_kmz_task (tif_path, kmz_path) w = (w', Return res) ->
  exists status, res = (tif_path, status)
    /\ (status = "OK" \/ exists e, status = "FAILED: " +:+ exn_str e).
Proof.
  intros Hc. destruct (TemporaryDirectory w) as [w0 [tmpdir|e]] eqn:Htmp.
  - destruct (pipeline_cases tif_path kmz_path
                (join tmpdir ((splitext (basename tif_path)).1 +:+ ".png"))
                (join tmpdir "doc.kml") w0)
      as [(k & e & w1 & Hk) | (w1 & w2 & w3 & n & s & ea & we & w4 & w5 & _ & _ & _ & _ & _ & Hok)].
    + apply raises_in_stage_pipeline in Hk.
      rewrite (convert_unfold _ _ _ _ _ _ _ Htmp Hk) in Hc. injection Hc as _ <-.
      eexists; split; [reflexivity|]. right. now exists e.
    + rewrite (convert_unfold _ _ _ _ _ _ _ Htmp Hok) in Hc. injection Hc as _ <-.
      eexists; split; [reflexivity|]. now left.
  - rewrite (convert_without_tmpdir _ _ _ _ Htmp) in Hc. discriminate.
Qed.

(** C3. With the temporary directory in place, an exception raised in any of
    the steps 1 to 5 is caught at the item boundary and comes back as the
    status [FAILED: <message>] of that item; normal completion gives [OK]. On
    both paths the cleanup has run, on the world the steps left, before the
    temporary directory is removed. The cleanup itself never raises: when
    [os.remove] fails on the sidecar the failure is swallowed, the file stays,
    and the result of the steps is returned unchanged. *)
Theorem item_boundary_catches_and_cleans (tif_path kmz_path tmpdir : string) (w w0 : world) :
  TemporaryDirectory w = (w0, Return tmpdir) ->
  let base := (splitext (basename tif_path)).1 in
  let png_path := join tmpdir (base +:+ ".png") in
  let kml_path := join tmpdir "doc.kml" in
  let sidecar := tif_path +:+ ".aux.xml" in
  (forall k e w1,
      raises_in_stage tif_path kmz_path png_path kml_path w0 k e w1 ->
      convert_tif_to_kmz_task (tif_path, kmz_path) w
      = (rmtree tmpdir (cleanup_aux_xml tif_path w1).1,
         Return (tif_path, "FAILED: " +:+ exn_str e)))
  /\ (forall w1 res,
         pipeline tif_path kmz_path png_path kml_path w0 = (w1, Return res) ->
         convert_tif_to_kmz_task (tif_path, kmz_path) w
         = (rmtree tmpdir (cleanup_aux_xml tif_path w1).1, Return (tif_path, "OK")))
  /\ (forall w1, (cleanup_aux_xml tif_path w1).2 = Return tt)
  /\ (forall w1 f,
         files w1 !! sidecar = Some f -> sidecar ∈ locked w1 ->
         os_remove sidecar w1 = (w1, Raise (PermissionError sidecar))
         /\ (cleanup_aux_xml tif_path w1).2 = Return tt
         /\ files (cleanup_aux_xml tif_path w1).1 !! sidecar = Some f).
Proof.
  intros Htmp base png_path kml_path sidecar.
  subst base png_path kml_path sidecar. split; [|split; [|split]].
  - intros k e w1 Hk. apply raises_in_stage_pipeline in Hk.
    apply (convert_unfold _ _ _ _ _ _ _ Htmp Hk).
  - intros w1 res Hp.
    destruct (pipeline_cases tif_path kmz_path
                (join tmpdir ((splitext (basename tif_path)).1 +:+ ".png"))
                (join tmpdir "doc.kml") w0)
      as [(k & e & w2 & Hk) | (w2 & w3 & w4 & n & s & ea & we & w5 & w6 & _ & _ & _ & _ & _ & Hok)].
    + apply raises_in_stage_pipeline in Hk. congruence.
    + rewrite Hp in Hok. injection Hok as -> ->.
      apply (convert_unfold _ _ _ _ _ _ _ Htmp Hp).
  - intros w1. destruct (cleanup_aux_xml_spec tif_path w1) as (w2 & -> & _). reflexivity.
  - intros w1 f Hf Hl. split; [|split].
    + unfold os_remove. now rewrite bool_decide_eq_true_2.
    + destruct (cleanup_aux_xml_spec tif_path w1) as (w2 & -> & _). reflexivity.
    + unfold cleanup_aux_xml, bindM, remove_if_exists at 1.
      unfold os_path_exists. rewrite Hf.
      rewrite (bool_decide_eq_true_2 (is_Some (Some f))) by eauto. cbn [orb].
      unfold try_except_pass, os_remove. rewrite bool_decide_eq_true_2 by assumption.
      destruct (endswith (lower tif_path) ".tif"); [|assumption].
      unfold remove_if_exists, try_except_pass, os_remove.
      destruct (os_path_exists _ w1); [|assumption].
      case_bool_decide as Halt; [assumption|].
      destruct (files w1 !! (slice_to tif_path (-4) +:+ ".tiff.aux.xml")) eqn:Ealt;
        [|case_bool_decide; assumption].
      cbn. rewrite lookup_delete_ne; [assumption|].
      intros Heq. apply Halt. now rewrite Heq.
Qed.

Lemma startswith_app (a b : string) : startswith (a +:+ b) a = true.
Proof.
  unfold startswith. induction a as [|x a IH]; [now destruct b|].
  rewrite app_String. cbn [String.prefix].
  destruct (ascii_dec x x); [assumption | congruence].
Qed.

Lemma under_join (d n : string) : slash ∉ chars n -> under d (join d n) = true.
Proof.
  intros Hn. unfold under. destruct (join_name d n Hn) as [-> _]. apply startswith_app.
Qed.

(** Two strings that end in different suffixes of one length differ. *)
Lemma suffix_distinct (s t a b : string) :
  endswith s a = true -> len a = len b -> a <> b -> s <> t +:+ b.
Proof.
  intros Hs Hlen Hab Heq. apply endswith_inv in Hs. rewrite Heq in Hs at 1.
  apply (f_equal list_ascii_of_string) in Hs. rewrite !chars_app in Hs.
  apply app_inj_2 in Hs as [_ Hs].
  - apply Hab. symmetry. now apply chars_inj.
  - rewrite !len_chars in Hlen. lia.
Qed.

(** What [create_kmz] leaves when it returns: the archive holds the overlay
    as [doc.kml] and the image under its base name, both deflated, and no
    other file has changed. *)
Lemma create_kmz_entries (kml_path image_path kmz_path : string) (w w' : world) :
  create_kmz kml_path image_path kmz_path w = (w', Return tt) ->
  exists overlay image,
    files w' !! kmz_path
    = Some (Zip [Entry "doc.kml" ZIP_DEFLATED overlay;
                 Entry (basename image_path) ZIP_DEFLATED image])
    /\ (kml_path <> kmz_path -> files w !! kml_path = Some overlay)
    /\ (image_path <> kmz_path -> files w !! image_path = Some image)
    /\ (forall q, q <> kmz_path -> files w' !! q = files w !! q)
    /\ dirs w' = dirs w /\ locked w' = locked w /\ cwd w' = cwd w.
Proof.
  unfold create_kmz, bindM, ZipFile_w.
  case_bool_decide; [discriminate|]. case_bool_decide; [discriminate|].
  unfold ZipFile_write at 1. cbn [files set_files].
  destruct (<[kmz_path:=Zip []]> (files w) !! kml_path) as [overlay|] eqn:E1; [|discriminate].
  rewrite lookup_insert_eq. cbn [entries_of app].
  unfold ZipFile_write. cbn [files set_files].
  match goal with
  | |- context [?m !! image_path] => destruct (m !! image_path) as [image|] eqn:E2
  end; [|discriminate].
  rewrite lookup_insert_eq. cbn [entries_of app].
  intros [= <-]. exists overlay, image. cbn [files set_files dirs locked cwd].
  split; [now rewrite lookup_insert_eq|].
  split; [intros Hne; now rewrite lookup_insert_ne in E1 by congruence|].
  split; [intros Hne; now rewrite !lookup_insert_ne in E2 by congruence|].
  split; [|auto].
  intros q Hq. now rewrite !lookup_insert_ne by congruence.
Qed.

Lemma create_kmz_returns (kml_path image_path kmz_path : string) (w : world) :
  kmz_path ∉ locked w -> kmz_path ∉ dirs w ->
  is_Some (files w !! kml_path) -> is_Some (files w !! image_path) ->
  kml_path <> kmz_path -> image_path <> kmz_path ->
  exists w', create_kmz kml_path image_path kmz_path w = (w', Return tt).
Proof.
  intros Hl Hd [overlay Hk] [image Hi] Hk' Hi'.
  unfold create_kmz, bindM, ZipFile_w.
  rewrite !bool_decide_eq_false_2 by assumption.
  unfold ZipFile_write at 1. cbn [files set_files].
  rewrite lookup_insert_ne, Hk by congruence.
  unfold ZipFile_write. cbn [files set_files].
  rewrite !lookup_insert_ne, Hi by congruence.
  eexists. reflexivity.
Qed.

Lemma generate_kml_returns (image_name : string) (north south east west : float)
    (kml_path : string) (w w' : world) :
  generate_kml image_name north south east west kml_path w = (w', Return tt) ->
  w' = set_files <[kml_path := Regular (kml_content image_name north south east west)]> w.
Proof.
  unfold generate_kml, write_text. repeat case_bool_decide; congruence.
Qed.


End Converter.

Lemma item_boundary_witness :
  (@convert_tif_to_kmz_task demo ("in/bad.tif", "out/bad.kmz") sample_world).2
  = Return ("in/bad.tif", "FAILED: Unable to open input GeoTIFF: in/bad.tif").
Proof.
  pose (w0 := set_dirs (union {["/tmp/tmp0"]}) sample_world).
  assert (Htmp : @TemporaryDirectory demo sample_world = (w0, Return "/tmp/tmp0"))
    by reflexivity.
  assert (Hraise : @raises_in_stage demo "in/bad.tif" "out/bad.kmz"
                     "/tmp/tmp0/bad.png" "/tmp/tmp0/doc.kml" w0 1
                     (Exn "Exception" "Unable to open input GeoTIFF: in/bad.tif") w0)
    by (apply raises_in_decode; reflexivity).
  rewrite (proj1 (@item_boundary_catches_and_cleans demo "in/bad.tif" "out/bad.kmz"
                    "/tmp/tmp0" sample_world w0 Htmp) _ _ _ Hraise).
  reflexivity.
Defined.


Example convert_sample :
  ((@convert_tif_to_kmz_task demo ("in/a.tif", "out/a.kmz") sample_world).2,
   dom (files (@convert_tif_to_kmz_task demo ("in/a.tif", "out/a.kmz") sample_world).1),
   dom (files (@convert_tif_to_kmz_task demo ("in/bad.tif", "out/bad.kmz") sample_world).1))
  = (Return ("in/a.tif", "OK"),
     {["in/a.tif"; "in/bad.tif"; "in/bad.tif.aux.xml"; "out/a.kmz"]},
     {["in/a.tif"; "in/bad.tif"; "in/bad.tif.aux.xml"]}).
Proof. vm_compute. reflexivity. Qed.

(** ** The tree walker *)

(** C9. A file whose whole name is [.tif] or [.tiff] counts as a raster, but
    [splitext] sees a dotfile without extension: the destination name is the
    full name with [.kmz] appended. *)
Theorem dotfile_raster_gets_kmz_appended (dirpath out_dir : string) :
  (is_tif ".tif" = true /\ is_tif ".tiff" = true)
  /\ (splitext ".tif" = (".tif", "") /\ splitext ".tiff" = (".tiff", ""))
  /\ (kmz_name_of ".tif" = ".tif.kmz" /\ kmz_name_of ".tiff" = ".tiff.kmz")
  /\ tasks_of_files dirpath out_dir [".tif"; ".tiff"] []
     = [(join dirpath ".tif", join out_dir ".tif.kmz");
        (join dirpath ".tiff", join out_dir ".tiff.kmz")]
  /\ (gather_tif_tasks "in" "out" (Dir "in" [] [".tif"]) empty_world).2
     = Return [("in/.tif", "out/./.tif.kmz")].
Proof.
  repeat split; reflexivity.
Qed.

(** ** Components: [split] and [sep_join] *)

Lemma split_nonempty (c : ascii) (s : string) : split c s <> [].
Proof.
  destruct s as [|x s]; cbn [split]; [discriminate|].
  destruct (Ascii.eqb x c); [discriminate|]. destruct (split c s); discriminate.
Qed.

Lemma split_app_sep (c : ascii) (a b : string) :
  split c (a +:+ String c b) = split c a ++ split c b.
Proof.
  induction a as [|x a IH].
  - rewrite app_empty_l. cbn [split]. now rewrite Ascii.eqb_refl.
  - rewrite app_String. cbn [split]. rewrite IH.
    destruct (Ascii.eqb x c); [reflexivity|].
    pose proof (split_nonempty c a). destruct (split c a) as [|y l]; [congruence|reflexivity].
Qed.

Lemma split_name (c : ascii) (n : string) : c ∉ chars n -> split c n = [n].
Proof.
  induction n as [|x n IH]; intros Hn; [reflexivity|].
  cbn in Hn. apply not_elem_of_cons in Hn as [Hx Hn].
  cbn [split]. destruct (Ascii.eqb_spec x c) as [->|_]; [congruence|].
  now rewrite IH.
Qed.

Lemma split_no_sep (c : ascii) (s : string) : Forall (fun x => c ∉ chars x) (split c s).
Proof.
  induction s as [|x s IH]; cbn [split].
  - constructor; [apply not_elem_of_nil | constructor].
  - destruct (Ascii.eqb_spec x c) as [->|Hx].
    + constructor; [apply not_elem_of_nil | assumption].
    + destruct (split c s) as [|y l]; inversion IH; subst.
      * constructor; [|constructor]. cbn. apply not_elem_of_cons. split; [congruence|].
        apply not_elem_of_nil.
      * constructor; [|assumption]. cbn. apply not_elem_of_cons. split; [congruence|assumption].
Qed.

Lemma sep_join_cons (x : string) (l : list string) :
  l <> [] -> sep_join (x :: l) = x +:+ String slash (sep_join l).
Proof. destruct l; [congruence | reflexivity]. Qed.

Lemma split_sep_join (l : list string) :
  l <> [] -> Forall (fun x => slash ∉ chars x) l -> split slash (sep_join l) = l.
Proof.
  induction l as [|x l IH]; intros Hne Hl; [congruence|].
  inversion Hl as [|? ? Hx Hl']; subst.
  destruct l as [|y l].
  - cbn [sep_join]. now apply split_name.
  - rewrite sep_join_cons by discriminate.
    rewrite split_app_sep, (split_name _ x Hx), IH by (assumption || discriminate).
    reflexivity.
Qed.

(** ** [normpath] on a path that grows by one name *)

Lemma proper_name_spec (n : string) :
  proper_name n = true -> n <> "" /\ (slash ∉ chars n) /\ n <> "." /\ n <> "..".
Proof.
  unfold proper_name. rewrite !andb_true_iff, !negb_true_iff.
  intros [[[H1 H2] H3] H4]. repeat split.
  - intros ->. discriminate.
  - now apply has_char_false.
  - intros ->. discriminate.
  - intros ->. discriminate.
Qed.

Lemma normpath_step_empty (k : nat) (l : list string) : normpath_step k l "" = l.
Proof. reflexivity. Qed.

Lemma normpath_step_name (k : nat) (l : list string) (n : string) :
  proper_name n = true -> normpath_step k l n = l ++ [n].
Proof.
  intros (H1 & _ & H3 & H4)%proper_name_spec. unfold normpath_step.
  apply String.eqb_neq in H1, H3, H4. now rewrite H1, H3, H4.
Qed.

Lemma normpath_step_rooted (k : nat) : k <> 0%nat -> normpath_step k = normpath_step 1.
Proof.
  intros Hk. destruct k as [|k]; [congruence|]. reflexivity.
Qed.

Lemma norm_from_app_sep (k : nat) (acc : list string) (a b : string) :
  norm_from k acc (a +:+ String slash b) = norm_from k (norm_from k acc a) b.
Proof. unfold norm_from. now rewrite split_app_sep, fold_left_app. Qed.

Lemma norm_from_empty (k : nat) (acc : list string) : norm_from k acc "" = acc.
Proof. reflexivity. Qed.

(** The components of [join(root, "")] normalise like those of [root]. *)
Lemma norm_from_join_empty (k : nat) (acc : list string) (root : string) :
  norm_from k acc (join root "") = norm_from k acc root.
Proof.
  unfold join. change (startswith "" "/") with false. cbv iota.
  destruct (String.eqb root "" || endswith root "/"); [now rewrite app_empty_r|].
  change (root +:+ "/" +:+ "") with (root +:+ String slash "").
  now rewrite norm_from_app_sep, norm_from_empty.
Qed.

Lemma norm_from_name (k : nat) (acc : list string) (n : string) :
  proper_name n = true -> norm_from k acc n = acc ++ [n].
Proof.
  intros Hn. pose proof (proper_name_spec n Hn) as (_ & Hs & _).
  unfold norm_from. rewrite (split_name _ n Hs). cbn [fold_left].
  now apply normpath_step_name.
Qed.

Lemma norm_from_join (k : nat) (acc : list string) (root n : string) :
  proper_name n = true ->
  norm_from k acc (join root n) = norm_from k acc root ++ [n].
Proof.
  intros Hn. pose proof (proper_name_spec n Hn) as (_ & Hs & _).
  rewrite <- (norm_from_join_empty k acc root).
  destruct (join_name root n Hs) as [-> [-> | [q ->]]].
  - rewrite app_empty_l, norm_from_empty. now apply norm_from_name.
  - rewrite app_assoc_s.
    change ("/" +:+ n) with (String slash n). change (q +:+ "/") with (q +:+ String slash "").
    rewrite !norm_from_app_sep, norm_from_empty. now apply norm_from_name.
Qed.

Lemma norm_from_join_all (k : nat) (acc cs : list string) :
  forall root,
    Forall (fun n => proper_name n = true) cs ->
    norm_from k acc (join_all root cs) = norm_from k acc root ++ cs.
Proof.
  induction cs as [|n cs IH]; intros root Hcs; [now rewrite app_nil_r|].
  inversion Hcs; subst. unfold join_all. cbn [fold_left]. fold (join_all (join root n) cs).
  rewrite IH, norm_from_join by assumption. now rewrite <- app_assoc.
Qed.

(** ** [normpath] and [abspath] of an absolute path *)

Lemma Forall_removelast {A : Type} (P : A -> Prop) (l : list A) :
  Forall P l -> Forall P (removelast l).
Proof.
  induction 1 as [|x l Hx Hl IH]; [constructor|].
  cbn [removelast]. destruct l; [constructor | now constructor].
Qed.

Lemma normpath_step_good (k : nat) (acc : list string) (comp : string) :
  slash ∉ chars comp -> Forall good_comp acc -> Forall good_comp (normpath_step k acc comp).
Proof.
  intros Hc Hacc. unfold normpath_step.
  destruct (String.eqb_spec comp "") as [->|Hne]; cbn [orb]; [assumption|].
  destruct (String.eqb comp "."); [assumption|].
  match goal with |- context [if ?b then _ else _] => destruct b end.
  - apply Forall_app. split; [assumption|]. repeat constructor; assumption.
  - now apply Forall_removelast.
Qed.

Lemma fold_normpath_step_good (k : nat) (input : list string) :
  forall acc,
    Forall (fun x => slash ∉ chars x) input -> Forall good_comp acc ->
    Forall good_comp (fold_left (normpath_step k) input acc).
Proof.
  induction input as [|c input IH]; intros acc Hin Hacc; [assumption|].
  inversion Hin; subst. cbn [fold_left]. apply IH; [assumption|].
  now apply normpath_step_good.
Qed.

Lemma norm_from_good (k : nat) (acc : list string) (p : string) :
  Forall good_comp acc -> Forall good_comp (norm_from k acc p).
Proof. apply fold_normpath_step_good, split_no_sep. Qed.

Lemma normal_comps_good (k : nat) (p : string) : Forall good_comp (normal_comps k p).
Proof. apply norm_from_good. constructor. Qed.

Lemma nonempty_comps_sep (s : string) : nonempty_comps (String slash s) = nonempty_comps s.
Proof.
  unfold nonempty_comps. cbn [split]. rewrite Ascii.eqb_refl.
  rewrite filter_cons_False; [reflexivity | intros Hne; now apply Hne].
Qed.

Lemma filter_good (l : list string) :
  Forall good_comp l -> filter (fun x : string => x <> "") l = l.
Proof.
  induction 1 as [|x l [Hx _] Hl IH]; [reflexivity|].
  rewrite filter_cons_True by assumption. now rewrite IH.
Qed.

Lemma nonempty_comps_sep_join (l : list string) :
  Forall good_comp l -> nonempty_comps (sep_join l) = l.
Proof.
  intros Hl. unfold nonempty_comps. destruct l as [|x l]; [reflexivity|].
  rewrite split_sep_join.
  - now apply filter_good.
  - discriminate.
  - eapply Forall_impl; [exact Hl|]. now intros y [_ Hy].
Qed.

Lemma startswith_sep (s : string) :
  startswith s "/" = true <-> exists t, s = String slash t.
Proof.
  unfold startswith. destruct s as [|x s]; cbn [String.prefix].
  - split; [discriminate | intros [t Ht]; discriminate].
  - destruct (ascii_dec "/" x) as [<-|Hx].
    + split; [now exists s | now destruct s].
    + split; [discriminate|]. intros [t Ht]. injection Ht as Hx' _.
      exfalso. apply Hx. now rewrite Hx'.
Qed.

(** Of an absolute path [normpath] leaves the separator-free, non-empty
    components that the loop has kept. *)
Lemma nonempty_comps_normpath (p : string) :
  startswith p "/" = true -> nonempty_comps (normpath p) = normal_comps 1 p.
Proof.
  intros Hp. unfold normpath. rewrite Hp.
  destruct (String.eqb_spec p "") as [->|_]; [discriminate|].
  set (k := if startswith p "//" && negb (startswith p "///") then 2%nat else 1%nat).
  assert (Hk : k = 1%nat \/ k = 2%nat) by (subst k; destruct (_ && _); auto).
  change (fold_left (normpath_step k) (split slash p) []) with (normal_comps k p).
  assert (Hn : normal_comps k p = normal_comps 1 p).
  { unfold normal_comps, norm_from. rewrite (normpath_step_rooted k); [reflexivity|].
    destruct Hk; lia. }
  rewrite Hn. pose proof (normal_comps_good 1 p) as Hg.
  destruct Hk as [-> | ->]; unfold Nat.iter; cbn [nat_rect String.eqb].
  all: rewrite !nonempty_comps_sep; now apply nonempty_comps_sep_join.
Qed.

(** ** [join] and [join_all] along names *)

Lemma join_nonempty (root n : string) : root <> "" -> join root n <> "".
Proof.
  intros Hr. unfold join. destruct (startswith n "/") eqn:Hn.
  - apply startswith_sep in Hn as [t ->]. discriminate.
  - destruct (String.eqb_spec root "") as [->|_]; [congruence|]. cbn [orb].
    destruct root; [congruence|]. destruct (endswith _ "/"); discriminate.
Qed.

Lemma join_all_nonempty (cs : list string) :
  forall root, root <> "" -> join_all root cs <> "".
Proof.
  induction cs as [|n cs IH]; intros root Hr; [assumption|].
  unfold join_all. cbn [fold_left]. apply IH. now apply join_nonempty.
Qed.

Lemma join_keeps_head (root n : string) (c : ascii) (t : string) :
  root = String c t -> slash ∉ chars n -> exists t', join root n = String c t'.
Proof.
  intros -> Hn. destruct (join_name (String c t) n Hn) as [-> _].
  unfold join. change (startswith "" "/") with false. cbv iota.
  cbn [String.eqb orb]. destruct (endswith _ "/"); rewrite !app_String; eauto.
Qed.

Lemma join_all_keeps_head (cs : list string) :
  forall root c t,
    root = String c t -> Forall (fun n => proper_name n = true) cs ->
    exists t', join_all root cs = String c t'.
Proof.
  induction cs as [|n cs IH]; intros root c t Hr Hcs; [now exists t|].
  inversion Hcs as [|? ? Hn Hcs']; subst.
  apply proper_name_spec in Hn as (_ & Hn & _).
  destruct (join_keeps_head _ n c t eq_refl Hn) as [t' Ht'].
  unfold join_all. cbn [fold_left]. now apply (IH _ c t').
Qed.

(** ** [relpath] from the root to a directory below it *)

Lemma startswith_head (s : string) (c : ascii) (t : string) :
  s = String c t -> startswith s "/" = bool_decide (c = slash).
Proof.
  intros ->. unfold startswith. cbn [String.prefix].
  destruct (ascii_dec "/" c) as [<-|Hc].
  - destruct t; now rewrite bool_decide_eq_true_2.
  - rewrite bool_decide_eq_false_2; [reflexivity|]. intros ->. now apply Hc.
Qed.

(** In an absolute working directory, the components of [abspath(p)] for a
    relative non-empty [p] are those of [p] normalised from a list [acc]
    that the working directory alone decides. *)
Lemma abspath_relative (wd : string) :
  startswith wd "/" = true ->
  exists acc,
    forall p, p <> "" -> startswith p "/" = false ->
      nonempty_comps (abspath wd p) = norm_from 1 acc p.
Proof.
  intros Hwd. apply startswith_sep in Hwd as [t ->].
  destruct (join_keeps_head (String slash t) "" slash t eq_refl) as [t' Ht'].
  { apply not_elem_of_nil. }
  destruct (join_rel (String slash t) "" eq_refl) as [_ [E | [q Hq]]];
    [rewrite Ht' in E; discriminate|].
  exists (norm_from 1 [] q). intros p Hp Hrel.
  unfold abspath. rewrite Hrel.
  destruct (join_rel (String slash t) p Hrel) as [-> _].
  rewrite Hq, app_assoc_s. change ("/" +:+ p) with (String slash p).
  rewrite nonempty_comps_normpath.
  - unfold normal_comps. now rewrite norm_from_app_sep.
  - apply startswith_sep. rewrite Hq in Ht'.
    destruct q as [|x q].
    + exists p. reflexivity.
    + rewrite app_String in Ht'. injection Ht' as -> _.
      rewrite app_String. eexists. reflexivity.
Qed.

Lemma abspath_join_all (wd root : string) (cs : list string) :
  startswith wd "/" = true -> root <> "" ->
  Forall (fun n => proper_name n = true) cs ->
  nonempty_comps (abspath wd (join_all root cs)) = nonempty_comps (abspath wd root) ++ cs.
Proof.
  intros Hwd Hroot Hcs. destruct root as [|c t]; [congruence|].
  destruct (join_all_keeps_head cs (String c t) c t eq_refl Hcs) as [t' Ht'].
  pose proof (startswith_head _ c t eq_refl) as Hr.
  pose proof (startswith_head _ c t' Ht') as Hp.
  case_bool_decide as Hc.
  - unfold abspath. rewrite Hr, Hp.
    rewrite !nonempty_comps_normpath by assumption.
    apply norm_from_join_all. assumption.
  - destruct (abspath_relative wd Hwd) as [acc Hacc].
    rewrite !Hacc; try assumption; try discriminate.
    + now apply norm_from_join_all.
    + now apply join_all_nonempty.
Qed.

Lemma common_prefix_len_app (l cs : list string) : common_prefix_len l (l ++ cs) = length l.
Proof.
  induction l as [|x l IH]; [reflexivity|].
  cbn [common_prefix_len app length]. now rewrite String.eqb_refl, IH.
Qed.

Lemma endswith_sep_snoc (a n : string) :
  n <> "" -> endswith (a +:+ n) "/" = endswith n "/".
Proof.
  intros Hn. destruct (endswith n "/") eqn:En.
  - apply endswith_inv in En. rewrite En, <- app_assoc_s. apply endswith_app.
  - destruct (endswith (a +:+ n) "/") eqn:Ea; [|reflexivity].
    apply endswith_inv in Ea. apply (f_equal list_ascii_of_string) in Ea.
    rewrite !chars_app in Ea.
    destruct (chars n) as [|x l] eqn:El using rev_ind.
    + exfalso. apply Hn. apply chars_inj. now rewrite El.
    + clear IHl. rewrite app_assoc in Ea. apply app_inj_2 in Ea as [_ Ex]; [|reflexivity].
      assert (n = string_of_list_ascii l +:+ "/") as ->.
      { apply chars_inj. rewrite chars_app, list_ascii_of_string_of_list_ascii, El.
        now inversion Ex. }
      now rewrite endswith_app in En.
Qed.

(** Names joined one after the other give the names separated by [/]. *)
Lemma join_all_names (cs : list string) :
  forall a,
    a <> "" -> endswith a "/" = false ->
    Forall (fun n => proper_name n = true) cs ->
    join_all a cs = sep_join (a :: cs).
Proof.
  induction cs as [|n cs IH]; intros a Ha He Hcs; [reflexivity|].
  inversion Hcs as [|? ? Hn Hcs']; subst.
  pose proof (proper_name_spec n Hn) as (Hne & Hs & _).
  unfold join_all. cbn [fold_left]. fold (join_all (join a n) cs).
  assert (Hj : join a n = a +:+ "/" +:+ n).
  { unfold join. rewrite (startswith_sep_false n Hs), He.
    apply String.eqb_neq in Ha. now rewrite Ha. }
  rewrite Hj, IH; try assumption.
  - destruct cs as [|m cs]; [reflexivity|].
    rewrite (sep_join_cons _ (m :: cs)), (sep_join_cons a (n :: m :: cs)),
      (sep_join_cons n (m :: cs)) by discriminate.
    change (String slash ?x) with ("/" +:+ x). now rewrite !app_assoc_s.
  - destruct a; [congruence | discriminate].
  - rewrite <- app_assoc_s, endswith_sep_snoc by assumption.
    destruct (endswith n "/") eqn:En; [|reflexivity].
    apply endswith_inv in En. exfalso. rewrite En in Hs.
    apply not_elem_of_chars_app in Hs as [_ Hs]. apply Hs. cbn. apply list_elem_of_here.
Qed.

Lemma proper_name_no_trailing_sep (n : string) :
  proper_name n = true -> endswith n "/" = false.
Proof.
  intros (_ & Hs & _)%proper_name_spec.
  destruct (endswith n "/") eqn:En; [|reflexivity].
  apply endswith_inv in En. exfalso. rewrite En in Hs.
  apply not_elem_of_chars_app in Hs as [_ Hs]. apply Hs. cbn. apply list_elem_of_here.
Qed.

(** [os.path.relpath] of a directory reached from [root] through the names
    [cs], taken from [root]: the names joined, or [.] for the root itself. *)
Lemma relpath_below (root : string) (cs : list string) (w : world) :
  startswith (cwd w) "/" = true -> root <> "" ->
  Forall (fun n => proper_name n = true) cs ->
  relpath (join_all root cs) root w = (w, Return (rel_dir_of cs)).
Proof.
  intros Hwd Hroot Hcs. unfold relpath.
  pose proof (join_all_nonempty cs root Hroot) as Hne.
  apply String.eqb_neq in Hne. rewrite Hne.
  rewrite abspath_join_all by assumption.
  rewrite common_prefix_len_app, Nat.sub_diag, drop_app_length. cbn [repeat app].
  destruct cs as [|a cs]; [reflexivity|].
  inversion Hcs as [|? ? Ha Hcs']; subst.
  rewrite join_all_names; try assumption.
  - reflexivity.
  - now apply proper_name_spec in Ha as [? _].
  - now apply proper_name_no_trailing_sep.
Qed.

(** ** [os.walk] and the two loops of [gather_tif_tasks] *)

Lemma tree_induction (P : tree -> Prop) :
  (forall n subs fs, Forall P subs -> P (Dir n subs fs)) -> forall t, P t.
Proof.
  intros IH. fix F 1. intros [n subs fs]. apply IH.
  induction subs as [|s subs IHs]; constructor; [apply F | assumption].
Qed.

Lemma join_all_snoc (root : string) (cs : list string) (n : string) :
  join_all root (cs ++ [n]) = join (join_all root cs) n.
Proof. unfold join_all. now rewrite fold_left_app. Qed.

Lemma walk_dirs_under (root : string) (t : tree) :
  forall prefix, walk (join_all root prefix) t = map (entry_of root) (dirs_under prefix t).
Proof.
  induction t as [n subs fs IH] using tree_induction. intros prefix.
  cbn [walk dirs_under map]. f_equal.
  induction IH as [|s subs Hs _ IHsubs]; [reflexivity|].
  cbn [flat_map]. rewrite map_app, <- IHsubs. f_equal.
  rewrite <- Hs. now rewrite join_all_snoc.
Qed.

Lemma dirs_under_proper (t : tree) :
  forall prefix,
    Forall (fun n => proper_name n = true) prefix -> proper_tree t = true ->
    Forall (fun e => Forall (fun n => proper_name n = true) e.1
                     /\ Forall (fun f => proper_name f = true) (filenames_of e.2))
           (dirs_under prefix t).
Proof.
  induction t as [n subs fs IH] using tree_induction. intros prefix Hp Ht.
  cbn [proper_tree] in Ht. apply andb_true_iff in Ht as [Hfs Hsubs].
  cbn [dirs_under]. constructor.
  - split; [assumption|]. cbn. rewrite forallb_forall in Hfs.
    apply Forall_forall. intros f Hf. apply Hfs. now apply list_elem_of_In.
  - induction IH as [|s subs Hs _ IHsubs]; [constructor|].
    cbn [forallb] in Hsubs. apply andb_true_iff in Hsubs as [Hs' Hsubs].
    apply andb_true_iff in Hs' as [Hname Hproper].
    cbn [flat_map]. apply Forall_app. split; [|now apply IHsubs].
    apply Hs; [|assumption]. apply Forall_app. split; [assumption|]. now repeat constructor.
Qed.

Lemma tasks_of_files_spec (dirpath out_dir : string) (filenames : list string) :
  forall tasks,
    tasks_of_files dirpath out_dir filenames tasks
    = tasks ++ map (fun fname => (join dirpath fname, join out_dir (kmz_name_of fname)))
                   (filter (fun fname => is_tif fname = true) filenames).
Proof.
  induction filenames as [|f fs IH]; intros tasks; [now rewrite app_nil_r|].
  cbn [tasks_of_files]. destruct (is_tif f) eqn:Ef.
  - rewrite IH, filter_cons_True by assumption. cbn [map]. now rewrite <- app_assoc.
  - rewrite IH, filter_cons_False; [reflexivity|]. now rewrite Ef.
Qed.

Lemma os_makedirs_exist_ok_spec (p : string) (w : world) :
  can_mirror w p ->
  os_makedirs_exist_ok p w = (set_dirs (union {[p]}) w, Return tt).
Proof.
  assert (Hin : p ∈ dirs w -> (w, Return tt) = (set_dirs (union {[p]}) w, @Return unit tt)).
  { intros Hd. f_equal. destruct w as [fs ds ls wd]. unfold set_dirs; cbn in *. f_equal.
    symmetry. now apply subseteq_union_1_L, singleton_subseteq_l. }
  intros [Hd | [Hf Hl]]; unfold os_makedirs_exist_ok.
  - rewrite bool_decide_eq_true_2 by assumption. now apply Hin.
  - case_bool_decide as Hd; [now apply Hin|].
    rewrite Hf. rewrite bool_decide_eq_false_2 by (intros [? ?]; discriminate).
    now rewrite bool_decide_eq_false_2.
Qed.

Lemma can_mirror_set_dirs (w : world) (q p : string) :
  can_mirror w p -> can_mirror (set_dirs (union {[q]}) w) p.
Proof.
  intros [Hd | [Hf Hl]]; [left | right]; cbn; [now apply elem_of_union_r | auto].
Qed.

Lemma gather_loop_spec (root_in root_out : string) (l : list (list string * tree)) :
  forall tasks w,
    startswith (cwd w) "/" = true -> root_in <> "" ->
    Forall (fun e => Forall (fun n => proper_name n = true) e.1) l ->
    Forall (fun e => can_mirror w (mirror_of root_out e.1)) l ->
    gather_loop root_in root_out (map (entry_of root_in) l) tasks w
    = (set_dirs (union (list_to_set (map (fun e => mirror_of root_out e.1) l))) w,
       Return (tasks
               ++ flat_map (fun e => map (item_of root_in root_out e.1)
                                         (filter (fun fname => is_tif fname = true)
                                                 (filenames_of e.2))) l)).
Proof.
  induction l as [|[cs d] l IH]; intros tasks w Hwd Hroot Hcs Hcan.
  - cbn. rewrite app_nil_r. unfold ret. f_equal.
    destruct w as [fs ds ls wd]. unfold set_dirs; cbn. f_equal.
    symmetry. apply union_empty_l_L.
  - inversion Hcs as [|? ? Hc Hcs']; subst. inversion Hcan as [|? ? Hm Hcan']; subst.
    cbn [fst] in Hc, Hm.
    cbn [map gather_loop entry_of fst snd]. unfold bindM.
    rewrite relpath_below by assumption.
    fold (mirror_of root_out cs).
    rewrite (os_makedirs_exist_ok_spec _ _ Hm).
    rewrite IH; try assumption.
    + f_equal.
      * destruct w as [fs ds ls wd]. unfold set_dirs; cbn. f_equal.
        rewrite (assoc_L union). f_equal. apply (comm_L union).
      * rewrite tasks_of_files_spec. cbn [flat_map]. now rewrite <- app_assoc.
    + eapply Forall_impl; [exact Hcan'|]. intros e He. now apply can_mirror_set_dirs.
Qed.

(** ** The destination name *)

Lemma lower_app (a b : string) : lower (a +:+ b) = lower a +:+ lower b.
Proof.
  induction a as [|x a IH]; [reflexivity|].
  rewrite app_String. cbn [lower]. now rewrite IH, app_String.
Qed.

Lemma len_lower (s : string) : len (lower s) = len s.
Proof.
  unfold len. f_equal. induction s as [|x s IH]; [reflexivity|].
  cbn [lower String.length]. now rewrite IH.
Qed.

Lemma ascii_lower_dot (a : ascii) : ascii_lower a = dot -> a = dot.
Proof.
  destruct a as [[] [] [] [] [] [] [] []]; vm_compute; intros E;
    try discriminate E; reflexivity.
Qed.

Lemma lower_keeps_dot (s : string) : dot ∉ chars (lower s) -> dot ∉ chars s.
Proof.
  induction s as [|x s IH]; [trivial|].
  cbn [lower list_ascii_of_string]. rewrite !not_elem_of_cons.
  intros [Hx Hs]. split; [|now apply IH].
  intros <-. now apply Hx.
Qed.

(** A string that lowers to a dot and a dot-free rest is a dot and a dot-free rest. *)
Lemma lower_suffix_inv (e rest : string) :
  lower e = String dot rest -> dot ∉ chars rest ->
  exists ext, e = String dot ext /\ dot ∉ chars ext.
Proof.
  destruct e as [|a e]; [discriminate|].
  cbn [lower]. intros [= Ha He] Hrest.
  apply ascii_lower_dot in Ha as ->. exists e. split; [reflexivity|].
  apply lower_keeps_dot. now rewrite He.
Qed.

(** The last [k] characters of a string, split off. *)
Lemma split_suffix (f : string) (k : Z) :
  0 < k <= len f ->
  exists stem e, f = stem +:+ e /\ len e = k /\ slice_to f (- k) = stem.
Proof.
  intros Hk. rewrite len_chars in Hk.
  set (n := (length (chars f) - Z.to_nat k)%nat).
  exists (string_of_list_ascii (take n (chars f))), (string_of_list_ascii (drop n (chars f))).
  assert (Hf : f = string_of_list_ascii (take n (chars f))
                   +:+ string_of_list_ascii (drop n (chars f))).
  { apply chars_inj. rewrite chars_app, !list_ascii_of_string_of_list_ascii.
    now rewrite take_drop. }
  assert (He : len (string_of_list_ascii (drop n (chars f))) = k).
  { rewrite len_chars, list_ascii_of_string_of_list_ascii, length_drop. subst n. lia. }
  split; [assumption|]. split; [assumption|].
  rewrite Hf at 1. rewrite <- He. apply slice_to_neg_app. lia.
Qed.

(** The suffix matched by [is_tif], as it is spelled in the name: the name
    is its [raster_stem], a dot and a dot-free extension. *)
Lemma is_tif_inv (fname : string) :
  is_tif fname = true ->
  exists ext, fname = raster_stem fname +:+ String dot ext /\ dot ∉ chars ext.
Proof.
  unfold is_tif, raster_stem. intros Hm.
  set (suf := if endswith (lower fname) ".tiff" then "tiff" else "tif").
  assert (Hsuf : endswith (lower fname) (String dot suf) = true).
  { subst suf. destruct (endswith (lower fname) ".tiff") eqn:E; [exact E|].
    now rewrite orb_false_r in Hm. }
  assert (Hdot : dot ∉ chars suf).
  { subst suf. destruct (endswith (lower fname) ".tiff"); apply has_char_false; reflexivity. }
  assert (Hstem : (if endswith (lower fname) ".tiff"
                   then slice_to fname (-5) else slice_to fname (-4))
                  = slice_to fname (- len (String dot suf))).
  { subst suf. destruct (endswith (lower fname) ".tiff"); reflexivity. }
  rewrite Hstem. clear Hstem.
  assert (Hlen : 0 < len (String dot suf) <= len fname).
  { split; [rewrite len_String; pose proof (len_nonneg suf); lia|].
    rewrite <- (len_lower fname). unfold endswith in Hsuf.
    apply andb_true_iff in Hsuf as [Hle _]. now apply Z.leb_le in Hle. }
  destruct (split_suffix fname _ Hlen) as (stem & e & Hf & He & Hs).
  rewrite Hs.
  assert (Hlow : lower e = String dot suf).
  { apply endswith_inv in Hsuf. rewrite Hf, lower_app in Hsuf.
    apply (f_equal list_ascii_of_string) in Hsuf. rewrite !chars_app in Hsuf.
    apply app_inj_2 in Hsuf as [_ Hsuf]; [now apply chars_inj|].
    pose proof (len_lower e) as Hl. rewrite !len_chars in Hl, He. lia. }
  destruct (lower_suffix_inv e suf Hlow Hdot) as (ext & -> & Hext).
  exists ext. split; [exact Hf | exact Hext].
Qed.

(** The destination name of a raster: the extension is replaced by [.kmz],
    unless the stem holds nothing but dots; then [.kmz] is appended. *)
Lemma kmz_name_of_raster (fname : string) :
  proper_name fname = true -> is_tif fname = true ->
  kmz_name_of fname
  = if only_dots (raster_stem fname) then fname +:+ ".kmz" else raster_stem fname +:+ ".kmz".
Proof.
  intros (_ & Hs & _)%proper_name_spec Hm.
  destruct (is_tif_inv fname Hm) as (ext & Hf & Hext).
  unfold kmz_name_of. rewrite Hf at 1. rewrite splitext_name; [|now rewrite <- Hf|assumption].
  destruct (only_dots (raster_stem fname)); cbn [fst]; now rewrite <- ?Hf.
Qed.

(** ** The tree walker as a whole *)

Lemma gather_tif_tasks_spec (root_in root_out : string) (t : tree) (w : world) :
  root_in <> "" -> startswith (cwd w) "/" = true -> proper_tree t = true ->
  (forall e, e ∈ dirs_under [] t -> can_mirror w (mirror_of root_out e.1)) ->
  gather_tif_tasks root_in root_out t w
  = (set_dirs (union (list_to_set (map (fun e => mirror_of root_out e.1) (dirs_under [] t)))) w,
     Return (items_of root_in root_out t)).
Proof.
  intros Hroot Hwd Ht Hcan. unfold gather_tif_tasks, os_walk.
  apply String.eqb_neq in Hroot as Hroot'. rewrite Hroot'.
  change (walk root_in t) with (walk (join_all root_in []) t).
  rewrite walk_dirs_under, gather_loop_spec; try assumption.
  - reflexivity.
  - eapply Forall_impl; [apply (dirs_under_proper t []); [constructor | assumption]|].
    now intros e [He _].
  - apply Forall_forall. exact Hcan.
Qed.

Lemma mirror_in_list (root_out : string) (l : list (list string * tree)) (e : list string * tree) :
  e ∈ l ->
  mirror_of root_out e.1
  ∈ (list_to_set (map (fun e => mirror_of root_out e.1) l) : gset string).
Proof.
  intros He. apply elem_of_list_to_set, list_elem_of_In, in_map_iff.
  exists e. split; [reflexivity | now apply list_elem_of_In].
Qed.

(** A walk that has returned: what it leaves and what it hands back. *)
Lemma relpath_world (path start : string) (w : world) : (relpath path start w).1 = w.
Proof.
  unfold relpath. destruct (String.eqb path ""); [reflexivity|].
  now destruct (repeat _ _ ++ _).
Qed.

Lemma os_makedirs_exist_ok_frame (p : string) (w w1 : world) (r : outcome unit) :
  os_makedirs_exist_ok p w = (w1, r) ->
  files w1 = files w /\ locked w1 = locked w /\ cwd w1 = cwd w /\ dirs w ⊆ dirs w1
  /\ (r = Return tt -> p ∈ dirs w1).
Proof.
  unfold os_makedirs_exist_ok.
  case_bool_decide as Hd; [intros [= <- <-]; auto|].
  case_bool_decide; [intros [= <- <-]; repeat split; [reflexivity | discriminate]|].
  case_bool_decide; [intros [= <- <-]; repeat split; [reflexivity | discriminate]|].
  intros [= <- <-]. cbn [files locked cwd dirs set_dirs]. repeat split.
  - apply union_subseteq_r.
  - intros _. apply elem_of_union_l. now apply elem_of_singleton.
Qed.

Lemma gather_loop_frame (root_in root_out : string)
    (entries : list (string * list string * list string)) :
  forall tasks w w' r,
    gather_loop root_in root_out entries tasks w = (w', r) ->
    files w' = files w /\ locked w' = locked w /\ cwd w' = cwd w /\ dirs w ⊆ dirs w'.
Proof.
  induction entries as [|[[dirpath dirnames] filenames] entries IH]; intros tasks w w' r.
  - intros [= <- <-]. auto.
  - cbn [gather_loop]. unfold bindM.
    pose proof (relpath_world dirpath root_in w) as Hw.
    destruct (relpath dirpath root_in w) as [w0 [rel_dir|e]]; cbn [fst] in Hw; subst w0;
      [|intros [= <- <-]; auto].
    destruct (os_makedirs_exist_ok (join root_out rel_dir) w) as [w1 [[]|e]] eqn:Hm;
      apply os_makedirs_exist_ok_frame in Hm as (Hf & Hl & Hc & Hd & _);
      [|intros [= <- <-]; auto].
    intros Hg. apply IH in Hg as (Hf' & Hl' & Hc' & Hd').
    repeat split; try congruence. now transitivity (dirs w1).
Qed.

Lemma gather_loop_returns (root_in root_out : string) (l : list (list string * tree)) :
  forall tasks w w' ts,
    startswith (cwd w) "/" = true -> root_in <> "" ->
    Forall (fun e => Forall (fun n => proper_name n = true) e.1) l ->
    gather_loop root_in root_out (map (entry_of root_in) l) tasks w = (w', Return ts) ->
    ts = tasks
         ++ flat_map (fun e => map (item_of root_in root_out e.1)
                                   (filter (fun fname => is_tif fname = true)
                                           (filenames_of e.2))) l
    /\ Forall (fun e => mirror_of root_out e.1 ∈ dirs w') l.
Proof.
  induction l as [|[cs d] l IH]; intros tasks w w' ts Hwd Hroot Hcs.
  - cbn. intros [= <- <-]. rewrite app_nil_r. split; [reflexivity | constructor].
  - inversion Hcs as [|? ? Hc Hcs']; subst. cbn [fst] in Hc.
    cbn [map gather_loop entry_of fst snd]. unfold bindM.
    rewrite relpath_below by assumption. fold (mirror_of root_out cs).
    destruct (os_makedirs_exist_ok (mirror_of root_out cs) w) as [w1 [[]|e]] eqn:Hm;
      [|discriminate].
    apply os_makedirs_exist_ok_frame in Hm as (_ & _ & Hc1 & _ & Hin).
    intros Hg. pose proof (gather_loop_frame _ _ _ _ _ _ _ Hg) as (_ & _ & _ & Hd).
    apply IH in Hg as [-> Hall]; [|congruence|assumption|assumption].
    split.
    + rewrite tasks_of_files_spec. cbn [flat_map]. now rewrite <- app_assoc.
    + constructor; [|exact Hall]. cbn [fst]. apply Hd. now apply Hin.
Qed.

(** C6, amended. Take a tree of proper names, a non-empty input root and
    an output root that lies apart from it, and a walk that returns, that
    is, on which every call of [os.makedirs] has succeeded. Then every
    directory of the tree, with or without rasters, has its mirror
    [join(root_out, relpath)] as a directory afterwards, and no file has
    been touched; a directory that is there already is no error for
    [os.makedirs(..., exist_ok=True)], and a second walk over the disk the
    first one left returns the same items and changes nothing. The items
    are, directory by directory and in the order listed, one per file whose
    name ends in [.tif] or [.tiff] whatever the case. The destination of a
    raster lies in the mirror of its directory and carries the source name
    with the suffix replaced by [.kmz], provided the name has a character
    other than a dot before the suffix. *)
Theorem tree_walker_mirrors_and_plans (root_in root_out : string) (t : tree)
    (w w' : world) (tasks : list task) :
  root_in <> "" -> startswith (cwd w) "/" = true -> proper_tree t = true ->
  roots_apart w root_in root_out ->
  gather_tif_tasks root_in root_out t w = (w', Return tasks) ->
  tasks = items_of root_in root_out t
  /\ (forall e, e ∈ dirs_under [] t -> mirror_of root_out e.1 ∈ dirs w')
  /\ files w' = files w
  /\ (forall p w0, p ∈ dirs w0 -> os_makedirs_exist_ok p w0 = (w0, Return tt))
  /\ gather_tif_tasks root_in root_out t w' = (w', Return tasks)
  /\ (forall e fname,
         e ∈ dirs_under [] t -> fname ∈ filenames_of e.2 -> is_tif fname = true ->
         only_dots (raster_stem fname) = false ->
         item_of root_in root_out e.1 fname
         = (join (join_all root_in e.1) fname,
            join (mirror_of root_out e.1) (raster_stem fname +:+ ".kmz"))).
Proof.
  intros Hroot Hwd Ht _ Hg.
  pose proof (dirs_under_proper t [] (Forall_nil_2 _) Ht) as Hp.
  assert (Hcs : Forall (fun e : list string * tree =>
                          Forall (fun n => proper_name n = true) e.1) (dirs_under [] t)).
  { eapply Forall_impl; [exact Hp|]. now intros e [He _]. }
  pose proof Hg as Hg0. unfold gather_tif_tasks, os_walk in Hg0.
  apply String.eqb_neq in Hroot as Hroot'. rewrite Hroot' in Hg0.
  change (walk root_in t) with (walk (join_all root_in []) t) in Hg0.
  rewrite walk_dirs_under in Hg0.
  pose proof (gather_loop_frame _ _ _ _ _ _ _ Hg0) as (Hfiles & _ & Hcwd & _).
  apply gather_loop_returns in Hg0 as [Htasks Hmirrors]; try assumption.
  cbn [app] in Htasks. fold (items_of root_in root_out t) in Htasks.
  rewrite Forall_forall in Hmirrors.
  split; [exact Htasks|]. split; [exact Hmirrors|]. split; [exact Hfiles|].
  split; [|split].
  - intros p w0 Hin. unfold os_makedirs_exist_ok. now rewrite bool_decide_eq_true_2.
  - rewrite gather_tif_tasks_spec; try assumption.
    + rewrite Htasks. f_equal.
      destruct w' as [fs ds ls wd]. unfold set_dirs; cbn. f_equal.
      apply subseteq_union_1_L. intros q Hq.
      apply elem_of_list_to_set, list_elem_of_In, in_map_iff in Hq as (e & <- & He).
      apply Hmirrors. now apply list_elem_of_In.
    + congruence.
    + intros e He. left. now apply Hmirrors.
  - intros e fname He Hf Hm Hdots. unfold item_of. f_equal. f_equal.
    rewrite Forall_forall in Hp. destruct (Hp e He) as [_ Hfs].
    rewrite Forall_forall in Hfs.
    rewrite kmz_name_of_raster by auto. now rewrite Hdots.
Qed.

(** C6 as stated fails on a raster that is named [.tif]: its destination is
    [.tif.kmz] in the mirror, not the name with the suffix replaced. *)
Lemma tree_walker_dotfile_counterexample :
  is_tif ".tif" = true
  /\ (gather_tif_tasks "in" "out" (Dir "in" [] [".tif"]) empty_world).2
     = Return [("in/.tif", "out/./.tif.kmz")]
  /\ join (mirror_of "out" []) (raster_stem ".tif" +:+ ".kmz") = "out/./.kmz"
  /\ "out/./.tif.kmz" <> "out/./.kmz".
Proof. repeat split; try reflexivity. discriminate. Qed.

Lemma tree_walker_mirrors_and_plans_witness :
  let t := Dir "in" [Dir "A" [Dir "B" [] []] ["x.TIF"; "notes.txt"]] ["a.tif"; "b.tiff"] in
  let w := world_of [("in/a.tif", Regular "II*")] in
  (gather_tif_tasks "in" "out" t w).2
  = Return [("in/a.tif", "out/./a.kmz"); ("in/b.tiff", "out/./b.kmz");
            ("in/A/x.TIF", "out/A/x.kmz")]
  /\ mirror_of "out" ["A"; "B"] ∈ dirs (gather_tif_tasks "in" "out" t w).1.
Proof.
  intros t w.
  assert (Hroot : "in" <> "") by discriminate.
  assert (Hwd : startswith (cwd w) "/" = true) by reflexivity.
  assert (Ht : proper_tree t = true) by reflexivity.
  assert (Hapart : roots_apart w "in" "out").
  { unfold roots_apart. split; [vm_compute; discriminate|]. split; vm_compute; reflexivity. }
  destruct (gather_tif_tasks "in" "out" t w) as [w' [tasks|e]] eqn:Hg;
    [|vm_compute in Hg; discriminate].
  destruct (tree_walker_mirrors_and_plans "in" "out" t w w' tasks Hroot Hwd Ht Hapart Hg)
    as (Htasks & Hmirrors & _).
  cbn [fst snd]. split; [rewrite Htasks; reflexivity|].
  apply (Hmirrors (["A"; "B"], Dir "B" [] [])).
  apply list_elem_of_further, list_elem_of_further, list_elem_of_here.
Defined.

(** ** The batch *)

Section Pool.
Context `{Collaborators}.

Lemma submit_all_ids (tasks : list task) :
  (imap (fun i t => (i, t)) tasks).*1 = seq 0 (length tasks).
Proof.
  rewrite fmap_imap. transitivity (id <$> seq 0 (length tasks)); [|apply list_fmap_id].
  rewrite <- imap_seq_0. apply imap_ext. reflexivity.
Qed.

Lemma pool_inv_submit_all (tasks : list task) (w : world) :
  pool_inv tasks (submit_all tasks w).
Proof.
  constructor; cbn.
  - rewrite !app_nil_r, submit_all_ids. reflexivity.
  - rewrite app_nil_r. apply Forall_lookup. intros i [j t] Hi.
    apply list_lookup_imap_Some in Hi as (t' & Ht & [= -> ->]). exact Ht.
  - constructor.
  - reflexivity.
  - intros _. split; [reflexivity | constructor].
Qed.

Lemma perm_shift {A : Type} (a : A) (l1 l2 l3 : list A) :
  l1 ++ (l2 ++ [a]) ++ l3 ≡ₚ a :: l1 ++ l2 ++ l3.
Proof.
  rewrite <- (app_assoc l2). cbn [app]. rewrite !app_assoc.
  symmetry. apply Permutation_middle.
Qed.

Lemma pool_inv_step (tasks : list task) (max_workers : nat) (a : action) (p p' : pool) :
  pool_inv tasks p -> step max_workers (length tasks) a p = Some p' -> pool_inv tasks p'.
Proof.
  intros [Hids Htasks Hres Hcount Hprint] Hstep.
  destruct a as [|k|k]; cbn [step] in Hstep.
  - (* a worker takes the oldest queued task *)
    destruct (queued p) as [|x q] eqn:Eq; [discriminate|].
    destruct (length (running p) <? max_workers)%nat; [|discriminate].
    injection Hstep as <-. constructor; cbn; try assumption.
    + rewrite fmap_app. cbn. rewrite <- Hids. cbn. apply perm_shift.
    + cbn in Htasks. inversion Htasks as [|? ? Hx Hrest]; subst.
      rewrite app_assoc. apply Forall_app. split; [assumption | now repeat constructor].
  - (* a running call ends *)
    destruct (running p !! k) as [[id t]|] eqn:Ek; [|discriminate].
    destruct (convert_tif_to_kmz_task t (disk p)) as [w' r] eqn:Ec.
    injection Hstep as <-. constructor; cbn; try assumption.
    + pose proof (fmap_Permutation fst _ _ (delete_Permutation _ _ _ Ek)) as HR.
      rewrite HR in Hids. rewrite fmap_app. cbn. rewrite <- Hids. cbn.
      apply Permutation_app_head. apply perm_shift.
    + apply Forall_app. apply Forall_app in Htasks as [Hq Hr].
      split; [assumption | now apply Forall_delete].
    + rewrite <- app_assoc. apply Forall_app. apply Forall_app in Hres as [Hf Hy].
      split; [assumption|]. constructor; [|assumption].
      cbn. intros res ->.
      apply Forall_app in Htasks as [_ Hr].
      pose proof (Forall_lookup_1 _ _ _ _ Hr Ek) as Ht. cbn in Ht.
      destruct t as [tif_path kmz_path].
      apply convert_returns in Ec as (status & -> & Hst).
      exists kmz_path. split; assumption.
  - (* as_completed yields a finished future to the loop *)
    destruct (escaped p) eqn:Ee; [discriminate|].
    destruct (finished p !! k) as [[id r]|] eqn:Ek; [|discriminate].
    assert (Hperm : (queued p).*1 ++ (running p).*1 ++ (delete k (finished p)).*1
                    ++ (yielded p ++ [(id, r)]).*1 ≡ₚ seq 0 (length tasks)).
    { pose proof (fmap_Permutation fst _ _ (delete_Permutation _ _ _ Ek)) as HF.
      rewrite HF in Hids. rewrite fmap_app. cbn. rewrite <- Hids. cbn.
      do 2 apply Permutation_app_head.
      rewrite app_assoc. symmetry. apply Permutation_cons_append. }
    assert (Hres' : Forall (fun y : nat * outcome result =>
                              forall res, y.2 = Return res ->
                                exists kmz, tasks !! y.1 = Some (res.1, kmz) /\ ok_or_failed res.2)
                           (delete k (finished p) ++ yielded p ++ [(id, r)])).
    { apply Forall_app in Hres as [Hf Hy].
      apply Forall_app. split; [now apply Forall_delete|].
      apply Forall_app. split; [assumption|]. constructor; [|constructor].
      apply (Forall_lookup_1 _ _ _ _ Hf Ek). }
    destruct r as [[tif_path status]|e]; injection Hstep as <-;
      constructor; cbn; try assumption.
    + rewrite length_app. cbn. lia.
    + intros _. destruct (Hprint eq_refl) as [Hp Hr]. split.
      * rewrite imap_app, Hp. cbn. rewrite Nat.add_0_r, Hcount. reflexivity.
      * apply Forall_app. split; [assumption|]. now repeat constructor.
    + rewrite length_app. cbn. lia.
    + discriminate.
Qed.

Lemma pool_inv_exec (tasks : list task) (max_workers : nat) (sched : list action) :
  forall p p',
    pool_inv tasks p -> exec max_workers (length tasks) sched p = Some p' -> pool_inv tasks p'.
Proof.
  induction sched as [|a sched IH]; intros p p' Hinv Hexec; cbn [exec] in Hexec.
  - now injection Hexec as <-.
  - destruct (step max_workers (length tasks) a p) as [p1|] eqn:Es; [|discriminate].
    eapply IH; [|exact Hexec]. eapply pool_inv_step; eassumption.
Qed.

(** Every step does one unit of the work left. *)
Lemma step_steps_left (max_workers total : nat) (a : action) (p p' : pool) :
  step max_workers total a p = Some p' -> steps_left p = S (steps_left p').
Proof.
  unfold steps_left. destruct a as [|k|k]; cbn [step]; intros Hstep.
  - destruct (queued p) as [|x q]; [discriminate|].
    destruct (length (running p) <? max_workers)%nat; [|discriminate].
    injection Hstep as <-. cbn [queued running finished].
    rewrite length_app. change (length [x]) with 1%nat.
    change (length (x :: q)) with (S (length q)). lia.
  - destruct (running p !! k) as [[id t]|] eqn:Ek; [|discriminate].
    destruct (convert_tif_to_kmz_task t (disk p)) as [w' r].
    injection Hstep as <-. cbn [queued running finished].
    rewrite length_app, length_delete by eauto.
    apply lookup_lt_Some in Ek. change (length [(id, r)]) with 1%nat.
    unfold task, result in *. lia.
  - destruct (escaped p); [discriminate|].
    destruct (finished p !! k) as [[id r]|] eqn:Ek; [|discriminate].
    apply lookup_lt_Some in Ek as Hlt.
    destruct r as [[tif_path status]|e]; injection Hstep as <-;
      cbn [queued running finished]; rewrite length_delete by eauto;
      unfold task, result in *; lia.
Qed.

Lemma exec_steps_left (max_workers total : nat) (sched : list action) :
  forall p p',
    exec max_workers total sched p = Some p' ->
    steps_left p = (length sched + steps_left p')%nat.
Proof.
  induction sched as [|a sched IH]; intros p p' Hexec; cbn [exec] in Hexec.
  - now injection Hexec as <-.
  - destruct (step max_workers total a p) as [p1|] eqn:Es; [|discriminate].
    rewrite (step_steps_left _ _ _ _ _ Es), (IH _ _ Hexec). cbn. lia.
Qed.

Lemma steps_left_submit_all (tasks : list task) (w : world) :
  steps_left (submit_all tasks w) = (3 * length tasks)%nat.
Proof. unfold steps_left. cbn. rewrite length_imap. lia. Qed.

(** With at least one worker, a batch that is not settled can move on. *)
Lemma pool_progress (max_workers total : nat) (p : pool) :
  (1 <= max_workers)%nat -> settled p = false ->
  exists a p', step max_workers total a p = Some p'.
Proof.
  intros Hmw Hs. unfold settled in Hs.
  destruct (running p) as [|[id t] r] eqn:Er.
  - destruct (queued p) as [|x q] eqn:Eq.
    + cbn in Hs. apply orb_false_iff in Hs as [Hf He].
      apply bool_decide_eq_false in Hf, He.
      destruct (finished p) as [|[id [[tif_path status]|e]] f] eqn:Ef; [congruence| |];
        destruct (escaped p) eqn:Ee; try (exfalso; apply He; eauto; fail);
        exists (Yield 0); cbn [step]; rewrite Ee, Ef; cbn; eauto.
    + exists Start. cbn [step]. rewrite Eq, Er. cbn [length].
      destruct (Nat.ltb_spec 0 max_workers); [eauto | lia].
  - exists (Finish 0). cbn [step]. rewrite Er. cbn.
    destruct (convert_tif_to_kmz_task t (disk p)). eauto.
Qed.

(** What the loop has printed when the batch is settled and no exception
    has escaped: one line per task, numbered in the order yielded. *)
Lemma settled_report (tasks : list task) (p : pool) :
  pool_inv tasks p -> settled p = true -> escaped p = None ->
  length (printed p) = length tasks
  /\ (yielded p).*1 ≡ₚ seq 0 (length tasks)
  /\ forall n id,
       (yielded p).*1 !! n = Some id ->
       exists tif_path kmz_path status,
         tasks !! id = Some (tif_path, kmz_path)
         /\ printed p !! n = Some (report_line (S n) (length tasks) tif_path status)
         /\ ok_or_failed status.
Proof.
  intros [Hids Htasks Hres Hcount Hprint] Hs He.
  unfold settled in Hs. rewrite He in Hs.
  rewrite (bool_decide_eq_false_2 (is_Some None)) in Hs by (intros [? ?]; discriminate).
  rewrite orb_false_r in Hs.
  apply andb_true_iff in Hs as [Hs Hf]. apply andb_true_iff in Hs as [Hq Hr].
  apply bool_decide_eq_true in Hq, Hr, Hf.
  rewrite Hq, Hr, Hf in Hids. cbn in Hids.
  destruct (Hprint He) as [Hp Hret].
  split; [|split; [exact Hids|]].
  - rewrite Hp, length_imap, <- (length_fmap fst), Hids. apply length_seq.
  - intros n id Hn. rewrite list_lookup_fmap in Hn.
    destruct (yielded p !! n) as [[id' r]|] eqn:Ey; [|discriminate].
    cbn in Hn. injection Hn as ->.
    rewrite Hf in Hres. cbn in Hres.
    pose proof (Forall_lookup_1 _ _ _ _ Hres Ey) as Hres1.
    pose proof (Forall_lookup_1 _ _ _ _ Hret Ey) as Hret1.
    cbn in Hres1, Hret1. destruct r as [[tif_path status]|e]; [|contradiction].
    destruct (Hres1 _ eq_refl) as (kmz_path & Ht & Hst).
    exists tif_path, kmz_path, status. split; [exact Ht|]. split; [|exact Hst].
    rewrite Hp, list_lookup_imap, Ey. reflexivity.
Qed.

(** C1, amended. Take any list of work items, any pool of at least one
    worker and any scheduling of the batch. The batch settles after at most
    three steps per item, and as long as it is not settled it can move on.
    When it has settled and no exception has escaped from a worker call into
    the loop, the loop has printed exactly one line per work item: the
    futures were yielded in some order that is a permutation of the
    submitted ones, and the line at position [n] (from 0) reads
    [[n+1/total] <source path of that item>: <status>] with a status that is
    [OK] or [FAILED: <message>]. *)
Theorem batch_reports_every_item_once (tasks : list task) (max_workers : nat)
    (sched : list action) (w : world) (p : pool) :
  (1 <= max_workers)%nat ->
  exec max_workers (length tasks) sched (submit_all tasks w) = Some p ->
  (length sched <= 3 * length tasks)%nat
  /\ (settled p = false -> exists a p', step max_workers (length tasks) a p = Some p')
  /\ (settled p = true -> escaped p = None ->
      length (printed p) = length tasks
      /\ exists order,
           order ≡ₚ seq 0 (length tasks)
           /\ forall n id,
                order !! n = Some id ->
                exists tif_path kmz_path status,
                  tasks !! id = Some (tif_path, kmz_path)
                  /\ printed p !! n
                     = Some ("[" +:+ str_of_nat (S n) +:+ "/" +:+ str_of_nat (length tasks)
                             +:+ "] " +:+ tif_path +:+ ": " +:+ status)
                  /\ (status = "OK" \/ exists e, status = "FAILED: " +:+ exn_str e)).
Proof.
  intros Hmw Hexec. split; [|split].
  - pose proof (exec_steps_left _ _ _ _ _ Hexec) as Hm.
    rewrite steps_left_submit_all in Hm. lia.
  - now apply pool_progress.
  - intros Hs He.
    pose proof (pool_inv_exec _ _ _ _ _ (pool_inv_submit_all tasks w) Hexec) as Hinv.
    destruct (settled_report tasks p Hinv Hs He) as (Hlen & Hperm & Hlines).
    split; [exact Hlen|]. exists (yielded p).*1. split; [exact Hperm | exact Hlines].
Qed.

(** When every call returns, nothing escapes into the loop. *)
Lemma no_escape_exec (max_workers total : nat) (sched : list action) :
  (forall args w0, returned (convert_tif_to_kmz_task args w0).2) ->
  forall p p',
    escaped p = None -> Forall (fun y => returned y.2) (finished p) ->
    exec max_workers total sched p = Some p' ->
    escaped p' = None /\ Forall (fun y => returned y.2) (finished p').
Proof.
  intros Hret. induction sched as [|a sched IH]; intros p p' He Hf Hexec; cbn [exec] in Hexec.
  - injection Hexec as <-. auto.
  - destruct (step max_workers total a p) as [p1|] eqn:Es; [|discriminate].
    apply (IH p1 p'); [| |exact Hexec]; destruct a as [|k|k]; cbn [step] in Es.
    + destruct (queued p); [discriminate|].
      destruct (length (running p) <? max_workers)%nat; [|discriminate].
      now injection Es as <-.
    + destruct (running p !! k) as [[id t]|]; [|discriminate].
      destruct (convert_tif_to_kmz_task t (disk p)).
      now injection Es as <-.
    + rewrite He in Es.
      destruct (finished p !! k) as [[id [[tif_path status]|e]]|] eqn:Ek; [| |discriminate].
      * now injection Es as <-.
      * pose proof (Forall_lookup_1 _ _ _ _ Hf Ek) as Hr. contradiction.
    + destruct (queued p); [discriminate|].
      destruct (length (running p) <? max_workers)%nat; [|discriminate].
      now injection Es as <-.
    + destruct (running p !! k) as [[id t]|]; [|discriminate].
      pose proof (Hret t (disk p)) as Hr.
      destruct (convert_tif_to_kmz_task t (disk p)) as [w' r].
      injection Es as <-. cbn. apply Forall_app. split; [assumption|].
      now repeat constructor.
    + rewrite He in Es.
      destruct (finished p !! k) as [[id [[tif_path status]|e]]|] eqn:Ek; [| |discriminate].
      * injection Es as <-. cbn. now apply Forall_delete.
      * injection Es as <-. cbn. now apply Forall_delete.
Qed.

(** An exception that has escaped into the loop is that of a future the
    loop has been handed. *)
Lemma escaped_was_yielded_step (max_workers total : nat) (a : action) (p p' : pool) :
  (forall e, escaped p = Some e -> exists id, (id, Raise e) ∈ yielded p) ->
  step max_workers total a p = Some p' ->
  forall e, escaped p' = Some e -> exists id, (id, Raise e) ∈ yielded p'.
Proof.
  intros Hinv Hstep. destruct a as [|k|k]; cbn [step] in Hstep.
  - destruct (queued p); [discriminate|].
    destruct (length (running p) <? max_workers)%nat; [|discriminate].
    now injection Hstep as <-.
  - destruct (running p !! k) as [[id t]|]; [|discriminate].
    destruct (convert_tif_to_kmz_task t (disk p)).
    now injection Hstep as <-.
  - destruct (escaped p); [discriminate|].
    destruct (finished p !! k) as [[id [[tif_path status]|e0]]|]; [| |discriminate];
      injection Hstep as <-; cbn [escaped yielded]; [discriminate|].
    intros e [= <-]. exists id. apply elem_of_app. right. apply list_elem_of_here.
Qed.

Lemma escaped_was_yielded (max_workers total : nat) (sched : list action) :
  forall p p',
    (forall e, escaped p = Some e -> exists id, (id, Raise e) ∈ yielded p) ->
    exec max_workers total sched p = Some p' ->
    forall e, escaped p' = Some e -> exists id, (id, Raise e) ∈ yielded p'.
Proof.
  induction sched as [|a sched IH]; intros p p' Hinv Hexec; cbn [exec] in Hexec.
  - now injection Hexec as <-.
  - destruct (step max_workers total a p) as [p1|] eqn:Es; [|discriminate].
    eapply IH; [|exact Hexec]. eapply escaped_was_yielded_step; eassumption.
Qed.

(** C2, amended. An exception raised in one of the steps 1 to 5 stays with
    its item: with the temporary directory made, the call hands back the
    status [FAILED: <message>] for that item. In a batch in which every
    call that has ended has handed back a result, no exception has reached
    the reporting loop, under any scheduling, and once settled the batch
    has reported every item. A future that holds an exception instead of a
    result, for whatever reason its call ended so, is caught nowhere: when
    it is handed to the loop, [future.result()] re-raises the exception,
    no line is printed for it, and the loop is not handed another future. *)
Theorem stage_faults_stay_with_their_item (tasks : list task) (max_workers : nat)
    (sched : list action) (w : world) (p : pool) :
  exec max_workers (length tasks) sched (submit_all tasks w) = Some p ->
  (forall tif_path kmz_path w0 w1 tmpdir k e w2,
      TemporaryDirectory w0 = (w1, Return tmpdir) ->
      raises_in_stage tif_path kmz_path
        (join tmpdir ((splitext (basename tif_path)).1 +:+ ".png")) (join tmpdir "doc.kml")
        w1 k e w2 ->
      (convert_tif_to_kmz_task (tif_path, kmz_path) w0).2
      = Return (tif_path, "FAILED: " +:+ exn_str e))
  /\ (Forall (fun y => returned y.2) (finished p ++ yielded p) ->
      escaped p = None
      /\ (settled p = true -> length (printed p) = length tasks))
  /\ (forall (q q' : pool) k id e,
         escaped q = None -> finished q !! k = Some (id, Raise e) ->
         step max_workers (length tasks) (Yield k) q = Some q' ->
         escaped q' = Some e /\ printed q' = printed q
         /\ forall k', step max_workers (length tasks) (Yield k') q' = None).
Proof.
  intros Hexec. split; [|split].
  - intros tif_path kmz_path w0 w1 tmpdir k e w2 Ht Hk.
    apply raises_in_stage_pipeline in Hk.
    now rewrite (convert_unfold _ _ _ _ _ _ _ Ht Hk).
  - intros Hret. apply Forall_app in Hret as [_ Hy].
    assert (He : escaped p = None).
    { destruct (escaped p) as [e|] eqn:Ee; [|reflexivity].
      destruct (escaped_was_yielded max_workers (length tasks) sched
                  (submit_all tasks w) p (fun e0 (H0 : None = Some e0) =>
                                            ltac:(discriminate H0)) Hexec e Ee)
        as [id Hin].
      rewrite Forall_forall in Hy. now apply Hy in Hin. }
    split; [exact He|]. intros Hs.
    pose proof (pool_inv_exec _ _ _ _ _ (pool_inv_submit_all tasks w) Hexec) as Hinv.
    now destruct (settled_report tasks p Hinv Hs He) as [Hlen _].
  - intros q q' k id e He Hk Hstep. cbn [step] in Hstep. rewrite He in Hstep.
    unfold result in *. rewrite Hk in Hstep.
    injection Hstep as <-. cbn [escaped printed]. repeat split.
Qed.

Lemma default_workers_positive (cpu_count : nat) : (1 <= default_workers cpu_count)%nat.
Proof. unfold default_workers. destruct cpu_count; cbn; lia. Qed.

(** C8. With an argument count other than two the program prints the usage
    line and exits with status 1. With two arguments, once the walker has
    returned the items and the batch has settled without an exception
    escaping into the loop, it exits with status 0 after the lines of the
    items, whatever their statuses: [OK] or [FAILED]. *)
Theorem exit_status_of_main (argv0 : string) (args : list string) (t : tree)
    (cpu_count : nat) (sched : list action) (w : world) :
  (length args <> 2%nat ->
   main argv0 args t cpu_count sched w
   = Some {| stdout := ["Usage: python " +:+ argv0 +:+ " input_root_folder output_root_folder"];
             exit_status := 1; left := w |})
  /\ (forall root_in root_out w1 tasks p,
         args = [root_in; root_out] ->
         gather_tif_tasks root_in root_out t w = (w1, Return tasks) ->
         exec (default_workers cpu_count) (length tasks) sched (submit_all tasks w1) = Some p ->
         settled p = true -> escaped p = None ->
         main argv0 args t cpu_count sched w
         = Some {| stdout := found (length tasks) :: printed p;
                   exit_status := 0; left := disk p |}).
Proof.
  split.
  - intros Hlen. unfold main, usage.
    destruct args as [|a [|b [|c args]]]; try reflexivity. now contradiction Hlen.
  - intros root_in root_out w1 tasks p -> Hg Hexec Hs He.
    unfold main. now rewrite Hg, Hexec, Hs, He.
Qed.

End Pool.

Lemma batch_reports_every_item_once_witness :
  exists p,
    @exec demo 2 2 sample_sched (submit_all sample_tasks sample_world) = Some p
    /\ length (printed p) = 2%nat
    /\ printed p = ["[1/2] in/bad.tif: FAILED: Unable to open input GeoTIFF: in/bad.tif";
                    "[2/2] in/a.tif: OK"].
Proof.
  destruct (@exec demo 2 2 sample_sched (submit_all sample_tasks sample_world))
    as [p|] eqn:Hexec; [|vm_compute in Hexec; discriminate].
  exists p. split; [reflexivity|].
  assert (Hp : settled p = true /\ escaped p = None
               /\ printed p = ["[1/2] in/bad.tif: FAILED: Unable to open input GeoTIFF: in/bad.tif";
                               "[2/2] in/a.tif: OK"]).
  { vm_compute in Hexec. injection Hexec as <-. repeat split; reflexivity. }
  destruct Hp as (Hs & He & Hlines). split; [|exact Hlines].
  assert (Hmw : (1 <= 2)%nat) by lia.
  exact (proj1 (proj2 (proj2 (@batch_reports_every_item_once demo sample_tasks 2
                                sample_sched sample_world p Hmw Hexec)) Hs He)).
Defined.

(** C1 as stated fails when a worker call raises outside its [try]: on a host
    without a usable temporary directory two items are found and run, the
    first future yielded re-raises in [future.result()], and the loop ends
    without a single result line. *)
Lemma batch_without_tmpdir_counterexample :
  exists p,
    @exec no_tmp 2 (length sample_tasks) [Start; Start; Finish 0; Finish 0; Yield 0]
      (submit_all sample_tasks sample_world) = Some p
    /\ settled p = true
    /\ length sample_tasks = 2%nat
    /\ length (printed p) = 0%nat
    /\ option_map stdout
         (@main no_tmp "geotiff_to_kmz.py" ["in"; "out"] sample_tree 2
            [Start; Start; Finish 0; Finish 0; Yield 0] sample_world)
       = Some ["[+] Found 2 GeoTIFF files to process."].
Proof. eexists. vm_compute. repeat split; reflexivity. Qed.

Lemma stage_faults_stay_with_their_item_witness :
  exists p,
    @exec demo 2 2 sample_sched (submit_all sample_tasks sample_world) = Some p
    /\ escaped p = None /\ length (printed p) = 2%nat.
Proof.
  destruct (@exec demo 2 2 sample_sched (submit_all sample_tasks sample_world))
    as [p|] eqn:Hexec; [|vm_compute in Hexec; discriminate].
  exists p. split; [reflexivity|].
  assert (Hp : Forall (fun y : nat * outcome result => returned y.2) (finished p ++ yielded p)
               /\ settled p = true).
  { vm_compute in Hexec. injection Hexec as <-. split; [|reflexivity].
    repeat constructor. }
  destruct Hp as [Hret Hs].
  destruct (proj1 (proj2 (@stage_faults_stay_with_their_item demo sample_tasks 2
                            sample_sched sample_world p Hexec)) Hret) as [He Hlen].
  split; [exact He | now apply Hlen].
Defined.

(** C2 as stated fails for a fault outside the [try]: when the temporary
    directory cannot be made the call raises instead of returning a Failure
    result, [future.result()] re-raises it in the main process, the loop
    ends and the program exits with status 1. *)
Lemma fault_outside_try_counterexample :
  (@convert_tif_to_kmz_task no_tmp ("in/a.tif", "out/./a.kmz") sample_world).2
  = Raise (Exn "FileNotFoundError" "[Errno 2] No usable temporary directory found")
  /\ exists p,
       @exec no_tmp 1 1 [Start; Finish 0; Yield 0]
         (submit_all [("in/a.tif", "out/./a.kmz")] sample_world) = Some p
       /\ escaped p
          = Some (Exn "FileNotFoundError" "[Errno 2] No usable temporary directory found")
       /\ printed p = []
       /\ option_map exit_status
            (@main no_tmp "geotiff_to_kmz.py" ["in"; "out"] (Dir "in" [] ["a.tif"]) 1
               [Start; Finish 0; Yield 0] sample_world)
          = Some 1.
Proof. split; [reflexivity|]. eexists. vm_compute. repeat split; reflexivity. Qed.

Lemma exit_status_of_main_witness :
  option_map (fun r => (stdout r, exit_status r))
    (@main demo "geotiff_to_kmz.py" ["in"; "out"] sample_tree 2 sample_sched sample_world)
  = Some (["[+] Found 2 GeoTIFF files to process.";
           "[1/2] in/bad.tif: FAILED: Unable to open input GeoTIFF: in/bad.tif";
           "[2/2] in/a.tif: OK"], 0)
  /\ option_map (fun r => (stdout r, exit_status r))
       (@main demo "geotiff_to_kmz.py" ["in"] sample_tree 2 sample_sched sample_world)
     = Some (["Usage: python geotiff_to_kmz.py input_root_folder output_root_folder"], 1).
Proof.
  split.
  - destruct (@gather_tif_tasks "in" "out" sample_tree sample_world) as [w1 [tasks|e]] eqn:Hg;
      [|vm_compute in Hg; discriminate].
    assert (Htasks : tasks = sample_tasks) by (vm_compute in Hg; now injection Hg as _ <-).
    subst tasks.
    destruct (@exec demo (default_workers 2) (length sample_tasks) sample_sched
                (submit_all sample_tasks w1)) as [p|] eqn:Hexec;
      [|vm_compute in Hg; injection Hg as <-; vm_compute in Hexec; discriminate].
    assert (Hp : settled p = true /\ escaped p = None
                 /\ printed p = ["[1/2] in/bad.tif: FAILED: Unable to open input GeoTIFF: in/bad.tif";
                                 "[2/2] in/a.tif: OK"]).
    { vm_compute in Hg. injection Hg as <-. vm_compute in Hexec. injection Hexec as <-.
      repeat split; reflexivity. }
    destruct Hp as (Hs & He & Hlines).
    rewrite (proj2 (@exit_status_of_main demo "geotiff_to_kmz.py" ["in"; "out"] sample_tree 2
                      sample_sched sample_world)
               "in" "out" w1 sample_tasks p eq_refl Hg Hexec Hs He).
    cbn [option_map stdout exit_status]. now rewrite Hlines.
  - rewrite (proj1 (@exit_status_of_main demo "geotiff_to_kmz.py" ["in"] sample_tree 2
                      sample_sched sample_world)) by (cbn; lia).
    reflexivity.
Defined.

(** ** Further properties of the script *)

(** The sidecar cleanup returns normally in every world, changes neither the
    directories nor the permissions, and leaves every file other than the
    two sidecar paths as it was. *)
Theorem cleanup_never_raises `{Collaborators} (tif_path : string) (w : world) :
  exists w',
    cleanup_aux_xml tif_path w = (w', Return tt)
    /\ dirs w' = dirs w /\ locked w' = locked w
    /\ forall q,
         q <> tif_path +:+ ".aux.xml" ->
         q <> slice_to tif_path (-4) +:+ ".tiff.aux.xml" ->
         files w' !! q = files w !! q.
Proof.
  destruct (cleanup_aux_xml_spec tif_path w) as (w' & Hc & Hd & Hl & _ & Hf).
  exists w'. auto.
Qed.

(** The destination name the walker gives a raster: the suffix [.tif] or
    [.tiff], in any case, is replaced by [.kmz]; a name with nothing but dots
    before the suffix gets [.kmz] appended instead. *)
Theorem destination_name_of_raster (fname : string) :
  proper_name fname = true -> is_tif fname = true ->
  kmz_name_of fname
  = if only_dots (raster_stem fname) then fname +:+ ".kmz" else raster_stem fname +:+ ".kmz".
Proof. apply kmz_name_of_raster. Qed.

Lemma destination_name_of_raster_witness :
  kmz_name_of "scene.v2.TIFF" = "scene.v2.kmz" /\ kmz_name_of "..tif" = "..tif.kmz".
Proof.
  split.
  - rewrite (destination_name_of_raster "scene.v2.TIFF") by reflexivity. reflexivity.
  - rewrite (destination_name_of_raster "..tif") by reflexivity. reflexivity.
Defined.

(** A call of the converter that returns hands back the source path of its
    item together with [OK] or [FAILED: <message>]. *)
Theorem worker_result_shape `{Collaborators} (tif_path kmz_path : string) (w w' : world)
    (res : string * string) :
  convert_tif_to_kmz_task (tif_path, kmz_path) w = (w', Return res) ->
  res.1 = tif_path
  /\ (res.2 = "OK" \/ exists e, res.2 = "FAILED: " +:+ exn_str e).
Proof.
  intros Hc. destruct (convert_returns _ _ _ _ _ Hc) as (status & -> & Hst).
  split; [reflexivity | exact Hst].
Qed.

Lemma worker_result_shape_witness :
  (@convert_tif_to_kmz_task demo ("in/a.tif", "out/./a.kmz") sample_world).2
  = Return ("in/a.tif", "OK")
  /\ ("in/a.tif", "OK").1 = "in/a.tif".
Proof.
  destruct (@convert_tif_to_kmz_task demo ("in/a.tif", "out/./a.kmz") sample_world)
    as [w' r] eqn:Hc.
  assert (Hr : r = Return ("in/a.tif", "OK")) by (vm_compute in Hc; now injection Hc as _ <-).
  subst r. split; [reflexivity|].
  exact (proj1 (@worker_result_shape demo "in/a.tif" "out/./a.kmz" sample_world w' _ Hc)).
Defined.

(** ** The bounds of a raster that is not transformed *)

Lemma SFltb_irrefl (x : spec_float) : SFltb x x = false.
Proof.
  unfold SFltb. destruct x as [s|s| |s m e]; cbn; try reflexivity.
  - now destruct s.
  - destruct s; rewrite Z.compare_refl, Pos.compare_cont_refl; reflexivity.
Qed.

Lemma SFltb_asym (x y : spec_float) : SFltb x y = true -> SFltb y x = false.
Proof.
  unfold SFltb.
  destruct x as [s1|s1| |s1 m1 e1], y as [s2|s2| |s2 m2 e2]; cbn;
    try destruct s1; try destruct s2; try discriminate; try reflexivity.
  - rewrite (Z.compare_antisym e1 e2).
    destruct (e1 ?= e2)%Z; cbn; try discriminate; try reflexivity.
    change (Pos.compare_cont Eq m2 m1) with (m2 ?= m1)%positive.
    change (Pos.compare_cont Eq m1 m2) with (m1 ?= m2)%positive.
    rewrite (Pos.compare_antisym m1 m2).
    destruct (m1 ?= m2)%positive; cbn; try discriminate; reflexivity.
  - rewrite (Z.compare_antisym e1 e2).
    destruct (e1 ?= e2)%Z; cbn; try discriminate; try reflexivity.
    change (Pos.compare_cont Eq m2 m1) with (m2 ?= m1)%positive.
    change (Pos.compare_cont Eq m1 m2) with (m1 ?= m2)%positive.
    rewrite (Pos.compare_antisym m1 m2).
    destruct (m1 ?= m2)%positive; cbn; try discriminate; reflexivity.
Qed.

Lemma ltb_irrefl (x : float) : PrimFloat.ltb x x = false.
Proof. rewrite FloatAxioms.ltb_spec. apply SFltb_irrefl. Qed.

Lemma ltb_asym (x y : float) : PrimFloat.ltb x y = true -> PrimFloat.ltb y x = false.
Proof. rewrite !FloatAxioms.ltb_spec. apply SFltb_asym. Qed.

(** [max] and [min] over the ordinates [t, t, b, b] and the abscissas
    [l, r, l, r] of the four corners. *)
Lemma py_max_ttbb (t b : float) : py_max [t; t; b; b] = Return (larger t b).
Proof.
  unfold py_max, larger. cbn [fold_left]. rewrite ltb_irrefl.
  destruct (PrimFloat.ltb t b) eqn:E; [now rewrite ltb_irrefl | now rewrite E].
Qed.

Lemma py_min_ttbb (t b : float) : py_min [t; t; b; b] = Return (smaller t b).
Proof.
  unfold py_min, smaller. cbn [fold_left]. rewrite ltb_irrefl.
  destruct (PrimFloat.ltb b t) eqn:E; [now rewrite ltb_irrefl | now rewrite E].
Qed.

Lemma py_max_lrlr (l r : float) : py_max [l; r; l; r] = Return (larger l r).
Proof.
  unfold py_max, larger. cbn [fold_left].
  destruct (PrimFloat.ltb l r) eqn:E.
  - now rewrite (ltb_asym _ _ E), ltb_irrefl.
  - now rewrite ltb_irrefl, E.
Qed.

Lemma py_min_lrlr (l r : float) : py_min [l; r; l; r] = Return (smaller l r).
Proof.
  unfold py_min, smaller. cbn [fold_left].
  destruct (PrimFloat.ltb r l) eqn:E.
  - now rewrite (ltb_asym _ _ E), ltb_irrefl.
  - now rewrite ltb_irrefl, E.
Qed.

Section MoreBounds.
Context `{Collaborators}.

Lemma epsg_of_not_3857 (srs : SpatialReference) :
  IsProjected srs = false \/ GetAuthorityCode srs <> Return (Some "3857") ->
  epsg_of srs <> Some "3857".
Proof.
  unfold epsg_of. intros [-> | Hc]; [discriminate|].
  destruct (IsProjected srs); [|discriminate].
  destruct (GetAuthorityCode srs) as [code|e]; [|discriminate].
  intros ->. now apply Hc.
Qed.

(** Every raster but a projected one whose authority code is read as
    [3857] goes through the second branch: a geographic raster, a projected
    one with another code or none, and one whose authority lookup raises
    (the bare [except] turns that into [None]). Its corners are taken as
    they are, [y] as latitude and [x] as longitude, so a raster in metres
    gets metres for degrees. The box is then decided by the two edges on
    each axis: north and south are the larger and the smaller of [gt[3]] and
    [gt[3] + rows * gt[5]], east and west those of [gt[0]] and
    [gt[0] + cols * gt[1]]. The rotation terms [gt[2]] and [gt[4]] never
    enter, and nothing is raised. *)
Theorem untransformed_bounds_closed_form (tiff_path : string) (w : world) (ds : Dataset) :
  gdal_Open tiff_path w = Some ds ->
  IsProjected (GetProjection ds) = false
    \/ GetAuthorityCode (GetProjection ds) <> Return (Some "3857") ->
  let gt := GetGeoTransform ds in
  let top := gt3 gt in
  let bottom := (gt3 gt + float_of_int (RasterYSize ds) * gt5 gt)%float in
  let left_edge := gt0 gt in
  let right_edge := (gt0 gt + float_of_int (RasterXSize ds) * gt1 gt)%float in
  get_geotiff_bounds tiff_path w
  = (w, Return (larger top bottom, smaller top bottom,
                larger left_edge right_edge, smaller left_edge right_edge)).
Proof.
  intros Hopen Hsrs gt top bottom left_edge right_edge.
  unfold get_geotiff_bounds. rewrite Hopen. f_equal.
  unfold latlons_of. rewrite bool_decide_eq_false_2 by now apply epsg_of_not_3857.
  unfold corners, bounds_of. cbn [map fst snd].
  fold gt. fold top bottom left_edge right_edge.
  rewrite py_max_ttbb, py_min_ttbb, py_max_lrlr, py_min_lrlr. reflexivity.
Qed.

End MoreBounds.

Lemma untransformed_bounds_closed_form_witness :
  @get_geotiff_bounds utm_demo "u.tif" (world_of [("u.tif", Regular "II*")])
  = (world_of [("u.tif", Regular "II*")],
     Return (4649776, 4646776, 503000, 500000)%float).
Proof.
  assert (Hopen : @gdal_Open utm_demo "u.tif" (world_of [("u.tif", Regular "II*")])
                  = Some utm_raster) by reflexivity.
  assert (Hsrs : IsProjected (GetProjection utm_raster) = false
                 \/ GetAuthorityCode (GetProjection utm_raster) <> Return (Some "3857"))
    by (right; discriminate).
  rewrite (@untransformed_bounds_closed_form utm_demo "u.tif" _ utm_raster Hopen Hsrs).
  reflexivity.
Defined.

(** ** The overlay document and the bundle, written and written again *)

Lemma set_files_insert_twice (k : string) (a b : file) (w : world) :
  set_files <[k := a]> (set_files <[k := b]> w) = set_files <[k := a]> w.
Proof. unfold set_files; cbn. now rewrite insert_insert_eq. Qed.

Section Rewriting.
Context `{Collaborators}.


(** What [create_kmz] leaves when it returns, as one update of the disk. *)
Lemma create_kmz_result (kml_path image_path kmz_path : string) (w w' : world) :
  kml_path <> kmz_path -> image_path <> kmz_path ->
  create_kmz kml_path image_path kmz_path w = (w', Return tt) ->
  exists overlay image,
    files w !! kml_path = Some overlay /\ files w !! image_path = Some image
    /\ (kmz_path ∉ locked w) /\ (kmz_path ∉ dirs w)
    /\ w' = set_files <[kmz_path := Zip [Entry "doc.kml" ZIP_DEFLATED overlay;
                                         Entry (basename image_path) ZIP_DEFLATED image]]> w.
Proof.
  intros Hk Hi. unfold create_kmz, bindM, ZipFile_w.
  case_bool_decide as Hl; [discriminate|]. case_bool_decide as Hd; [discriminate|].
  unfold ZipFile_write at 1. cbn [files set_files].
  rewrite lookup_insert_ne by congruence.
  destruct (files w !! kml_path) as [overlay|] eqn:E1; [|discriminate].
  rewrite lookup_insert_eq. cbn [entries_of app].
  unfold ZipFile_write. cbn [files set_files].
  rewrite !lookup_insert_ne by congruence.
  destruct (files w !! image_path) as [image|] eqn:E2; [|discriminate].
  rewrite lookup_insert_eq. cbn [entries_of app].
  intros [= <-]. exists overlay, image. repeat split; try assumption.
  unfold set_files; cbn. now rewrite !insert_insert_eq.
Qed.


(** Bundling again over a bundle replaces it: the archive is opened in mode
    [w], so the entries of an earlier run are dropped, not added to. A second
    call with the same overlay and image leaves the disk exactly as the first
    one did. *)
Theorem rebundling_replaces_the_archive (kml_path image_path kmz_path : string)
    (w w' : world) :
  kml_path <> kmz_path -> image_path <> kmz_path ->
  create_kmz kml_path image_path kmz_path w = (w', Return tt) ->
  create_kmz kml_path image_path kmz_path w' = (w', Return tt)
  /\ exists overlay image,
       entries_of (files w' !! kmz_path)
       = [Entry "doc.kml" ZIP_DEFLATED overlay;
          Entry (basename image_path) ZIP_DEFLATED image].
Proof.
  intros Hk Hi Hc.
  destruct (create_kmz_result _ _ _ _ _ Hk Hi Hc)
    as (overlay & image & Hkml & Himg & Hl & Hd & ->).
  split.
  - destruct (create_kmz_returns kml_path image_path kmz_path
                (set_files <[kmz_path := Zip [Entry "doc.kml" ZIP_DEFLATED overlay;
                                              Entry (basename image_path) ZIP_DEFLATED image]]> w))
      as [w2 Hc2]; try assumption.
    + cbn [files set_files]. rewrite lookup_insert_ne by congruence. eauto.
    + cbn [files set_files]. rewrite lookup_insert_ne by congruence. eauto.
    + rewrite Hc2. f_equal.
      destruct (create_kmz_result _ _ _ _ _ Hk Hi Hc2)
        as (overlay' & image' & Hkml' & Himg' & _ & _ & ->).
      cbn [files set_files] in Hkml', Himg'.
      rewrite lookup_insert_ne in Hkml', Himg' by congruence.
      rewrite Hkml in Hkml'. rewrite Himg in Himg'.
      injection Hkml' as <-. injection Himg' as <-.
      apply set_files_insert_twice.
  - exists overlay, image. cbn [files set_files]. now rewrite lookup_insert_eq.
Qed.

End Rewriting.


Lemma rebundling_replaces_the_archive_witness :
  let w := world_of [("t/doc.kml", Regular "<kml/>"); ("t/a.png", Regular "PNG8");
                     ("out/a.kmz", Zip [Entry "old.txt" ZIP_STORED (Regular "old")])] in
  exists w',
    @create_kmz "t/doc.kml" "t/a.png" "out/a.kmz" w = (w', Return tt)
    /\ @create_kmz "t/doc.kml" "t/a.png" "out/a.kmz" w' = (w', Return tt).
Proof.
  intros w.
  destruct (@create_kmz "t/doc.kml" "t/a.png" "out/a.kmz" w) as [w' r] eqn:Hc.
  assert (Hr : r = Return tt) by (vm_compute in Hc; now injection Hc as _ <-).
  subst r. exists w'. split; [reflexivity|].
  assert (Hk : "t/doc.kml" <> "out/a.kmz") by discriminate.
  assert (Hi : "t/a.png" <> "out/a.kmz") by discriminate.
  exact (proj1 (rebundling_replaces_the_archive _ _ _ w w' Hk Hi Hc)).
Defined.

(** ** The sidecar cleanup, its effect *)

(** Removing a path if it exists, with the failure swallowed, is one update
    of the disk: the path is deleted unless it may not be removed. *)
Lemma remove_if_exists_eq (p : string) (w : world) :
  remove_if_exists p w
  = (if bool_decide (p ∈ locked w) then w else set_files (delete p) w, Return tt).
Proof.
  assert (Hid : files w !! p = None -> set_files (delete p) w = w).
  { intros Hf. destruct w as [fs ds ls wd]. unfold set_files; cbn in *.
    now rewrite delete_id. }
  unfold remove_if_exists, os_path_exists, try_except_pass, os_remove.
  destruct (files w !! p) as [f|] eqn:Ef.
  - rewrite (bool_decide_eq_true_2 (is_Some (Some f))) by eauto. cbn [orb].
    now case_bool_decide.
  - rewrite (bool_decide_eq_false_2 (is_Some None)) by (intros [? ?]; discriminate).
    cbn [orb]. rewrite Hid by reflexivity.
    destruct (bool_decide (p ∈ dirs w)), (bool_decide (p ∈ locked w)); reflexivity.
Qed.

(** The two sidecar paths differ from the raster's own path and from each other. *)
Lemma sidecars_apart (tif_path : string) :
  tif_path <> tif_path +:+ ".aux.xml"
  /\ tif_path <> slice_to tif_path (-4) +:+ ".tiff.aux.xml"
  /\ (4 <= len tif_path ->
      tif_path +:+ ".aux.xml" <> slice_to tif_path (-4) +:+ ".tiff.aux.xml").
Proof.
  assert (Hupper : 4 <= len tif_path -> len (slice_to tif_path (-4)) = len tif_path - 4).
  { intros H4. assert (H04 : 0 < 4 <= len tif_path) by lia.
    destruct (split_suffix tif_path 4 H04) as (stem & e & Hf & He & Hst).
    change (- (4)) with (-4) in Hst.
    rewrite Hst. apply (f_equal len) in Hf. rewrite len_app in Hf. lia. }
  pose proof (len_nonneg (slice_to tif_path (-4))) as Hn.
  assert (Hs : len tif_path - 4 <= len (slice_to tif_path (-4))).
  { destruct (Z.le_gt_cases 4 (len tif_path)) as [H4|H4]; [rewrite Hupper by assumption|]; lia. }
  repeat split.
  - intros Heq. apply (f_equal len) in Heq. rewrite len_app in Heq.
    change (len ".aux.xml") with 8 in Heq. lia.
  - intros Heq. apply (f_equal len) in Heq. rewrite len_app in Heq.
    change (len ".tiff.aux.xml") with 13 in Heq. lia.
  - intros H4 Heq. apply (f_equal len) in Heq. rewrite !len_app in Heq.
    change (len ".aux.xml") with 8 in Heq. change (len ".tiff.aux.xml") with 13 in Heq.
    rewrite (Hupper H4) in Heq. lia.
Qed.

Lemma endswith_len (s p : string) : endswith s p = true -> len p <= len s.
Proof. unfold endswith. intros [Hle _]%andb_true_iff. now apply Z.leb_le. Qed.

Section Cleanup.
Context `{Collaborators}.

(** After the cleanup, a sidecar that may be removed is gone: the file
    [<tif>.aux.xml] always, and [<tif minus 4 characters>.tiff.aux.xml] when
    the raster's path ends in [.tif] whatever the case. For a path that does
    not end so (a [.tiff] raster, say) the second name is not looked at: every
    file but [<tif>.aux.xml] stays. The raster itself is never removed. *)
Theorem cleanup_removes_unlocked_sidecars (tif_path : string) (w : world) :
  let aux_xml := tif_path +:+ ".aux.xml" in
  let alt_aux_xml := slice_to tif_path (-4) +:+ ".tiff.aux.xml" in
  let w' := (cleanup_aux_xml tif_path w).1 in
  (aux_xml ∉ locked w -> files w' !! aux_xml = None)
  /\ (endswith (lower tif_path) ".tif" = true -> alt_aux_xml ∉ locked w ->
      files w' !! alt_aux_xml = None)
  /\ (endswith (lower tif_path) ".tif" = false ->
      forall q, q <> aux_xml -> files w' !! q = files w !! q)
  /\ files w' !! tif_path = files w !! tif_path.
Proof.
  intros aux_xml alt_aux_xml w'.
  destruct (sidecars_apart tif_path) as (Ht1 & Ht2 & Hapart).
  subst w'. unfold cleanup_aux_xml, bindM. fold aux_xml alt_aux_xml.
  rewrite remove_if_exists_eq.
  set (w1 := if bool_decide (aux_xml ∈ locked w) then w else set_files (delete aux_xml) w).
  assert (Hl1 : locked w1 = locked w) by (subst w1; now case_bool_decide).
  assert (Hf1 : forall q, q <> aux_xml -> files w1 !! q = files w !! q).
  { intros q Hq. subst w1. case_bool_decide; [reflexivity|].
    cbn [files set_files]. now apply lookup_delete_ne. }
  assert (Hg1 : aux_xml ∉ locked w -> files w1 !! aux_xml = None).
  { intros Hl. subst w1. rewrite bool_decide_eq_false_2 by assumption.
    cbn [files set_files]. apply lookup_delete_eq. }
  destruct (endswith (lower tif_path) ".tif") eqn:Etif.
  - rewrite remove_if_exists_eq. rewrite Hl1. cbn [fst].
    assert (H4 : 4 <= len tif_path).
    { apply endswith_len in Etif. rewrite len_lower in Etif. exact Etif. }
    specialize (Hapart H4).
    split; [|split; [|split]].
    + intros Hl. case_bool_decide; [now apply Hg1|].
      cbn [files set_files]. rewrite lookup_delete_ne by (unfold aux_xml, alt_aux_xml; congruence). now apply Hg1.
    + intros _ Hl. rewrite bool_decide_eq_false_2 by assumption.
      cbn [files set_files]. apply lookup_delete_eq.
    + discriminate.
    + case_bool_decide; [now apply Hf1|].
      cbn [files set_files]. rewrite lookup_delete_ne by (unfold aux_xml, alt_aux_xml; congruence). now apply Hf1.
  - unfold ret. cbn [fst]. split; [exact Hg1|]. split; [discriminate|].
    split; [intros _; exact Hf1 | now apply Hf1].
Qed.

(** Cleaning up twice is cleaning up once: the second run finds the disk as
    the first one left it and leaves it so. *)
Theorem cleanup_twice_is_cleanup_once (tif_path : string) (w : world) :
  cleanup_aux_xml tif_path (cleanup_aux_xml tif_path w).1
  = ((cleanup_aux_xml tif_path w).1, Return tt).
Proof.
  unfold cleanup_aux_xml, bindM. rewrite !remove_if_exists_eq.
  destruct (endswith (lower tif_path) ".tif"); unfold ret;
    rewrite ?remove_if_exists_eq; cbn [fst]; rewrite ?remove_if_exists_eq; cbn [fst];
    f_equal; destruct w as [fs ds ls wd]; unfold set_files; cbn;
    repeat (case_bool_decide; cbn); try reflexivity; try contradiction; f_equal;
    apply map_eq; intros k; rewrite !lookup_delete; repeat case_decide; reflexivity.
Qed.

End Cleanup.

Lemma cleanup_removes_unlocked_sidecars_witness :
  let w := world_of [("in/a.TIF", Regular "II*"); ("in/a.TIF.aux.xml", Regular "<PAM/>");
                     ("in/a.tiff.aux.xml", Regular "<PAM/>"); ("in/b.txt", Regular "b")] in
  dom (files (cleanup_aux_xml "in/a.TIF" w).1) = {["in/a.TIF"; "in/b.txt"]}
  /\ files (cleanup_aux_xml "in/a.TIF" w).1 !! "in/a.tiff.aux.xml" = None.
Proof.
  intros w. split; [vm_compute; reflexivity|].
  apply (proj1 (proj2 (cleanup_removes_unlocked_sidecars "in/a.TIF" w))).
  - reflexivity.
  - apply not_elem_of_empty.
Defined.

(** ** The converter and its temporary directory *)

(** Nothing is left under a directory that [rmtree] has removed. *)
Lemma rmtree_clears (d : string) (w : world) :
  (forall q, under d q = true -> files (rmtree d w) !! q = None /\ q ∉ dirs (rmtree d w))
  /\ d ∉ dirs (rmtree d w).
Proof.
  unfold rmtree; cbn [files dirs]. split.
  - intros q Hq. split.
    + apply map_lookup_filter_None. right. intros x _ Hu. cbn [fst] in Hu. congruence.
    + rewrite elem_of_filter. intros [[Hu _] _]. congruence.
  - rewrite elem_of_filter. intros [[_ Hd] _]. now apply Hd.
Qed.

Lemma rmtree_shrinks (d : string) (w : world) :
  files (rmtree d w) ⊆ files w /\ dirs (rmtree d w) ⊆ dirs w.
Proof.
  unfold rmtree; cbn [files dirs]. split.
  - apply map_filter_subseteq.
  - intros q. rewrite elem_of_filter. now intros [_ Hq].
Qed.

Section Worker.
Context `{Collaborators}.

Lemma cleanup_shrinks (tif_path : string) (w : world) :
  files (cleanup_aux_xml tif_path w).1 ⊆ files w
  /\ dirs (cleanup_aux_xml tif_path w).1 = dirs w.
Proof.
  assert (Hrem : forall p w0,
             files (if bool_decide (p ∈ locked w0) then w0 else set_files (delete p) w0)
             ⊆ files w0).
  { intros p w0. case_bool_decide; [reflexivity|]. cbn [files set_files].
    apply delete_subseteq. }
  split.
  - unfold cleanup_aux_xml, bindM. rewrite remove_if_exists_eq.
    destruct (endswith (lower tif_path) ".tif").
    + rewrite remove_if_exists_eq. cbn [fst]. etransitivity; apply Hrem.
    + unfold ret. cbn [fst]. apply Hrem.
  - destruct (cleanup_aux_xml_spec tif_path w) as (w' & -> & Hd & _). exact Hd.
Qed.

(** The temporary directory never outlives the call. Once it has been made,
    the call returns, converted or failed, and on the disk it leaves (the
    removal at the end of the [with] block taken to succeed) no file and no
    directory lies under the temporary directory, which is gone itself: the
    intermediate image and the overlay document exist only inside the
    bundle. *)
Theorem worker_leaves_no_temporary_files (tif_path kmz_path tmpdir : string) (w w0 : world) :
  TemporaryDirectory w = (w0, Return tmpdir) ->
  exists w' status,
    convert_tif_to_kmz_task (tif_path, kmz_path) w = (w', Return (tif_path, status))
    /\ (forall q, under tmpdir q = true -> files w' !! q = None /\ q ∉ dirs w')
    /\ tmpdir ∉ dirs w'.
Proof.
  intros Htmp.
  destruct (pipeline tif_path kmz_path
              (join tmpdir ((splitext (basename tif_path)).1 +:+ ".png"))
              (join tmpdir "doc.kml") w0) as [w1 r] eqn:Hp.
  rewrite (convert_unfold _ _ _ _ _ _ _ Htmp Hp).
  destruct (rmtree_clears tmpdir (cleanup_aux_xml tif_path w1).1) as [Hfiles Hdir].
  assert (Hres : exists status,
             match r with
             | Return res => res
             | Raise e => (tif_path, "FAILED: " +:+ exn_str e)
             end = (tif_path, status)).
  { destruct r as [res|e]; [|eauto].
    destruct (pipeline_cases tif_path kmz_path
                (join tmpdir ((splitext (basename tif_path)).1 +:+ ".png"))
                (join tmpdir "doc.kml") w0)
      as [(k & e & w2 & Hk) | (? & ? & ? & ? & ? & ? & ? & ? & w2 & _ & _ & _ & _ & _ & Hok)].
    - apply raises_in_stage_pipeline in Hk. congruence.
    - rewrite Hp in Hok. injection Hok as _ ->. eauto. }
  destruct Hres as [status ->]. eauto.
Qed.

(** A source that GDAL cannot open is reported, not converted: the call
    returns the status [FAILED: Unable to open input GeoTIFF: <path>], and
    the disk it leaves holds nothing that was not there when the steps
    began: no bundle has been written at the destination. *)
Theorem unopenable_source_is_reported (tif_path kmz_path tmpdir : string) (w w0 : world) :
  TemporaryDirectory w = (w0, Return tmpdir) ->
  gdal_Open tif_path w0 = None ->
  exists w',
    convert_tif_to_kmz_task (tif_path, kmz_path) w
    = (w', Return (tif_path, "FAILED: Unable to open input GeoTIFF: " +:+ tif_path))
    /\ files w' ⊆ files w0 /\ dirs w' ⊆ dirs w0
    /\ (files w0 !! kmz_path = None -> files w' !! kmz_path = None).
Proof.
  intros Htmp Hopen.
  assert (Hp : pipeline tif_path kmz_path
                 (join tmpdir ((splitext (basename tif_path)).1 +:+ ".png"))
                 (join tmpdir "doc.kml") w0
               = (w0, Raise (Exn "Exception" ("Unable to open input GeoTIFF: " +:+ tif_path)))).
  { unfold pipeline, bindM, geotiff_to_png. now rewrite Hopen. }
  rewrite (convert_unfold _ _ _ _ _ _ _ Htmp Hp). cbn [exn_str].
  eexists. split; [reflexivity|].
  destruct (rmtree_shrinks tmpdir (cleanup_aux_xml tif_path w0).1) as [Hf Hd].
  destruct (cleanup_shrinks tif_path w0) as [Hf' Hd'].
  assert (Hsub : files (rmtree tmpdir (cleanup_aux_xml tif_path w0).1) ⊆ files w0)
    by (etransitivity; eassumption).
  split; [exact Hsub|]. split; [now rewrite <- Hd'|].
  intros Hnone. eapply lookup_weaken_None; eassumption.
Qed.

(** The bundle of a converted item, from the parts of the converter: the
    overlay as [doc.kml], the image as [<base>.png]. *)
Lemma ok_item_archive (tif_path kmz_path tmpdir : string) (w w0 w' : world) :
  TemporaryDirectory w = (w0, Return tmpdir) ->
  under tmpdir kmz_path = false ->
  endswith kmz_path ".kmz" = true ->
  convert_tif_to_kmz_task (tif_path, kmz_path) w = (w', Return (tif_path, "OK")) ->
  exists north south east west image,
    files w' !! kmz_path
    = Some (Zip [Entry "doc.kml" ZIP_DEFLATED
                   (Regular (kml_content ((splitext (basename tif_path)).1 +:+ ".png")
                               north south east west));
                 Entry ((splitext (basename tif_path)).1 +:+ ".png") ZIP_DEFLATED image]).
Proof.
  intros Htmp Hout Hext Hconv.
  set (base := (splitext (basename tif_path)).1) in *.
  assert (Hpng : slash ∉ chars (base +:+ ".png")).
  { apply not_elem_of_chars_app. split.
    - apply splitext_root_no_sep, basename_no_sep.
    - apply has_char_false. reflexivity. }
  assert (Hkml : join tmpdir "doc.kml" <> kmz_path).
  { intros <-. rewrite under_join in Hout; [discriminate|].
    apply has_char_false. reflexivity. }
  destruct (pipeline_cases tif_path kmz_path (join tmpdir (base +:+ ".png"))
              (join tmpdir "doc.kml") w0)
    as [(k & e & w1 & Hk)
       | (w1 & w2 & w3 & north & south & east & west & w4 & w5 & _ & _ & _ & H4 & H5 & Hok)].
  { apply raises_in_stage_pipeline in Hk.
    rewrite (convert_unfold _ _ _ _ _ _ _ Htmp Hk) in Hconv. discriminate. }
  rewrite (convert_unfold _ _ _ _ _ _ _ Htmp Hok) in Hconv.
  injection Hconv as <-.
  apply generate_kml_returns in H4. subst w4.
  apply create_kmz_entries in H5 as (overlay & image & Hz & Hov & _).
  specialize (Hov Hkml). cbn [files set_files] in Hov.
  rewrite lookup_insert_eq in Hov. injection Hov as <-.
  subst base. rewrite (image_name_of_task tmpdir tif_path) in Hz.
  exists north, south, east, west, image.
  rewrite rmtree_lookup by assumption.
  destruct (cleanup_aux_xml_spec tif_path w5) as (w6 & -> & _ & _ & _ & Hkeep).
  cbn [fst]. rewrite Hkeep; [exact Hz| |].
  - replace (tif_path +:+ ".aux.xml") with ((tif_path +:+ ".aux") +:+ ".xml")
      by (now rewrite app_assoc_s).
    now apply (suffix_distinct _ _ ".kmz").
  - replace (slice_to tif_path (-4) +:+ ".tiff.aux.xml")
      with ((slice_to tif_path (-4) +:+ ".tiff.aux") +:+ ".xml")
      by (now rewrite app_assoc_s).
    now apply (suffix_distinct _ _ ".kmz").
Qed.

(** The walker and the converter agree on the name. For a file name as a
    directory listing gives it (no separator in it), the work item built by
    the walker has that name as the base name of its source and
    [<stem>.kmz] as the base name of its destination, [<stem>] being what
    [splitext] leaves of the name; the converter derives the same [<stem>]
    from the source path, so a converted item has at its destination an
    archive whose image entry is [<stem>.png], referenced under that name by
    [doc.kml]. *)
Theorem gathered_item_is_bundled_under_its_stem (root_in root_out : string)
    (cs : list string) (fname tmpdir : string) (w w0 w' : world) :
  has_char slash fname = false ->
  let item := item_of root_in root_out cs fname in
  let stem := (splitext fname).1 in
  basename item.1 = fname
  /\ basename item.2 = stem +:+ ".kmz"
  /\ endswith item.2 ".kmz" = true
  /\ (TemporaryDirectory w = (w0, Return tmpdir) ->
      under tmpdir item.2 = false ->
      convert_tif_to_kmz_task item w = (w', Return (item.1, "OK")) ->
      exists north south east west image,
        files w' !! item.2
        = Some (Zip [Entry "doc.kml" ZIP_DEFLATED
                       (Regular (kml_content (stem +:+ ".png") north south east west));
                     Entry (stem +:+ ".png") ZIP_DEFLATED image])).
Proof.
  intros Hname%has_char_false item stem.
  assert (Hstem : slash ∉ chars (stem +:+ ".kmz")).
  { apply not_elem_of_chars_app. split.
    - now apply splitext_root_no_sep.
    - apply has_char_false. reflexivity. }
  assert (Hsrc : basename item.1 = fname) by (now apply basename_join).
  assert (Hend : endswith item.2 ".kmz" = true).
  { subst item. unfold item_of, kmz_name_of. cbn [snd]. fold stem.
    destruct (join_name (mirror_of root_out cs) (stem +:+ ".kmz") Hstem) as [-> _].
    rewrite <- app_assoc_s. apply endswith_app. }
  split; [exact Hsrc|]. split; [now apply basename_join|]. split; [exact Hend|].
  intros Htmp Hout Hconv.
  destruct (ok_item_archive item.1 item.2 tmpdir w w0 w' Htmp Hout Hend)
    as (north & south & east & west & image & Hz).
  - now destruct item.
  - rewrite Hsrc in Hz. fold stem in Hz. now exists north, south, east, west, image.
Qed.

End Worker.

Lemma worker_leaves_no_temporary_files_witness :
  let w' := (@convert_tif_to_kmz_task demo ("in/a.tif", "out/a.kmz") sample_world).1 in
  files w' !! "/tmp/tmp0/a.png" = None /\ files w' !! "/tmp/tmp0/doc.kml" = None
  /\ "/tmp/tmp0" ∉ dirs w'.
Proof.
  intros w'.
  pose (w0 := set_dirs (union {["/tmp/tmp0"]}) sample_world).
  assert (Htmp : @TemporaryDirectory demo sample_world = (w0, Return "/tmp/tmp0"))
    by reflexivity.
  destruct (@worker_leaves_no_temporary_files demo "in/a.tif" "out/a.kmz" "/tmp/tmp0"
              sample_world w0 Htmp) as (w1 & status & Hc & Hunder & Hdir).
  subst w'. rewrite Hc. cbn [fst].
  split; [now apply Hunder|]. split; [now apply Hunder | exact Hdir].
Defined.

Lemma unopenable_source_is_reported_witness :
  (@convert_tif_to_kmz_task demo ("in/bad.tif", "out/bad.kmz") sample_world).2
  = Return ("in/bad.tif", "FAILED: Unable to open input GeoTIFF: in/bad.tif")
  /\ files (@convert_tif_to_kmz_task demo ("in/bad.tif", "out/bad.kmz") sample_world).1
       !! "out/bad.kmz" = None.
Proof.
  pose (w0 := set_dirs (union {["/tmp/tmp0"]}) sample_world).
  assert (Htmp : @TemporaryDirectory demo sample_world = (w0, Return "/tmp/tmp0"))
    by reflexivity.
  assert (Hopen : @gdal_Open demo "in/bad.tif" w0 = None) by reflexivity.
  destruct (@unopenable_source_is_reported demo "in/bad.tif" "out/bad.kmz" "/tmp/tmp0"
              sample_world w0 Htmp Hopen) as (w1 & Hc & _ & _ & Hkmz).
  rewrite Hc. cbn [fst snd]. split; [reflexivity|]. now apply Hkmz.
Defined.

Lemma gathered_item_is_bundled_under_its_stem_witness :
  item_of "in" "out" ["A"] "scene.v2.TIF" = ("in/A/scene.v2.TIF", "out/A/scene.v2.kmz")
  /\ basename "out/A/scene.v2.kmz" = "scene.v2.kmz".
Proof.
  split; [reflexivity|].
  assert (Hname : has_char slash "scene.v2.TIF" = false) by reflexivity.
  exact (proj1 (proj2 (@gathered_item_is_bundled_under_its_stem demo "in" "out" ["A"]
                         "scene.v2.TIF" "/tmp/tmp0" sample_world sample_world sample_world
                         Hname))).
Defined.

(** ** The plan of the walker *)

(** Rasters that differ only in the spelling of the suffix get one
    destination: [a.tif], [a.TIF] and [a.tiff] in one directory all map to
    [a.kmz] there. The plan does not keep the destinations apart. *)
Theorem rasters_of_one_stem_share_a_destination (root_in root_out : string)
    (cs : list string) (fname1 fname2 : string) :
  proper_name fname1 = true -> proper_name fname2 = true ->
  is_tif fname1 = true -> is_tif fname2 = true ->
  raster_stem fname1 = raster_stem fname2 ->
  only_dots (raster_stem fname1) = false ->
  (item_of root_in root_out cs fname1).2 = (item_of root_in root_out cs fname2).2
  /\ (item_of root_in root_out cs fname1).2
     = join (mirror_of root_out cs) (raster_stem fname1 +:+ ".kmz").
Proof.
  intros Hp1 Hp2 Ht1 Ht2 Hstem Hdots. unfold item_of. cbn [snd].
  rewrite (kmz_name_of_raster fname1), (kmz_name_of_raster fname2) by assumption.
  rewrite <- Hstem, Hdots. split; reflexivity.
Qed.

Lemma rasters_of_one_stem_share_a_destination_witness :
  (gather_tif_tasks "in" "out" (Dir "in" [] ["a.tif"; "a.TIFF"]) empty_world).2
  = Return [("in/a.tif", "out/./a.kmz"); ("in/a.TIFF", "out/./a.kmz")]
  /\ (item_of "in" "out" [] "a.tif").2 = (item_of "in" "out" [] "a.TIFF").2.
Proof.
  split; [reflexivity|].
  apply (rasters_of_one_stem_share_a_destination "in" "out" [] "a.tif" "a.TIFF");
    reflexivity.
Defined.

Lemma startswith_iff (s p : string) : startswith s p = true <-> exists r, s = p +:+ r.
Proof.
  unfold startswith. revert s. induction p as [|a p IH]; intros s.
  - split; [intros _; exists s; reflexivity | intros _; now destruct s].
  - destruct s as [|b s]; cbn [String.prefix].
    + split; [discriminate | intros [r Hr]; rewrite app_String in Hr; discriminate].
    + destruct (ascii_dec a b) as [<-|Hab].
      * rewrite IH. split; intros [r Hr]; exists r.
        -- rewrite app_String. now f_equal.
        -- rewrite app_String in Hr. now injection Hr.
      * split; [discriminate|]. intros [r Hr]. rewrite app_String in Hr.
        injection Hr as Hb _. congruence.
Qed.

Lemma join_empty_extends (a : string) : exists r, join a "" = a +:+ r.
Proof.
  unfold join. change (startswith "" "/") with false. cbv iota.
  destruct (String.eqb a "" || endswith a "/"); eauto.
Qed.

(** A path reached from [root] through names lies under [root]. *)
Lemma join_all_below (cs : list string) :
  forall root,
    Forall (fun n => proper_name n = true) cs ->
    exists r, join (join_all root cs) "" = join root "" +:+ r.
Proof.
  induction cs as [|c cs IH]; intros root Hcs.
  - exists "". now rewrite app_empty_r.
  - inversion Hcs as [|? ? Hc Hcs']; subst.
    unfold join_all. cbn [fold_left]. fold (join_all (join root c) cs).
    destruct (IH (join root c) Hcs') as [r ->].
    apply proper_name_spec in Hc as (_ & Hs & _).
    destruct (join_name root c Hs) as [-> _].
    destruct (join_empty_extends (join root "" +:+ c)) as [r' ->].
    exists (c +:+ r' +:+ r). now rewrite !app_assoc_s.
Qed.

Lemma rel_dir_of_relative (cs : list string) :
  Forall (fun n => proper_name n = true) cs -> startswith (rel_dir_of cs) "/" = false.
Proof.
  intros Hcs. destruct cs as [|c cs]; [reflexivity|].
  inversion Hcs as [|? ? Hc _]; subst.
  apply proper_name_spec in Hc as (Hne & Hs & _).
  destruct c as [|a c]; [congruence|].
  assert (Ha : a <> slash).
  { intros ->. apply Hs. cbn. apply list_elem_of_here. }
  unfold rel_dir_of.
  assert (Hhead : exists t, sep_join (String a c :: cs) = String a t).
  { destruct cs as [|d cs]; [now exists c|].
    rewrite (sep_join_cons _ (d :: cs)) by discriminate. rewrite app_String. eauto. }
  destruct Hhead as [t Ht]. rewrite (startswith_head _ _ _ Ht).
  now apply bool_decide_eq_false_2.
Qed.

(** The plan stays inside the two roots. Every work item the walker
    returns has its source under the input root, named like a raster, and
    its destination under the output root, named [*.kmz]: the batch reads
    nothing outside the one tree and writes nothing outside the other. *)
Theorem plan_stays_inside_the_roots (root_in root_out : string) (t : tree)
    (w w' : world) (tasks : list task) :
  root_in <> "" -> startswith (cwd w) "/" = true -> proper_tree t = true ->
  (forall e, e ∈ dirs_under [] t -> can_mirror w (mirror_of root_out e.1)) ->
  gather_tif_tasks root_in root_out t w = (w', Return tasks) ->
  forall tif_path kmz_path,
    (tif_path, kmz_path) ∈ tasks ->
    under root_in tif_path = true
    /\ is_tif (basename tif_path) = true
    /\ under root_out kmz_path = true
    /\ endswith kmz_path ".kmz" = true.
Proof.
  intros Hroot Hwd Ht Hcan Hg tif_path kmz_path Hin.
  rewrite gather_tif_tasks_spec in Hg by assumption. injection Hg as _ <-.
  unfold items_of in Hin. apply list_elem_of_In, in_flat_map in Hin as ([cs d] & He & Hin).
  apply in_map_iff in Hin as (fname & Hitem & Hf). cbn [fst snd] in *.
  apply list_elem_of_In, list_elem_of_filter in Hf as [Htif Hf].
  pose proof (dirs_under_proper t [] (Forall_nil_2 _) Ht) as Hp.
  rewrite Forall_forall in Hp. apply list_elem_of_In in He.
  destruct (Hp _ He) as [Hcs Hfs]. cbn [fst snd] in Hcs, Hfs.
  rewrite Forall_forall in Hfs. specialize (Hfs _ Hf).
  apply proper_name_spec in Hfs as (_ & Hs & _).
  unfold item_of in Hitem. injection Hitem as <- <-.
  assert (Hstem : slash ∉ chars (kmz_name_of fname)).
  { unfold kmz_name_of. apply not_elem_of_chars_app. split.
    - now apply splitext_root_no_sep.
    - apply has_char_false. reflexivity. }
  split; [|split; [|split]].
  - unfold under. apply startswith_iff.
    destruct (join_name (join_all root_in cs) fname Hs) as [-> _].
    destruct (join_all_below cs root_in Hcs) as [r ->].
    exists (r +:+ fname). now rewrite app_assoc_s.
  - now rewrite basename_join.
  - unfold under. apply startswith_iff.
    destruct (join_name (mirror_of root_out cs) (kmz_name_of fname) Hstem) as [-> _].
    unfold mirror_of.
    destruct (join_rel root_out (rel_dir_of cs) (rel_dir_of_relative cs Hcs)) as [-> _].
    destruct (join_empty_extends (join root_out "" +:+ rel_dir_of cs)) as [r ->].
    exists (rel_dir_of cs +:+ r +:+ kmz_name_of fname). now rewrite !app_assoc_s.
  - destruct (join_name (mirror_of root_out cs) (kmz_name_of fname) Hstem) as [-> _].
    unfold kmz_name_of. rewrite <- app_assoc_s. apply endswith_app.
Qed.

Lemma plan_stays_inside_the_roots_witness :
  let t := Dir "in" [Dir "A" [] ["x.TIF"; "notes.txt"]] ["a.tif"] in
  under "in" "in/A/x.TIF" = true /\ under "out" "out/A/x.kmz" = true.
Proof.
  intros t.
  assert (Hroot : "in" <> "") by discriminate.
  assert (Hwd : startswith (cwd empty_world) "/" = true) by reflexivity.
  assert (Ht : proper_tree t = true) by reflexivity.
  assert (Hcan : forall e, e ∈ dirs_under [] t -> can_mirror empty_world (mirror_of "out" e.1)).
  { intros e He. right. split; [|apply not_elem_of_empty].
    vm_compute in He. repeat (apply elem_of_cons in He as [-> | He]); try reflexivity;
      now apply elem_of_nil in He. }
  destruct (gather_tif_tasks "in" "out" t empty_world) as [w' [tasks|e]] eqn:Hg;
    [|vm_compute in Hg; discriminate].
  assert (Hin : ("in/A/x.TIF", "out/A/x.kmz") ∈ tasks).
  { assert (Htasks : tasks = [("in/a.tif", "out/./a.kmz"); ("in/A/x.TIF", "out/A/x.kmz")])
      by (vm_compute in Hg; now injection Hg as _ <-).
    rewrite Htasks. apply list_elem_of_further, list_elem_of_here. }
  destruct (plan_stays_inside_the_roots "in" "out" t empty_world w' tasks
              Hroot Hwd Ht Hcan Hg _ _ Hin) as (H1 & _ & H3 & _).
  split; assumption.
Defined.

(** ** Walks that give no work, and walks that stop *)

Lemma items_of_no_rasters (root_in root_out : string) (t : tree) :
  no_rasters t = true -> items_of root_in root_out t = [].
Proof.
  unfold no_rasters, items_of. induction (dirs_under [] t) as [|e l IH]; [reflexivity|].
  cbn [forallb flat_map]. intros [He Hl]%andb_true_iff.
  rewrite (IH Hl), app_nil_r.
  induction (filenames_of e.2) as [|f fs IHf]; [reflexivity|].
  cbn [forallb] in He. apply andb_true_iff in He as [Hf Hfs].
  apply negb_true_iff in Hf.
  rewrite filter_cons_False by (now rewrite Hf). now apply IHf.
Qed.

Lemma gather_loop_no_rasters (root_in root_out : string)
    (entries : list (string * list string * list string)) :
  forall tasks w w' ts,
    Forall (fun x => Forall (fun fname => is_tif fname = false) x.2) entries ->
    gather_loop root_in root_out entries tasks w = (w', Return ts) -> ts = tasks.
Proof.
  induction entries as [|[[dirpath dirnames] filenames] entries IH];
    intros tasks w w' ts Hno.
  - now intros [= _ <-].
  - apply Forall_cons in Hno as [Hfs Hno]. cbn [snd] in Hfs.
    cbn [gather_loop]. unfold bindM.
    destruct (relpath dirpath root_in w) as [w0 [rel_dir|e]]; [|discriminate].
    destruct (os_makedirs_exist_ok (join root_out rel_dir) w0) as [w1 [[]|e]]; [|discriminate].
    intros Hg. apply IH in Hg; [|assumption]. rewrite Hg, tasks_of_files_spec.
    replace (filter (fun fname => is_tif fname = true) filenames) with (@nil string);
      [now rewrite app_nil_r|].
    clear -Hfs. induction Hfs as [|f fs Hf _ IHfs]; [reflexivity|].
    rewrite filter_cons_False by (now rewrite Hf). exact IHfs.
Qed.

Section EmptyBatch.
Context `{Collaborators}.

(** Nothing to convert is no error. With the empty string for the input
    root nothing is walked at all: no directory is made, the count printed
    is 0 and the exit status is 0. When the walk returns over a tree that
    holds no file named like a raster, it returns no item and has changed
    no file; the count printed is 0, no worker is started and the exit
    status is 0. *)
Theorem tree_without_rasters_gives_empty_batch (argv0 root_in root_out : string)
    (t : tree) (cpu_count : nat) (w : world) :
  main argv0 [""; root_out] t cpu_count [] w
  = Some {| stdout := ["[+] Found 0 GeoTIFF files to process."];
            exit_status := 0; left := w |}
  /\ (forall w' tasks,
         no_rasters t = true ->
         gather_tif_tasks root_in root_out t w = (w', Return tasks) ->
         tasks = []
         /\ files w' = files w
         /\ main argv0 [root_in; root_out] t cpu_count [] w
            = Some {| stdout := ["[+] Found 0 GeoTIFF files to process."];
                      exit_status := 0; left := w' |}).
Proof.
  split; [reflexivity|].
  intros w' tasks Hno Hg.
  assert (Htasks : tasks = []).
  { pose proof Hg as Hg0. unfold gather_tif_tasks, os_walk in Hg0.
    destruct (String.eqb root_in ""); [now injection Hg0 as _ <-|].
    change (walk root_in t) with (walk (join_all root_in []) t) in Hg0.
    rewrite walk_dirs_under in Hg0.
    apply gather_loop_no_rasters in Hg0; [exact Hg0|].
    unfold no_rasters in Hno. rewrite forallb_forall in Hno.
    apply Forall_fmap, Forall_forall. intros e He. cbn.
    apply list_elem_of_In, Hno in He. rewrite forallb_forall in He.
    apply Forall_forall. intros f Hf. apply list_elem_of_In, He in Hf.
    now apply negb_true_iff in Hf. }
  subst tasks. split; [reflexivity|]. split.
  - now apply gather_loop_frame in Hg as [Hf _].
  - unfold main. rewrite Hg. reflexivity.
Qed.

Lemma gather_loop_app (root_in root_out : string)
    (a b : list (string * list string * list string)) :
  forall tasks w,
    gather_loop root_in root_out (a ++ b) tasks w
    = match gather_loop root_in root_out a tasks w with
      | (w', Return ts) => gather_loop root_in root_out b ts w'
      | (w', Raise e) => (w', Raise e)
      end.
Proof.
  induction a as [|[[dirpath dirnames] filenames] a IH]; intros tasks w; [reflexivity|].
  cbn [app gather_loop]. unfold bindM.
  destruct (relpath dirpath root_in w) as [w1 [rel_dir|e]]; [|reflexivity].
  destruct (os_makedirs_exist_ok (join root_out rel_dir) w1) as [w2 [[]|e]]; [|reflexivity].
  apply IH.
Qed.

(** A regular file where a subdirectory is to be mirrored stops the walk.
    The directories before it in the walk have been mirrored and stay; at
    this one, a directory below the input root, [os.makedirs] raises
    [FileExistsError], which nothing catches: no work list is returned, no
    file has changed, nothing is printed and the exit status is 1, before
    any raster has been converted. *)
Theorem blocked_mirror_aborts_the_walk (argv0 root_in root_out : string) (t : tree)
    (cpu_count : nat) (sched : list action) (w : world)
    (before after : list (list string * tree)) (e : list string * tree) (f : file) :
  root_in <> "" -> startswith (cwd w) "/" = true -> proper_tree t = true ->
  dirs_under [] t = before ++ e :: after ->
  e.1 <> [] ->
  Forall (fun x => can_mirror w (mirror_of root_out x.1)) before ->
  mirror_of root_out e.1 ∉ dirs w ->
  files w !! mirror_of root_out e.1 = Some f ->
  exists w',
    gather_tif_tasks root_in root_out t w
    = (w', Raise (FileExistsError (mirror_of root_out e.1)))
    /\ files w' = files w
    /\ (forall x, x ∈ before -> mirror_of root_out x.1 ∈ dirs w')
    /\ main argv0 [root_in; root_out] t cpu_count sched w
       = Some {| stdout := []; exit_status := 1; left := w' |}.
Proof.
  intros Hroot Hwd Ht Hsplit _ Hcan Hnd Hfile.
  set (w' := set_dirs (union (list_to_set (map (fun x => mirror_of root_out x.1) before))) w).
  assert (Hg : gather_tif_tasks root_in root_out t w
               = (w', Raise (FileExistsError (mirror_of root_out e.1)))).
  { unfold gather_tif_tasks, os_walk.
    apply String.eqb_neq in Hroot as Hroot'. rewrite Hroot'.
    change (walk root_in t) with (walk (join_all root_in []) t).
    rewrite walk_dirs_under, Hsplit, map_app, gather_loop_app.
    pose proof (dirs_under_proper t [] (Forall_nil_2 _) Ht) as Hp.
    rewrite Hsplit in Hp. apply Forall_app in Hp as [Hp1 Hp2].
    inversion Hp2 as [|? ? [He _] _]; subst.
    rewrite gather_loop_spec; try assumption;
      [|eapply Forall_impl; [exact Hp1|]; now intros x [Hx _]].
    fold w'. destruct e as [cs d]. cbn [fst] in *.
    cbn [map gather_loop entry_of fst snd]. unfold bindM.
    rewrite relpath_below by assumption.
    fold (mirror_of root_out cs). unfold os_makedirs_exist_ok.
    rewrite bool_decide_eq_false_2.
    - unfold w'. cbn [files set_dirs]. rewrite Hfile.
      rewrite bool_decide_eq_true_2 by eauto. reflexivity.
    - unfold w'. cbn [dirs set_dirs]. rewrite elem_of_union. intros [Hin | Hin]; [|now apply Hnd].
      apply elem_of_list_to_set, list_elem_of_In, in_map_iff in Hin as (x & Hx & Hin).
      rewrite Forall_forall in Hcan. apply list_elem_of_In in Hin.
      destruct (Hcan x Hin) as [Hd | [Hnone _]]; rewrite Hx in *; [now apply Hnd | congruence]. }
  exists w'. split; [exact Hg|]. split; [reflexivity|]. split.
  - intros x Hx. unfold w'. cbn [dirs set_dirs]. apply elem_of_union_l.
    now apply mirror_in_list.
  - unfold main. now rewrite Hg.
Qed.

End EmptyBatch.

Lemma tree_without_rasters_gives_empty_batch_witness :
  option_map (fun r => (stdout r, exit_status r))
    (@main demo "geotiff_to_kmz.py" ["in"; "out"]
       (Dir "in" [Dir "docs" [] ["readme.txt"]] ["notes.tif.txt"]) 4 [] empty_world)
  = Some (["[+] Found 0 GeoTIFF files to process."], 0).
Proof.
  set (t := Dir "in" [Dir "docs" [] ["readme.txt"]] ["notes.tif.txt"]).
  assert (Hno : no_rasters t = true) by reflexivity.
  destruct (gather_tif_tasks "in" "out" t empty_world) as [w' [tasks|e]] eqn:Hg;
    [|vm_compute in Hg; discriminate].
  destruct (proj2 (@tree_without_rasters_gives_empty_batch demo "geotiff_to_kmz.py"
                     "in" "out" t 4 empty_world) w' tasks Hno Hg) as (_ & _ & Hmain).
  rewrite Hmain. reflexivity.
Defined.

Lemma blocked_mirror_aborts_the_walk_witness :
  let t := Dir "in" [Dir "A" [] ["x.tif"]] ["a.tif"] in
  let w := {| files := {["out/A" := Regular "not a directory"]};
              dirs := {["out"; "out/."]}; locked := ∅; cwd := "/home/user" |} in
  option_map (fun r => (stdout r, exit_status r))
    (@main demo "geotiff_to_kmz.py" ["in"; "out"] t 4 [] w)
  = Some ([], 1)
  /\ (gather_tif_tasks "in" "out" t w).2
     = Raise (Exn "FileExistsError" "[Errno 17] File exists: 'out/A'").
Proof.
  intros t w.
  assert (Hroot : "in" <> "") by discriminate.
  assert (Hwd : startswith (cwd w) "/" = true) by reflexivity.
  assert (Ht : proper_tree t = true) by reflexivity.
  assert (Hsplit : dirs_under [] t = [([], t)] ++ (["A"], Dir "A" [] ["x.tif"]) :: [])
    by reflexivity.
  assert (Hsub : (["A"], Dir "A" [] ["x.tif"]).1 <> []) by discriminate.
  assert (Hcan : Forall (fun x => can_mirror w (mirror_of "out" x.1)) [([], t)]).
  { constructor; [|constructor]. left. vm_compute. set_solver. }
  assert (Hnd : mirror_of "out" (["A"], Dir "A" [] ["x.tif"]).1 ∉ dirs w).
  { vm_compute. set_solver. }
  assert (Hfile : files w !! mirror_of "out" (["A"], Dir "A" [] ["x.tif"]).1
                  = Some (Regular "not a directory")) by reflexivity.
  destruct (@blocked_mirror_aborts_the_walk demo "geotiff_to_kmz.py" "in" "out" t 4 [] w
              _ _ _ _ Hroot Hwd Ht Hsplit Hsub Hcan Hnd Hfile) as (w' & Hg & _ & _ & Hmain).
  rewrite Hmain, Hg. split; reflexivity.
Defined.

(** ** No raster is planned twice *)

Lemma app_inv_head_s (a s t : string) : a +:+ s = a +:+ t -> s = t.
Proof.
  intros Heq. apply chars_inj. apply (f_equal list_ascii_of_string) in Heq.
  rewrite !chars_app in Heq. now apply app_inv_head in Heq.
Qed.

(** A path joined from names, as the root part followed by the names
    separated by [/]. *)
Lemma join_all_sep_join (root : string) (l : list string) :
  l <> [] -> Forall (fun n => proper_name n = true) l ->
  join_all root l = join root "" +:+ sep_join l.
Proof.
  destruct l as [|c cs]; [congruence|]. intros _ Hl.
  inversion Hl as [|? ? Hc Hcs]; subst.
  pose proof (proper_name_spec c Hc) as (Hne & Hs & _).
  unfold join_all. cbn [fold_left]. fold (join_all (join root c) cs).
  destruct (join_name root c Hs) as [-> _].
  rewrite join_all_names; try assumption.
  - destruct cs as [|d cs]; [reflexivity|].
    rewrite (sep_join_cons _ (d :: cs)), (sep_join_cons c (d :: cs)) by discriminate.
    now rewrite app_assoc_s.
  - destruct c as [|a c]; [congruence|]. intros Heq.
    apply (f_equal len) in Heq. rewrite len_app, len_String in Heq.
    pose proof (len_nonneg (join root "")). pose proof (len_nonneg c).
    change (len "") with 0 in Heq. lia.
  - rewrite endswith_sep_snoc by assumption. now apply proper_name_no_trailing_sep.
Qed.

(** Different lists of names give different paths. *)
Lemma join_all_inj (root : string) (l1 l2 : list string) :
  l1 <> [] -> l2 <> [] ->
  Forall (fun n => proper_name n = true) l1 -> Forall (fun n => proper_name n = true) l2 ->
  join_all root l1 = join_all root l2 -> l1 = l2.
Proof.
  intros Hn1 Hn2 Hp1 Hp2 Heq.
  rewrite !join_all_sep_join in Heq by assumption. apply app_inv_head_s in Heq.
  assert (Hfree : forall l, Forall (fun n => proper_name n = true) l ->
                            Forall (fun x => slash ∉ chars x) l).
  { intros l Hl. eapply Forall_impl; [exact Hl|]. now intros n (_ & Hs & _)%proper_name_spec. }
  rewrite <- (split_sep_join l1), <- (split_sep_join l2) by auto. now rewrite Heq.
Qed.

(** In a tree of distinct names, the directories are reached through
    pairwise different lists of names, each an extension of the list that
    leads to the top, and each directory lists its files without repeats. *)
Lemma dirs_under_distinct (t : tree) :
  forall prefix,
    distinct_names t = true ->
    NoDup (dirs_under prefix t).*1
    /\ Forall (fun e => (exists x, e.1 = prefix ++ x) /\ NoDup (filenames_of e.2))
              (dirs_under prefix t).
Proof.
  induction t as [n subs fs IH] using tree_induction. intros prefix Hd.
  cbn [distinct_names] in Hd. apply andb_true_iff in Hd as [Hd Hsubs].
  apply andb_true_iff in Hd as [Hfs Hnames]. apply bool_decide_eq_true in Hfs, Hnames.
  cbn [dirs_under].
  assert (Hrest : NoDup (flat_map (fun s => dirs_under (prefix ++ [dir_name s]) s) subs).*1
                  /\ Forall (fun e => (exists x m, e.1 = prefix ++ m :: x
                                                   /\ m ∈ map dir_name subs)
                                      /\ NoDup (filenames_of e.2))
                            (flat_map (fun s => dirs_under (prefix ++ [dir_name s]) s) subs)).
  { clear Hfs. induction IH as [|s subs Hs _ IHsubs]; [split; constructor|].
    cbn [forallb map] in Hsubs, Hnames. apply andb_true_iff in Hsubs as [Hs' Hsubs'].
    apply NoDup_cons in Hnames as [Hnotin Hnames'].
    destruct (Hs (prefix ++ [dir_name s]) Hs') as [Hnd Hall].
    destruct (IHsubs Hnames' Hsubs') as [Hnd' Hall'].
    cbn [flat_map map]. rewrite fmap_app. split.
    - apply NoDup_app. split; [exact Hnd|]. split; [|exact Hnd'].
      intros cs Hin1 Hin2.
      apply list_elem_of_fmap in Hin1 as (e1 & -> & He1).
      apply list_elem_of_fmap in Hin2 as (e2 & Heq & He2).
      rewrite Forall_forall in Hall, Hall'.
      destruct (Hall e1 He1) as [[x Hx] _].
      destruct (Hall' e2 He2) as [(y & m & Hy & Hm) _].
      rewrite Hx, Hy, <- app_assoc in Heq. apply app_inv_head in Heq.
      cbn [app] in Heq. injection Heq as <- _. contradiction.
    - apply Forall_app. split.
      + eapply Forall_impl; [exact Hall|]. intros e [[x Hx] Hn]. split; [|exact Hn].
        exists x, (dir_name s). rewrite Hx, <- app_assoc. split; [reflexivity|].
        apply list_elem_of_here.
      + eapply Forall_impl; [exact Hall'|]. intros e [(x & m & Hx & Hm) Hn].
        split; [|exact Hn]. exists x, m. split; [exact Hx|]. now apply list_elem_of_further. }
  destruct Hrest as [Hnd Hall]. rewrite fmap_cons. cbn [fst]. split.
  - apply NoDup_cons. split; [|exact Hnd].
    intros Hin. apply list_elem_of_fmap in Hin as (e & Heq & He).
    rewrite Forall_forall in Hall. destruct (Hall e He) as [(x & m & Hx & _) _].
    rewrite Hx in Heq. apply (f_equal length) in Heq.
    rewrite length_app in Heq. cbn [length] in Heq. lia.
  - constructor.
    + split; [exists []; now rewrite app_nil_r | exact Hfs].
    + eapply Forall_impl; [exact Hall|]. intros e [(x & m & Hx & _) Hn].
      split; [now exists (m :: x) | exact Hn].
Qed.

(** Pairs of a key and one of its values, over keys and values without
    repeats, are without repeats. *)
Lemma NoDup_keyed {A B : Type} (l : list (A * list B)) :
  NoDup l.*1 -> Forall (fun e => NoDup e.2) l ->
  NoDup (flat_map (fun e => map (pair e.1) e.2) l).
Proof.
  induction l as [|[a bs] l IH]; intros Hk Hv; [constructor|].
  cbn [fmap list_fmap fst] in Hk. apply NoDup_cons in Hk as [Ha Hk].
  apply Forall_cons in Hv as [Hbs Hv']. cbn [fst snd] in *.
  cbn [flat_map]. apply NoDup_app. split; [|split; [|now apply IH]].
  - apply (NoDup_fmap_2 (pair a)). exact Hbs.
  - intros [a' b] Hin1 Hin2.
    apply list_elem_of_In, in_map_iff in Hin1 as (b' & [= <- <-] & _).
    apply list_elem_of_In, in_flat_map in Hin2 as ([a2 bs2] & He & Hin2).
    apply in_map_iff in Hin2 as (b2 & [= -> _] & _). cbn [fst] in *.
    apply Ha. apply list_elem_of_fmap. exists (a, bs2). split; [reflexivity|].
    now apply list_elem_of_In.
Qed.

(** The rasters a directory lists. *)
Lemma items_sources (root_in root_out : string) (l : list (list string * tree)) :
  (flat_map (fun e => map (item_of root_in root_out e.1)
                          (filter (fun fname => is_tif fname = true) (filenames_of e.2))) l).*1
  = (fun k : list string * string => join_all root_in (k.1 ++ [k.2]))
      <$> flat_map (fun e => map (pair e.1) e.2)
            (map (fun e : list string * tree =>
                    (e.1, filter (fun fname => is_tif fname = true) (filenames_of e.2))) l).
Proof.
  induction l as [|e l IHl]; [reflexivity|].
  cbn [flat_map map fst snd]. rewrite !fmap_app, IHl. f_equal.
  induction (filter (fun fname => is_tif fname = true) (filenames_of e.2)) as [|f fs IHf];
    [reflexivity|].
  cbn [map fmap list_fmap fst snd]. f_equal; [|exact IHf].
  unfold item_of. cbn [fst]. now rewrite join_all_snoc.
Qed.

Lemma items_count (root_in root_out : string) (l : list (list string * tree)) :
  length (flat_map (fun e => map (item_of root_in root_out e.1)
                                 (filter (fun fname => is_tif fname = true) (filenames_of e.2))) l)
  = length (flat_map (fun e => filter (fun fname => is_tif fname = true) (filenames_of e.2)) l).
Proof.
  induction l as [|e l IHl]; [reflexivity|].
  cbn [flat_map]. rewrite !length_app, IHl. now rewrite length_map.
Qed.

(** Every raster gets one work item. In a tree of proper names in which no
    directory lists a name twice, the walker returns as many items as the
    tree has files named like a raster, and their source paths are pairwise
    different: no raster is left out and none is converted twice (two
    rasters may still share a destination). *)
Theorem no_raster_is_planned_twice (root_in root_out : string) (t : tree)
    (w w' : world) (tasks : list task) :
  root_in <> "" -> startswith (cwd w) "/" = true -> proper_tree t = true ->
  (forall e, e ∈ dirs_under [] t -> can_mirror w (mirror_of root_out e.1)) ->
  distinct_names t = true ->
  gather_tif_tasks root_in root_out t w = (w', Return tasks) ->
  NoDup tasks.*1
  /\ length tasks
     = length (flat_map (fun e => filter (fun fname => is_tif fname = true) (filenames_of e.2))
                        (dirs_under [] t)).
Proof.
  intros Hroot Hwd Ht Hcan Hdist Hg.
  rewrite gather_tif_tasks_spec in Hg by assumption. injection Hg as _ <-.
  destruct (dirs_under_distinct t [] Hdist) as [Hnd Hall].
  pose proof (dirs_under_proper t [] (Forall_nil_2 _) Ht) as Hp.
  unfold items_of. split; [|apply items_count].
  rewrite items_sources.
  set (rasters := fun e : list string * tree =>
                    filter (fun fname => is_tif fname = true) (filenames_of e.2)).
  set (keyed := map (fun e : list string * tree => (e.1, rasters e)) (dirs_under [] t)).
  assert (Hkey : forall cs f,
             (cs, f) ∈ flat_map (fun e => map (pair e.1) e.2) keyed ->
             Forall (fun n => proper_name n = true) (cs ++ [f])).
  { intros cs f Hin. apply list_elem_of_In, in_flat_map in Hin as ([cs' fs'] & He & Hin).
    apply in_map_iff in Hin as (f' & [= <- <-] & Hf). cbn [fst snd] in *.
    unfold keyed in He. apply in_map_iff in He as (e & [= <- <-] & He).
    rewrite Forall_forall in Hp. apply list_elem_of_In in He.
    destruct (Hp e He) as [Hcs Hfs]. apply Forall_app. split; [exact Hcs|].
    constructor; [|constructor].
    apply list_elem_of_In in Hf. unfold rasters in Hf.
    apply list_elem_of_filter in Hf as [_ Hf].
    rewrite Forall_forall in Hfs. now apply Hfs. }
  apply NoDup_fmap_2_strong.
  - intros [cs1 f1] [cs2 f2] Hin1 Hin2 Heq. cbn [fst snd] in Heq.
    apply join_all_inj in Heq;
      try (now apply Hkey); try (now destruct cs1); try (now destruct cs2).
    apply app_inj_tail in Heq as [-> ->]. reflexivity.
  - apply NoDup_keyed.
    + unfold keyed. rewrite <- list_fmap_compose. exact Hnd.
    + unfold keyed. apply Forall_fmap. eapply Forall_impl; [exact Hall|].
      intros e [_ Hn]. cbn. unfold rasters. now apply NoDup_filter.
Qed.

Lemma no_raster_is_planned_twice_witness :
  let t := Dir "in" [Dir "A" [] ["a.tif"]; Dir "B" [] ["a.tif"; "a.TIF"]] ["a.tif"] in
  exists w' tasks,
    gather_tif_tasks "in" "out" t empty_world = (w', Return tasks)
    /\ NoDup tasks.*1 /\ length tasks = 4%nat.
Proof.
  intros t.
  assert (Hroot : "in" <> "") by discriminate.
  assert (Hwd : startswith (cwd empty_world) "/" = true) by reflexivity.
  assert (Ht : proper_tree t = true) by reflexivity.
  assert (Hcan : forall e, e ∈ dirs_under [] t -> can_mirror empty_world (mirror_of "out" e.1)).
  { intros e He. right. split; [|apply not_elem_of_empty].
    vm_compute in He. repeat (apply elem_of_cons in He as [-> | He]); try reflexivity;
      now apply elem_of_nil in He. }
  assert (Hdist : distinct_names t = true) by (vm_compute; reflexivity).
  destruct (gather_tif_tasks "in" "out" t empty_world) as [w' [tasks|e]] eqn:Hg;
    [|vm_compute in Hg; discriminate].
  exists w', tasks. split; [reflexivity|].
  destruct (no_raster_is_planned_twice "in" "out" t empty_world w' tasks
              Hroot Hwd Ht Hcan Hdist Hg) as [Hnd Hlen].
  split; [exact Hnd|]. rewrite Hlen. reflexivity.
Defined.

(** ** The batch: what is reported, and what an escaped exception leaves *)

Section MorePool.
Context `{Collaborators}.

(** The loop never prints more lines than futures it has been handed. *)
Lemma printed_le_counter_step (max_workers total : nat) (a : action) (p p' : pool) :
  (length (printed p) <= counter p)%nat ->
  step max_workers total a p = Some p' ->
  (length (printed p') <= counter p')%nat.
Proof.
  intros Hle. destruct a as [|k|k]; cbn [step]; intros Hstep.
  - destruct (queued p); [discriminate|].
    destruct (length (running p) <? max_workers)%nat; [|discriminate].
    now injection Hstep as <-.
  - destruct (running p !! k) as [[id t]|]; [|discriminate].
    destruct (convert_tif_to_kmz_task t (disk p)).
    now injection Hstep as <-.
  - destruct (escaped p); [discriminate|].
    destruct (finished p !! k) as [[id [[tif_path status]|e]]|]; [| |discriminate];
      injection Hstep as <-; cbn [printed counter]; [|lia].
    rewrite length_app. cbn [length]. lia.
Qed.

Lemma printed_le_counter_exec (max_workers total : nat) (sched : list action) :
  forall p p',
    (length (printed p) <= counter p)%nat ->
    exec max_workers total sched p = Some p' ->
    (length (printed p') <= counter p')%nat.
Proof.
  induction sched as [|a sched IH]; intros p p' Hle Hexec; cbn [exec] in Hexec.
  - now injection Hexec as <-.
  - destruct (step max_workers total a p) as [p1|] eqn:Es; [|discriminate].
    eapply IH; [|exact Hexec]. eapply printed_le_counter_step; eassumption.
Qed.

(** No item is reported twice, and the lines never outnumber the items: at
    every moment of every batch, under any scheduling and also after an
    exception has escaped, the futures handed to the loop are distinct ones
    among those submitted, the counter [i] is their number, and the lines
    printed are at most as many. *)
Theorem lines_never_outnumber_items (tasks : list task) (max_workers : nat)
    (sched : list action) (w : world) (p : pool) :
  exec max_workers (length tasks) sched (submit_all tasks w) = Some p ->
  NoDup (yielded p).*1
  /\ (forall id, id ∈ (yielded p).*1 -> is_Some (tasks !! id))
  /\ counter p = length (yielded p)
  /\ (length (printed p) <= length (yielded p) <= length tasks)%nat.
Proof.
  intros Hexec.
  pose proof (pool_inv_exec _ _ _ _ _ (pool_inv_submit_all tasks w) Hexec)
    as [Hids _ _ Hcount _].
  pose proof (printed_le_counter_exec _ _ _ _ _ (Nat.le_0_l _ : (length (printed (submit_all tasks w)) <= _)%nat) Hexec) as Hle.
  assert (Hnd : NoDup ((queued p).*1 ++ (running p).*1 ++ (finished p).*1 ++ (yielded p).*1)).
  { rewrite Hids. apply NoDup_seq. }
  apply NoDup_app in Hnd as (_ & _ & Hnd). apply NoDup_app in Hnd as (_ & _ & Hnd).
  apply NoDup_app in Hnd as (_ & _ & Hnd).
  split; [exact Hnd|]. split; [|split; [exact Hcount|]].
  - intros id Hid. apply lookup_lt_is_Some.
    assert (Hin : id ∈ seq 0 (length tasks)).
    { rewrite <- Hids. rewrite !elem_of_app. auto. }
    apply elem_of_seq in Hin. lia.
  - apply Permutation_length in Hids. rewrite !length_app, length_seq in Hids.
    rewrite !length_fmap in Hids. unfold task, result in *. lia.
Qed.

(** Once an exception has escaped into the loop, the loop is over: whatever
    happens afterwards is a worker taking a queued item or finishing one.
    The calls still queued or running are run to their end, and change the
    disk as they do, but nothing more is handed to the loop, counted or
    printed, and the exception that escaped stays the one reported. *)
Theorem escape_silences_the_rest (max_workers total : nat) (sched : list action)
    (p p' : pool) (e : exn) :
  escaped p = Some e ->
  exec max_workers total sched p = Some p' ->
  escaped p' = Some e
  /\ printed p' = printed p /\ yielded p' = yielded p /\ counter p' = counter p
  /\ (exists later, finished p' = finished p ++ later)
  /\ Forall (fun a => a = Start \/ exists k, a = Finish k) sched.
Proof.
  revert p. induction sched as [|a sched IH]; intros p He Hexec; cbn [exec] in Hexec.
  - injection Hexec as <-.
    repeat split; try (assumption || reflexivity); [|constructor].
    exists []. now rewrite app_nil_r.
  - destruct (step max_workers total a p) as [p1|] eqn:Es; [|discriminate].
    assert (Hstep : escaped p1 = Some e /\ printed p1 = printed p /\ yielded p1 = yielded p
                    /\ counter p1 = counter p
                    /\ (exists l, finished p1 = finished p ++ l)
                    /\ (a = Start \/ exists k, a = Finish k)).
    { destruct a as [|k|k]; cbn [step] in Es.
      - destruct (queued p); [discriminate|].
        destruct (length (running p) <? max_workers)%nat; [|discriminate].
        injection Es as <-. cbn. repeat split; auto. exists []. now rewrite app_nil_r.
      - destruct (running p !! k) as [[id t]|]; [|discriminate].
        destruct (convert_tif_to_kmz_task t (disk p)) as [w1 r].
        injection Es as <-. cbn. repeat split; eauto.
      - rewrite He in Es. discriminate. }
    destruct Hstep as (He1 & Hp1 & Hy1 & Hc1 & [l Hf1] & Ha).
    destruct (IH p1 He1 Hexec) as (He' & Hp' & Hy' & Hc' & [later Hf'] & Hs').
    repeat split; try congruence.
    + exists (l ++ later). now rewrite Hf', Hf1, <- app_assoc.
    + now constructor.
Qed.

End MorePool.

Lemma lines_never_outnumber_items_witness :
  exists p,
    @exec no_tmp 2 (length sample_tasks) [Start; Start; Finish 0; Finish 0; Yield 0]
      (submit_all sample_tasks sample_world) = Some p
    /\ (length (printed p) <= length (yielded p) <= length sample_tasks)%nat.
Proof.
  destruct (@exec no_tmp 2 (length sample_tasks) [Start; Start; Finish 0; Finish 0; Yield 0]
              (submit_all sample_tasks sample_world)) as [p|] eqn:Hexec;
    [|vm_compute in Hexec; discriminate].
  exists p. split; [reflexivity|].
  exact (proj2 (proj2 (proj2 (@lines_never_outnumber_items no_tmp sample_tasks 2 _
                                sample_world p Hexec)))).
Defined.

Lemma escape_silences_the_rest_witness :
  exists p p',
    @exec no_tmp 2 2 [Start; Start; Finish 0; Yield 0]
      (submit_all sample_tasks sample_world) = Some p
    /\ @exec no_tmp 2 2 [Finish 0] p = Some p'
    /\ length (running p) = 1%nat /\ running p' = []
    /\ printed p' = printed p /\ settled p' = true.
Proof.
  destruct (@exec no_tmp 2 2 [Start; Start; Finish 0; Yield 0]
              (submit_all sample_tasks sample_world)) as [p|] eqn:Hexec;
    [|vm_compute in Hexec; discriminate].
  destruct (@exec no_tmp 2 2 [Finish 0] p) as [p'|] eqn:Hrest;
    [|vm_compute in Hexec; injection Hexec as <-; vm_compute in Hrest; discriminate].
  exists p, p'. split; [reflexivity|]. split; [exact Hrest|].
  assert (He : escaped p
               = Some (Exn "FileNotFoundError" "[Errno 2] No usable temporary directory found"))
    by (vm_compute in Hexec; now injection Hexec as <-).
  destruct (@escape_silences_the_rest no_tmp 2 2 [Finish 0] p p' _ He Hrest)
    as (_ & Hp & _).
  assert (Hrun : length (running p) = 1%nat /\ running p' = [] /\ settled p' = true).
  { vm_compute in Hexec. injection Hexec as <-. vm_compute in Hrest. injection Hrest as <-.
    repeat split; reflexivity. }
  destruct Hrun as (Hr1 & Hr2 & Hs). auto.
Defined.
